(** * Duplicate detection for bibliographic records: a shallow embedding

    The development follows the Python scripts of the repository:
    - [clean.py]      ([BibDeduplicator]): DOI pass, then title/author similarity pass;
    - [clean_mf.py]   ([Deduplicator]): pairwise [are_duplicates];
    - [clean_csv.py]  ([CSVDeduplicator]): composite comparison keys, [py_.group_by];
    - [clean_xlsx.py] ([ExcelDeduplicator]): composite comparison keys.

    - [list.py]       ([BibContentExtractor]): [clean_text], [generate_summary].

    ([filter.py] holds the keyword filter; it takes no part in duplicate
    detection and is left out.)

    Python [str] values are sequences of Unicode code points.  The Unicode
    character database the scripts reach through [str.lower],
    [unicodedata.normalize], [unicodedata.category] and the [re] classes
    [\w] and [\s] is a parameter of the development (class [UnicodeData]);
    [difflib.SequenceMatcher] is transcribed from CPython's [Lib/difflib.py]. *)

From Stdlib Require Import ZArith NArith QArith Lia.
From Stdlib Require Import Strings.String Strings.Ascii DecimalString.
From stdpp Require Import base gmap strings list sets sorting.

(** ** Python strings *)

Module Py.

Abbreviation codepoint := N.

(** A Python [str]: its code points in order. *)
Abbreviation str := (list codepoint).

(** An ASCII literal of the source as a [str]. *)
Definition lit (s : string) : str := map N_of_ascii (list_ascii_of_string s).

(** What the scripts use of the Unicode character database. *)
Class UnicodeData := {
  (** [s.lower()] *)
  lower : str → str;
  (** [unicodedata.normalize('NFKD', s)] *)
  NFKD : str → str;
  (** a character matched by [\w] in a [str] pattern *)
  is_word : codepoint → bool;
  (** a character matched by [\s]; also what [strip()] and [split()] drop *)
  is_space : codepoint → bool;
  (** [unicodedata.category(c) == 'Mn'] *)
  is_Mn : codepoint → bool
}.

Section Strings.
Context `{UnicodeData}.

(** [bool(s)]: a string is truthy when it is not empty. *)
Definition truthy (s : str) : bool :=
  match s with [] => false | _ => true end.

Fixpoint lstrip (s : str) : str :=
  match s with
  | c :: r => if is_space c then lstrip r else s
  | [] => []
  end.

Definition rstrip (s : str) : str := rev (lstrip (rev s)).

(** [s.strip()] *)
Definition strip (s : str) : str := rstrip (lstrip s).

(** [re.sub(r'[^\w\s]', repl, s)] for a replacement [repl]. *)
Definition keep (c : codepoint) : bool := is_word c || is_space c.

Fixpoint sub_nonword (repl : str) (s : str) : str :=
  match s with
  | [] => []
  | c :: r => if keep c then c :: sub_nonword repl r
              else repl ++ sub_nonword repl r
  end.

(** [re.sub(r'\s+', ' ', s)]: [in_run] tells that the character before
    belongs to the run of whitespace already replaced. *)
Fixpoint sub_spaces (in_run : bool) (s : str) : str :=
  match s with
  | [] => []
  | c :: r =>
      if is_space c
      then (if in_run then sub_spaces true r else 32%N :: sub_spaces true r)
      else c :: sub_spaces false r
  end.

(** [s.split()]: the maximal runs of non-whitespace; [cur] is the word
    being read, reversed. *)
Fixpoint split_ws (cur : str) (s : str) : list str :=
  match s with
  | [] => match cur with [] => [] | _ => [rev cur] end
  | c :: r =>
      if is_space c
      then match cur with [] => split_ws [] r | _ => rev cur :: split_ws [] r end
      else split_ws (c :: cur) r
  end.

Definition split (s : str) : list str := split_ws [] s.

(** [sep.join(parts)] *)
Fixpoint join (sep : str) (parts : list str) : str :=
  match parts with
  | [] => []
  | [p] => p
  | p :: ps => p ++ sep ++ join sep ps
  end.

(** [collapsed in_run s]: every whitespace character of [s] is one U+0020
    that follows a character which is not whitespace ([in_run] tells that
    the character before [s] is whitespace). *)
Fixpoint collapsed (in_run : bool) (s : str) : Prop :=
  match s with
  | [] => True
  | c :: r =>
      if is_space c then c = 32%N ∧ in_run = false ∧ collapsed true r
      else collapsed false r
  end.

(** [s] is empty or begins with a character that is not whitespace. *)
Definition starts_clean (s : str) : Prop :=
  match s with [] => True | c :: _ => is_space c = false end.

(** A word of [split]: not empty, without whitespace. *)
Definition word (w : str) : Prop := w ≠ [] ∧ Forall (λ c, is_space c = false) w.

(** What the normalizers of [clean.py], [clean_csv.py] and [clean_xlsx.py]
    return: word and whitespace characters only, every whitespace character
    a single U+0020 between two other characters. *)
Definition normalized (s : str) : Prop :=
  Forall (λ c, keep c = true) s ∧ collapsed false s
  ∧ starts_clean s ∧ starts_clean (rev s).

End Strings.

(** The values a table cell or a dictionary entry holds once [pandas] has
    read a file: [None], the float [nan] of a missing cell, a string, an
    integer.  (Other floats do not occur in the claims and are left out.) *)
Inductive value :=
| VNone
| VNaN
| VStr (s : str)
| VInt (z : Z).

(** [pd.isna(v)] on a scalar *)
Definition isna (v : value) : bool :=
  match v with
  | VNone | VNaN => true
  | VStr _ | VInt _ => false
  end.

(** [str(v)] *)
Definition to_str (v : value) : str :=
  match v with
  | VNone => lit "None"
  | VNaN => lit "nan"
  | VStr s => s
  | VInt z => lit (DecimalString.NilZero.string_of_int (Z.to_int z))
  end.

(** The character database restricted to Basic Latin (U+0000..U+007F) and
    three further characters: U+00E9 (e with acute), U+0301 (combining
    acute accent) and U+2122 (trade mark sign).  On these the tables below
    are those of Unicode; no other character is modelled. *)
Definition in_excerpt (c : codepoint) : bool :=
  (c <? 128)%N || (c =? 233)%N || (c =? 769)%N || (c =? 8482)%N.

Definition lower_char (c : codepoint) : codepoint :=
  if (65 <=? c)%N && (c <=? 90)%N then (c + 32)%N else c.

Definition nfkd_char (c : codepoint) : str :=
  if (c =? 233)%N then [101; 769]%N
  else if (c =? 8482)%N then [84; 77]%N
  else [c].

Definition ascii_alnum (c : codepoint) : bool :=
  ((48 <=? c) && (c <=? 57) || (65 <=? c) && (c <=? 90)
   || (97 <=? c) && (c <=? 122))%N.

Definition excerpt : UnicodeData := {|
  lower := map lower_char;
  NFKD := flat_map nfkd_char;
  is_word c := ascii_alnum c || (c =? 95)%N || (c =? 233)%N;
  is_space c := ((9 <=? c) && (c <=? 13) || (28 <=? c) && (c <=? 32))%N;
  is_Mn c := (c =? 769)%N
|}.

(** An ASCII character that [lower] of the [excerpt] leaves alone. *)
Definition plain (c : codepoint) : Prop := (c < 128)%N ∧ lower_char c = c.

End Py.

(** ** [difflib.SequenceMatcher(None, a, b)]

    Transcribed from CPython's [Lib/difflib.py] for [isjunk = None] and
    [autojunk = True], the way [calculate_similarity] constructs it.
    Positions are natural numbers; a block [(i, j, k)] says that
    [a[i:i+k] == b[j:j+k]]. *)

Module Difflib.
Import Py.

Definition Match : Type := nat * nat * nat.

Section SequenceMatcher.
Variables a b : str.

(** [__chain_b]: [b2j] maps each element of [b] to the increasing list
    of its positions ([setdefault(elt, []).append(i)]). *)
Definition chain_step (b2j : gmap codepoint (list nat)) (ie : nat * codepoint)
  : gmap codepoint (list nat) :=
  <[ie.2 := default [] (b2j !! ie.2) ++ [ie.1]]> b2j.

Definition b2j_all : gmap codepoint (list nat) :=
  fold_left chain_step (imap pair b) ∅.

(** No element is junk ([isjunk] is [None]), so [bjunk] is empty. *)
Definition isbjunk (elt : codepoint) : bool := false.

(** With [autojunk] and [len(b) >= 200], every element with more than
    [n // 100 + 1] occurrences is popular and is deleted from [b2j]. *)
Definition ntest : nat := length b / 100 + 1.

Definition b2j : gmap codepoint (list nat) :=
  if 200 <=? length b
  then filter (λ kv, length kv.2 ≤ ntest) b2j_all
  else b2j_all.

(** [j2len.get(j-1, 0)]: the key [-1] is never present. *)
Definition j2lenget (j2len : gmap nat nat) (j : nat) : nat :=
  match j with
  | 0 => 0
  | S j' => default 0 (j2len !! j')
  end.

(** The inner loop of [find_longest_match] over the positions [js] of
    [a[i]] in [b]: [continue] below [blo], [break] from [bhi] on.
    [i + 1 - k] is [i-k+1]; [k] never exceeds [i + 1] or [j + 1] (lemma
    [scan_row_within]), so nothing is cut off at zero. *)
Fixpoint scan_row (i blo bhi : nat) (j2len : gmap nat nat) (js : list nat)
    (newj2len : gmap nat nat) (best : Match) : gmap nat nat * Match :=
  match js with
  | [] => (newj2len, best)
  | j :: js' =>
      if j <? blo then scan_row i blo bhi j2len js' newj2len best
      else if bhi <=? j then (newj2len, best)
      else
        let k := j2lenget j2len j + 1 in
        let newj2len := <[j := k]> newj2len in
        if best.2 <? k
        then scan_row i blo bhi j2len js' newj2len (i + 1 - k, j + 1 - k, k)
        else scan_row i blo bhi j2len js' newj2len best
  end.

(** [b2j.get(a[i], nothing)] *)
Definition row_positions (i : nat) : list nat :=
  match a !! i with
  | Some elt => default [] (b2j !! elt)
  | None => []
  end.

(** The outer loop, [for i in range(alo, ahi)]. *)
Fixpoint scan_rows (blo bhi : nat) (rows : list nat) (j2len : gmap nat nat)
    (best : Match) : Match :=
  match rows with
  | [] => best
  | i :: rows' =>
      let r := scan_row i blo bhi j2len (row_positions i) ∅ best in
      scan_rows blo bhi rows' r.1 r.2
  end.

Definition same_elt (i j : nat) : bool :=
  match a !! i, b !! j with
  | Some x, Some y => (x =? y)%N
  | _, _ => false
  end.

Definition junk_at (j : nat) : bool :=
  match b !! j with Some y => isbjunk y | None => false end.

(** [while besti > alo and bestj > blo and (not) isbjunk(b[bestj-1])
    and a[besti-1] == b[bestj-1]]; [junk] selects the junk variant. *)
Fixpoint extend_left (junk : bool) (alo blo besti bestj bestsize : nat) : Match :=
  match besti, bestj with
  | S i', S j' =>
      if (alo <? besti) && (blo <? bestj)
         && bool_decide (junk_at j' = junk) && same_elt i' j'
      then extend_left junk alo blo i' j' (S bestsize)
      else (besti, bestj, bestsize)
  | _, _ => (besti, bestj, bestsize)
  end.

(** [while besti+bestsize < ahi and bestj+bestsize < bhi and ...]: each
    turn moves [besti + bestsize] one step towards [ahi], so [todo], the
    distance left, bounds the number of turns. *)
Fixpoint extend_right (junk : bool) (ahi bhi besti bestj bestsize todo : nat) : nat :=
  match todo with
  | 0 => bestsize
  | S todo' =>
      if (besti + bestsize <? ahi) && (bestj + bestsize <? bhi)
         && bool_decide (junk_at (bestj + bestsize) = junk)
         && same_elt (besti + bestsize) (bestj + bestsize)
      then extend_right junk ahi bhi besti bestj (S bestsize) todo'
      else bestsize
  end.

Definition extend (junk : bool) (alo ahi blo bhi : nat) (m : Match) : Match :=
  let '(besti, bestj, bestsize) := extend_left junk alo blo m.1.1 m.1.2 m.2 in
  (besti, bestj,
   extend_right junk ahi bhi besti bestj bestsize (ahi - (besti + bestsize))).

Definition find_longest_match (alo ahi blo bhi : nat) : Match :=
  let best := scan_rows blo bhi (seq alo (ahi - alo)) ∅ (alo, blo, 0) in
  extend true alo ahi blo bhi (extend false alo ahi blo bhi best).

(** The work list of [get_matching_blocks]: [queue.pop()] takes the last
    element pushed, so the head of the list is the top.  [turns] bounds
    the number of turns of [while queue]; [2 * len(a) + 1] turns always
    empty the queue (lemma [get_matching_blocks_terminates]). *)
Definition Range : Type := nat * nat * nat * nat.

Definition push_if (c : bool) (r : Range) (queue : list Range) : list Range :=
  if c then r :: queue else queue.

Fixpoint matching_loop (turns : nat) (queue : list Range)
    (matching_blocks : list Match) : list Match :=
  match turns, queue with
  | S turns', (alo, ahi, blo, bhi) :: queue' =>
      let x := find_longest_match alo ahi blo bhi in
      let '(i, j, k) := x in
      if 0 <? k then
        let queue1 := push_if ((alo <? i) && (blo <? j)) (alo, i, blo, j) queue' in
        let queue2 :=
          push_if ((i + k <? ahi) && (j + k <? bhi)) (i + k, ahi, j + k, bhi) queue1 in
        matching_loop turns' queue2 (matching_blocks ++ [x])
      else matching_loop turns' queue' matching_blocks
  | _, _ => matching_blocks
  end.

(** Tuples compare lexicographically; [matching_blocks.sort()]. *)
Definition Match_leb (x y : Match) : bool :=
  (x.1.1 <? y.1.1)
  || (x.1.1 =? y.1.1) && ((x.1.2 <? y.1.2) || (x.1.2 =? y.1.2) && (x.2 <=? y.2)).

Fixpoint insert_sorted (x : Match) (l : list Match) : list Match :=
  match l with
  | [] => [x]
  | y :: l' => if Match_leb x y then x :: l else y :: insert_sorted x l'
  end.

Definition sort (l : list Match) : list Match := foldr insert_sorted [] l.

(** The loop that collapses adjacent blocks; [(i1, j1, k1)] is the block
    compared against, [(0, 0, 0)] at the start. *)
Fixpoint collapse (cur : Match) (blocks : list Match) (non_adjacent : list Match)
    : list Match :=
  let '(i1, j1, k1) := cur in
  match blocks with
  | [] => if 0 <? k1 then non_adjacent ++ [cur] else non_adjacent
  | (i2, j2, k2) :: blocks' =>
      if (i1 + k1 =? i2) && (j1 + k1 =? j2)
      then collapse (i1, j1, k1 + k2) blocks' non_adjacent
      else collapse (i2, j2, k2) blocks'
             (if 0 <? k1 then non_adjacent ++ [cur] else non_adjacent)
  end.

Definition get_matching_blocks : list Match :=
  let la := length a in
  let lb := length b in
  let matching_blocks := matching_loop (2 * la + 1) [(0, la, 0, lb)] [] in
  collapse (0, 0, 0) (sort matching_blocks) [] ++ [(la, lb, 0)].

Definition matches : nat := foldr plus 0 (map snd get_matching_blocks).

End SequenceMatcher.

(** The positions of [c] in [l], counted from [k]. *)
Fixpoint positions_from (k : nat) (c : codepoint) (l : str) : list nat :=
  match l with
  | [] => []
  | x :: r =>
      if (x =? c)%N then k :: positions_from (S k) c r
      else positions_from (S k) c r
  end.

(** The entry of an element in [b2j] once the positions [ps] are appended
    to [old]. *)
Definition appended (old : option (list nat)) (ps : list nat) : option (list nat) :=
  match ps with
  | [] => old
  | _ => Some (default [] old ++ ps)
  end.

(** [s[j]] is a key of [b2j]: it is not a popular element. *)
Definition live_at (s : str) (j : nat) : bool :=
  match s !! j with
  | Some c => bool_decide (is_Some (b2j s !! c))
  | None => false
  end.

(** The number of consecutive live positions just below [j]. *)
Fixpoint run_len (s : str) (j : nat) : nat :=
  match j with
  | 0 => 0
  | S j' => if live_at s j' then S (run_len s j') else 0
  end.

(** [j2len.get(j, 0)] *)
Definition j2len_at (j2len : gmap nat nat) (j : nat) : nat := default 0 (j2len !! j).

(** What holds of [j2len] and of the best block when [find_longest_match]
    on [(s, s)] starts row [i]: the lengths recorded are bounded by the live
    runs, the one on the diagonal is the live run, and the best block lies
    on the diagonal and is at least as long as every live run above. *)
Definition diagonal (s : str) (i : nat) (J : gmap nat nat) (best : Match) : Prop :=
  (∀ j, j2lenget J j ≤ run_len s i ∧ j2lenget J j ≤ run_len s j)
  ∧ j2lenget J i = run_len s i
  ∧ best.1.1 = best.1.2 ∧ best.1.1 + best.2 ≤ i
  ∧ (∀ r, r ≤ i → run_len s r ≤ best.2).

(** The block [m] lies within the window [(alo, ahi, blo, bhi)]. *)
Definition within (w : Range) (m : Match) : Prop :=
  w.1.1.1 ≤ m.1.1 ∧ m.1.1 + m.2 ≤ w.1.1.2
  ∧ w.1.2 ≤ m.1.2 ∧ m.1.2 + m.2 ≤ w.2.

Definition proper (w : Range) : Prop := w.1.1.1 ≤ w.1.1.2 ∧ w.1.2 ≤ w.2.

(** A bound on the turns [while queue] still takes. *)
Definition queue_weight (queue : list Range) : nat :=
  foldr (λ w n, 2 * (w.1.1.2 - w.1.1.1) + 1 + n) 0 queue.

(** [_calculate_ratio]: [2.0 * matches / length], and [1.0] when
    [length] is zero.  The quotient is kept as an exact rational; Python
    rounds it to the nearest double, which is monotone and changes neither
    0 nor 1. *)
Definition calculate_ratio (matches length : nat) : Q :=
  match length with
  | 0 => 1
  | _ => (2 * Z.of_nat matches) # Pos.of_nat length
  end.

Definition ratio (a b : Py.str) : Q :=
  calculate_ratio (matches a b) (length a + length b).

(** The sum of the sizes of the blocks. *)
Definition total_size (blocks : list Match) : nat :=
  foldr plus 0 (map snd blocks).

(** The room the windows of the queue leave in [a] and in [b]. *)
Definition queue_room_a (queue : list Range) : nat :=
  foldr (λ w n, (w.1.1.2 - w.1.1.1) + n) 0 queue.
Definition queue_room_b (queue : list Range) : nat :=
  foldr (λ w n, (w.2 - w.1.2) + n) 0 queue.

End Difflib.

(** ** [clean.py]: [BibDeduplicator] *)

Module Clean.
Import Py.

(** A BibTeX entry as [bibtexparser] yields it: a [dict] from field names
    to strings. *)
Abbreviation entry := (gmap string str).

(** Computations that record the calls they make to
    [calculate_similarity]: the value together with the argument pairs, in
    call order. *)
Definition Traced (A : Type) : Type := A * list (str * str).
#[global] Instance Traced_ret : MRet Traced := λ A x, (x, []).
#[global] Instance Traced_bind : MBind Traced :=
  λ A B f m, let r := f m.1 in (r.1, m.2 ++ r.2).

Definition Qgtb (x y : Q) : bool := negb (Qle_bool x y).

Section BibDeduplicator.
Context `{UnicodeData}.

(** [text] is [None] or a string; [if not text] catches [None] and the
    empty string. *)
Definition normalize_string (text : option str) : str :=
  match text with
  | None => []
  | Some text =>
      if negb (truthy text) then []
      else
        let text := NFKD (lower text) in
        let text := sub_nonword [] text in
        strip (sub_spaces false text)
  end.

Definition calculate_similarity (str1 str2 : str) : Q := Difflib.ratio str1 str2.

Definition calculate_similarity_traced (str1 str2 : str) : Traced Q :=
  (calculate_similarity str1 str2, [(str1, str2)]).

(** [entry.get(field, '')] *)
Definition get_or_empty (e : entry) (field : string) : option str :=
  Some (default [] (e !! field)).

Definition are_entries_similar_traced (entry1 entry2 : entry)
    (title_threshold author_threshold : Q) : Traced bool :=
  let title1 := normalize_string (get_or_empty entry1 "title") in
  let title2 := normalize_string (get_or_empty entry2 "title") in
  title_similarity ← calculate_similarity_traced title1 title2;
  if Qgtb title_similarity title_threshold then
    let authors1 := normalize_string (get_or_empty entry1 "author") in
    let authors2 := normalize_string (get_or_empty entry2 "author") in
    author_similarity ← calculate_similarity_traced authors1 authors2;
    mret (Qgtb author_similarity author_threshold)
  else mret false.

Definition are_entries_similar (entry1 entry2 : entry)
    (title_threshold author_threshold : Q) : bool :=
  (are_entries_similar_traced entry1 entry2 title_threshold author_threshold).1.

(** The default thresholds, [0.95] and [0.8].  A score is [2m/T] for
    naturals [m] and [T]: when it differs from 19/20 or from 4/5, it does so
    by at least [1/(20 T)], far more than the rounding of a double, so
    comparing the rationals is comparing the doubles of the script. *)
Definition title_threshold_default : Q := 95 # 100.
Definition author_threshold_default : Q := 8 # 10.

(** [check_doi_duplicates].  The objects of the list are told apart by
    their position: every entry of [all_entries] is a distinct live
    object, so [id] is injective on positions.  A pair
    [(original, duplicate)] is kept as the two positions. *)
Definition doi_step (st : gmap str nat * list (nat * nat)) (ie : nat * entry)
  : gmap str nat * list (nat * nat) :=
  match ie.2 !! "doi" with
  | Some doi =>
      if truthy doi then
        let doi := strip (lower doi) in
        match st.1 !! doi with
        | Some original => (st.1, st.2 ++ [(original, ie.1)])
        | None => (<[doi := ie.1]> st.1, st.2)
        end
      else st
  | None => st
  end.

Definition check_doi_duplicates (entries : list entry) : list (nat * nat) :=
  (fold_left doi_step (imap pair entries) (∅, [])).2.

Inductive method := DOI_match | Title_Author_similarity.

(** What a run emits, in program order: [Logged] for each call of
    [log_duplicate] (logger and duplicates file), and, as a ghost record,
    [Compared] for each call of [are_entries_similar]. *)
Inductive event :=
| Compared (i j : nat)
| Logged (original duplicate : nat) (m : method).

Record state := State {
  removed_entries : gset nat;
  duplicates_count : nat;
  log : list event
}.

Definition emit (e : event) (st : state) : state :=
  State (removed_entries st) (duplicates_count st) (log st ++ [e]).

(** One turn of a loop body that found a duplicate:
    [duplicates_count += 1; removed_entries.add(id(duplicate));
     self.log_duplicate(original, duplicate, method)]. *)
Definition claim (original duplicate : nat) (m : method) (st : state) : state :=
  State ({[duplicate]} ∪ removed_entries st) (S (duplicates_count st))
        (log st ++ [Logged original duplicate m]).

Definition doi_pass (all_entries : list entry) (st : state) : state :=
  fold_left (λ st od, claim od.1 od.2 DOI_match st)
            (check_doi_duplicates all_entries) st.

Definition similar_at (all_entries : list entry) (i j : nat) : bool :=
  match all_entries !! i, all_entries !! j with
  | Some ei, Some ej =>
      are_entries_similar ei ej title_threshold_default author_threshold_default
  | _, _ => false
  end.

(** The body of [for j in range(i + 1, len(all_entries))]. *)
Definition inner_step (all_entries : list entry) (i : nat) (st : state) (j : nat)
  : state :=
  if bool_decide (j ∈ removed_entries st) then st
  else
    let st := emit (Compared i j) st in
    if similar_at all_entries i j
    then claim i j Title_Author_similarity st
    else st.

(** The body of [for i in range(len(all_entries))]. *)
Definition outer_step (all_entries : list entry) (st : state) (i : nat) : state :=
  if bool_decide (i ∈ removed_entries st) then st
  else
    let n := length all_entries in
    fold_left (inner_step all_entries i) (seq (i + 1) (n - (i + 1))) st.

Definition similarity_pass (all_entries : list entry) (st : state) : state :=
  fold_left (outer_step all_entries) (seq 0 (length all_entries)) st.

(** The state after both passes; [log0] is what the logger and the
    duplicates file hold when the run starts. *)
Definition run (all_entries : list entry) (log0 : list event) : state :=
  similarity_pass all_entries (doi_pass all_entries (State ∅ 0 log0)).

(** [[entry for entry in all_entries if id(entry) not in removed_entries]],
    as positions and as entries. *)
Definition unique_ids (all_entries : list entry) (st : state) : list nat :=
  filter (λ i, i ∉ removed_entries st) (seq 0 (length all_entries)).

Definition unique_of (all_entries : list entry) (st : state) : list entry :=
  (filter (λ ie, ie.1 ∉ removed_entries st) (imap pair all_entries)).*2.

Definition deduplicate_entries (all_entries : list entry) (log0 : list event)
  : list entry * state :=
  let st := run all_entries log0 in
  (unique_of all_entries st, st).

(** The duplicates a log reports, in order. *)
Definition duplicates_of (l : list event) : list nat :=
  flat_map (λ e, match e with Logged _ d _ => [d] | Compared _ _ => [] end) l.

Definition originals_of (l : list event) : list nat :=
  flat_map (λ e, match e with Logged o _ _ => [o] | Compared _ _ => [] end) l.

(** [orderly claimed t]: read from a moment at which the records of
    [claimed] have been claimed as duplicates, the trace [t] never compares
    a claimed record, never uses one as an original and never claims one
    again. *)
Fixpoint orderly (claimed : gset nat) (t : list event) : Prop :=
  match t with
  | [] => True
  | Compared i j :: t' => (i ∉ claimed) ∧ (j ∉ claimed) ∧ orderly claimed t'
  | Logged o d _ :: t' =>
      (o ∉ claimed) ∧ (d ∉ claimed) ∧ orderly ({[d]} ∪ claimed) t'
  end.

(** What holds of the state all along a run on [n] entries: the log claims
    each duplicate once, [removed_entries] is the set of the duplicates
    claimed, [duplicates_count] counts them, and the log is orderly. *)
Record consistent (n : nat) (st : state) : Prop := Consistent {
  consistent_nodup : NoDup (duplicates_of (log st));
  consistent_removed : ∀ d, d ∈ removed_entries st ↔ d ∈ duplicates_of (log st);
  consistent_count : duplicates_count st = length (duplicates_of (log st));
  consistent_bound : ∀ d, d ∈ removed_entries st → d < n;
  consistent_orderly : orderly ∅ (log st)
}.

(** What holds of the work of [check_doi_duplicates] once the entries before
    position [k] are read: a pair goes from an earlier to a later position
    below [k], the positions kept in [doi_map] and the originals are not
    duplicates, and no position is a duplicate twice. *)
Definition doi_consistent (k : nat) (st : gmap str nat * list (nat * nat)) : Prop :=
  (∀ o d, (o, d) ∈ st.2 → o < d ∧ d < k ∧ o ∉ st.2.*2)
  ∧ (∀ key v, st.1 !! key = Some v → v < k ∧ v ∉ st.2.*2)
  ∧ NoDup st.2.*2.

(** What holds of the state when the similarity pass reaches position
    [bound]: the originals of the pass lie below [bound] and are not removed,
    and the DOI groups of the log are those of [check_doi_duplicates]. *)
Definition similarity_consistent (all_entries : list entry) (bound : nat) (st : state)
  : Prop :=
  consistent (length all_entries) st
  ∧ (∀ o d, Logged o d Title_Author_similarity ∈ log st →
       o < bound ∧ o < d ∧ o ∉ removed_entries st)
  ∧ (∀ o d, Logged o d DOI_match ∈ log st →
       (o, d) ∈ check_doi_duplicates all_entries).

(** The key [check_doi_duplicates] files an entry under: the DOI lowercased
    and stripped, when the entry has a DOI that is not empty. *)
Definition doi_key (e : entry) : option str :=
  match e !! "doi" with
  | Some doi => if truthy doi then Some (strip (lower doi)) else None
  | None => None
  end.

Definition key_at (all_entries : list entry) (i : nat) : option str :=
  all_entries !! i ≫= doi_key.

(** [o] is the first position of [all_entries] filed under [key]. *)
Definition first_with (all_entries : list entry) (key : str) (o : nat) : Prop :=
  key_at all_entries o = Some key
  ∧ ∀ u, u < o → key_at all_entries u ≠ Some key.

(** What [doi_map] and [duplicates] hold once the entries before position
    [k] are read. *)
Definition doi_exact (all_entries : list entry) (k : nat)
    (st : gmap str nat * list (nat * nat)) : Prop :=
  (∀ key o, st.1 !! key = Some o → o < k ∧ first_with all_entries key o)
  ∧ (∀ key, st.1 !! key = None → ∀ o, o < k → key_at all_entries o ≠ Some key)
  ∧ (∀ o d, (o, d) ∈ st.2 ↔
       d < k ∧ o < d
       ∧ ∃ key, key_at all_entries d = Some key ∧ first_with all_entries key o).

(** The field is missing from the entry or holds the empty string. *)
Definition blank (e : entry) (field : string) : Prop :=
  e !! field = None ∨ e !! field = Some [].

(** The entry has neither title nor author. *)
Definition nameless (e : entry) : Prop := blank e "title" ∧ blank e "author".

(** For two positions [i < j] of entries without title and author: what
    holds of the state when the loop of the original [t] reaches [jj]. *)
Definition pair_inner (all_entries : list entry) (i j t jj : nat) (st : state) : Prop :=
  (i ∈ removed_entries st →
     j ∈ removed_entries st ∨ (jj ≤ j ∧ t < i ∧ similar_at all_entries t i = true))
  ∧ (t = i → j < jj → j ∈ removed_entries st)
  ∧ (i < t → j ∈ removed_entries st).

(** The same when the outer loop reaches [t]. *)
Definition pair_outer (i j t : nat) (st : state) : Prop :=
  (i ∈ removed_entries st → j ∈ removed_entries st)
  ∧ (i < t → j ∈ removed_entries st).

(** The state with [l] put in front of its log. *)
Definition with_log (l : list event) (st : state) : state :=
  State (removed_entries st) (duplicates_count st) (l ++ log st).

(** What holds of the state when the similarity pass has run the outer loop
    for the positions below [t]: of two similar positions, the first below
    [t], one is removed. *)
Definition settled (all_entries : list entry) (t : nat) (st : state) : Prop :=
  ∀ i j, i < t → i < j < length all_entries →
    similar_at all_entries i j = true →
    i ∈ removed_entries st ∨ j ∈ removed_entries st.

(** The same inside the loop of the original [t], when it reaches [jj]. *)
Definition settled_inner (all_entries : list entry) (t jj : nat) (st : state) : Prop :=
  settled all_entries t st
  ∧ ∀ j, t < j < jj → j < length all_entries →
      similar_at all_entries t j = true →
      t ∈ removed_entries st ∨ j ∈ removed_entries st.

(** Every duplicate the similarity pass logged was compared with its
    original and found similar. *)
Definition justified (all_entries : list entry) (st : state) : Prop :=
  ∀ o d, Logged o d Title_Author_similarity ∈ log st →
    similar_at all_entries o d = true.

(** Nothing has been removed or counted. *)
Definition untouched (st : state) : Prop :=
  removed_entries st = ∅ ∧ duplicates_count st = 0 ∧ duplicates_of (log st) = [].

(** *** The run on the values of [id]

    [removed_entries] as the script has it: a set of the values of [id].
    [address i] is the [id] of the object at position [i] of [all_entries],
    an integer that CPython takes from where the object lies in memory; it
    changes from one run to the next.  The run above is this one with the
    position as [id]. *)
Record id_state := IdState {
  id_removed_entries : gset Z;
  id_duplicates_count : nat;
  id_log : list event
}.

Definition id_emit (e : event) (st : id_state) : id_state :=
  IdState (id_removed_entries st) (id_duplicates_count st) (id_log st ++ [e]).

Definition id_claim (address : nat → Z) (original duplicate : nat) (m : method)
    (st : id_state) : id_state :=
  IdState ({[address duplicate]} ∪ id_removed_entries st)
          (S (id_duplicates_count st))
          (id_log st ++ [Logged original duplicate m]).

Definition id_doi_pass (address : nat → Z) (all_entries : list entry)
    (st : id_state) : id_state :=
  fold_left (λ st od, id_claim address od.1 od.2 DOI_match st)
            (check_doi_duplicates all_entries) st.

Definition id_inner_step (address : nat → Z) (all_entries : list entry) (i : nat)
    (st : id_state) (j : nat) : id_state :=
  if bool_decide (address j ∈ id_removed_entries st) then st
  else
    let st := id_emit (Compared i j) st in
    if similar_at all_entries i j
    then id_claim address i j Title_Author_similarity st
    else st.

Definition id_outer_step (address : nat → Z) (all_entries : list entry)
    (st : id_state) (i : nat) : id_state :=
  if bool_decide (address i ∈ id_removed_entries st) then st
  else
    let n := length all_entries in
    fold_left (id_inner_step address all_entries i) (seq (i + 1) (n - (i + 1))) st.

Definition id_similarity_pass (address : nat → Z) (all_entries : list entry)
    (st : id_state) : id_state :=
  fold_left (id_outer_step address all_entries) (seq 0 (length all_entries)) st.

(** The locals of [deduplicate_entries] are set anew at every call; what a
    run finds from before is [log0], the contents of the logger and of the
    duplicates file. *)
Definition id_run (address : nat → Z) (all_entries : list entry)
    (log0 : list event) : id_state :=
  id_similarity_pass address all_entries
    (id_doi_pass address all_entries (IdState ∅ 0 log0)).

Definition id_unique_of (address : nat → Z) (all_entries : list entry)
    (st : id_state) : list entry :=
  (filter (λ ie, address ie.1 ∉ id_removed_entries st) (imap pair all_entries)).*2.

Definition id_deduplicate_entries (address : nat → Z) (all_entries : list entry)
    (log0 : list event) : list entry * id_state :=
  let st := id_run address all_entries log0 in
  (id_unique_of address all_entries st, st).

(** The objects at the [n] positions are live together, so their [id]s
    are different. *)
Definition distinct_ids (n : nat) (address : nat → Z) : Prop :=
  ∀ i j, i < n → j < n → address i = address j → i = j.

(** The state on [id]s and the state on positions tell the same. *)
Definition same_state (address : nat → Z) (n : nat) (ist : id_state) (st : state)
  : Prop :=
  (∀ j, j < n → address j ∈ id_removed_entries ist ↔ j ∈ removed_entries st)
  ∧ id_duplicates_count ist = duplicates_count st
  ∧ id_log ist = log st.

(** The groups a log reports, in order. *)
Definition groups_of (l : list event) : list (nat * nat * method) :=
  flat_map (λ e, match e with Logged o d m => [(o, d, m)] | Compared _ _ => [] end) l.

(** The order in which a run logs its groups: the groups of the DOI pass
    in the order of their duplicates, then the groups of the similarity
    pass in the order of their originals, and for one original in the order
    of the duplicates. *)
Definition logged_before (g h : nat * nat * method) : Prop :=
  match g.2, h.2 with
  | DOI_match, DOI_match => g.1.2 < h.1.2
  | DOI_match, Title_Author_similarity => True
  | Title_Author_similarity, DOI_match => False
  | Title_Author_similarity, Title_Author_similarity =>
      g.1.1 < h.1.1 ∨ (g.1.1 = h.1.1 ∧ g.1.2 < h.1.2)
  end.

(** The rule that decides which positions a run removes. *)
Definition removal_rule (all_entries : list entry) (removed : gset nat) : Prop :=
  ∀ d, d ∈ removed ↔
    d < length all_entries
    ∧ ((∃ o, (o, d) ∈ check_doi_duplicates all_entries)
       ∨ ∃ o, o < d ∧ (o ∉ removed) ∧ similar_at all_entries o d = true).

(** The tie-breaks of a run: what is removed follows [removal_rule]; the
    groups of the DOI pass are the pairs of [check_doi_duplicates]; a
    duplicate of the similarity pass, which no DOI pair claims, goes to the
    first position that is kept and similar to it; and the groups are logged
    in the order [logged_before]. *)
Record tie_breaks (all_entries : list entry) (st : state) : Prop := TieBreaks {
  tie_removed : removal_rule all_entries (removed_entries st);
  tie_doi : ∀ o d, Logged o d DOI_match ∈ log st
                   ↔ (o, d) ∈ check_doi_duplicates all_entries;
  tie_similarity : ∀ o d, Logged o d Title_Author_similarity ∈ log st
     ↔ o < d < length all_entries
       ∧ (o ∉ removed_entries st)
       ∧ (∀ o', (o', d) ∉ check_doi_duplicates all_entries)
       ∧ similar_at all_entries o d = true
       ∧ ∀ i, i < o → i ∉ removed_entries st → similar_at all_entries i d = false;
  tie_order : StronglySorted logged_before (groups_of (log st))
}.

(** What holds of the log when the similarity pass is at the original [t]
    and the candidate [jj]: an original took its duplicate when every
    earlier position similar to it was removed, and the groups were logged
    in order, those of the similarity pass before [(t, jj)]. *)
Definition first_taken (all_entries : list entry) (t jj : nat) (st : state) : Prop :=
  (∀ o d, Logged o d Title_Author_similarity ∈ log st →
     ∀ i, i < o → similar_at all_entries i d = true → i ∈ removed_entries st)
  ∧ StronglySorted logged_before (groups_of (log st))
  ∧ ∀ o d, Logged o d Title_Author_similarity ∈ log st →
      o < t ∨ (o = t ∧ d < jj).

End BibDeduplicator.
End Clean.

(** ** [clean_mf.py]: [Deduplicator] *)

Module CleanMf.
Import Py.

Abbreviation entry := (gmap string str).

Section Deduplicator.
Context `{UnicodeData}.

Definition normalize_text (text : value) : str :=
  if isna text then []
  else
    let text := lower (to_str text) in
    let text := NFKD text in
    let text := filter (λ c, is_Mn c = false) text in
    let text := sub_nonword [32%N] text in
    join [32%N] (split text).

(** The steps of [normalize_text] after [NFKD]. *)
Definition tidy_text (s : str) : str :=
  join [32%N] (split (sub_nonword [32%N] (filter (λ c, is_Mn c = false) s))).

(** [entry.get('doi')] is truthy when the key is present with a
    non-empty string. *)
Definition get_truthy (e : entry) (field : string) : option str :=
  match e !! field with
  | Some s => if truthy s then Some s else None
  | None => None
  end.

Definition are_duplicates (entry1 entry2 : entry) : bool :=
  let doi_equal :=
    match get_truthy entry1 "doi", get_truthy entry2 "doi" with
    | Some doi1, Some doi2 => bool_decide (strip doi1 = strip doi2)
    | _, _ => false
    end in
  if doi_equal then true
  else
    let title1 := normalize_text (VStr (default [] (entry1 !! "title"))) in
    let title2 := normalize_text (VStr (default [] (entry2 !! "title"))) in
    truthy title1 && truthy title2 && bool_decide (title1 = title2).

(** The inner loop of [process_files] for the entry [candidate]: the first
    entry of [unique_entries] it is a duplicate of, if any. *)
Fixpoint find_original (candidate : entry) (unique_entries : list entry)
  : option entry :=
  match unique_entries with
  | [] => None
  | unique_entry :: rest =>
      if are_duplicates candidate unique_entry then Some unique_entry
      else find_original candidate rest
  end.

(** The body of [for entry in all_entries], on
    [(unique_entries, duplicates)]. *)
Definition process_step (st : list entry * list (entry * entry)) (candidate : entry)
  : list entry * list (entry * entry) :=
  match find_original candidate st.1 with
  | Some unique_entry => (st.1, st.2 ++ [(unique_entry, candidate)])
  | None => (st.1 ++ [candidate], st.2)
  end.

(** [process_files], from the lists of entries that the readers returned
    for the input files with a supported suffix, in order (a reader that
    failed returned the empty list). *)
Definition process_files (files : list (list entry))
  : list entry * list (entry * entry) :=
  let all_entries := concat files in
  fold_left process_step all_entries ([], []).

(** What holds of [(unique_entries, duplicates)] once the entries [seen]
    are processed. *)
Record processed (seen : list entry) (st : list entry * list (entry * entry))
  : Prop := Processed {
  processed_partition : st.1 ++ st.2.*2 ≡ₚ seen;
  processed_sublist : st.1 `sublist_of` seen;
  processed_head : head st.1 = head seen;
  processed_original : ∀ u e, (u, e) ∈ st.2 → find_original e st.1 = Some u;
  processed_distinct : ∀ a b ea eb, a < b →
    st.1 !! a = Some ea → st.1 !! b = Some eb → are_duplicates eb ea = false
}.

End Deduplicator.
End CleanMf.

(** ** Keyed rows

    What [clean_csv.py] and [clean_xlsx.py] share: rows filed under a
    comparison key, of which the first of every key is kept. *)

Module Keyed.
Import Py.

(** The items of a list of keyed items whose key occurs neither in [seen]
    nor earlier in the list. *)
Fixpoint first_seen {A : Type} (seen : gset str) (items : list (str * A))
  : list (str * A) :=
  match items with
  | [] => []
  | kx :: rest =>
      if decide (kx.1 ∈ seen) then first_seen seen rest
      else kx :: first_seen ({[kx.1]} ∪ seen) rest
  end.

(** The first item of every group. *)
Definition heads {A : Type} (groups : list (str * list A)) : list A :=
  flat_map (λ g, take 1 g.2) groups.

(** The pairs the duplicates file gets for one group: the position of the
    first item with that of each other item. *)
Definition group_pairs {A : Type} (group : list (str * (nat * A)))
  : list (nat * nat) :=
  match group with
  | [] => []
  | first :: others => map (λ g, (first.2.1, g.2.1)) others
  end.

(** [o] is the first position of [keys] that holds the key at [d]. *)
Definition first_of (keys : list str) (o d : nat) : Prop :=
  o ≤ d ∧ keys !! o = keys !! d ∧ d < length keys
  ∧ ∀ u, u < o → keys !! u ≠ keys !! o.

(** What a first-occurrence deduplication of the rows whose keys are
    [keys] leaves: the rows kept, the number of duplicates and the new
    pairs of the duplicates file. *)
Record deduplicated {A : Type} (keys : list str) (rows : list A)
    (all_data : list (nat * A)) (duplicates_found : nat) (pairs : list (nat * nat))
  : Prop := Deduplicated {
  kept_sublist : all_data `sublist_of` imap pair rows;
  kept_first : ∀ i r, (i, r) ∈ all_data ↔ rows !! i = Some r ∧ first_of keys i i;
  found_count : duplicates_found = length pairs;
  found_rest : length all_data + duplicates_found = length rows;
  pairs_partition : all_data.*1 ++ pairs.*2 ≡ₚ seq 0 (length rows);
  pairs_first : ∀ o d, (o, d) ∈ pairs ↔ o < d ∧ first_of keys o d
}.

(** What holds of the groups [py_.group_by] has built once the items
    [seen] are filed: one group for each key in order of first occurrence,
    headed by the first item with that key; every item is in the group of
    its key, in input order. *)
Record grouped {A : Type} (seen : list (str * A))
    (groups : list (str * list (str * A))) : Prop := Grouped {
  grouped_keys : groups.*1 = (first_seen ∅ seen).*1;
  grouped_heads : heads groups = first_seen ∅ seen;
  grouped_nonempty : Forall (λ g, g.2 ≠ []) groups;
  grouped_perm : concat groups.*2 ≡ₚ seen;
  grouped_key : Forall (λ g, Forall (λ it, it.1 = g.1) g.2) groups;
  grouped_sub : Forall (λ g, g.2 `sublist_of` seen) groups
}.
(** The order in which [clean_csv.py] logs its pairs: by original, and for
    one original by duplicate. *)
Definition pair_before (x y : nat * nat) : Prop :=
  x.1 < y.1 ∨ (x.1 = y.1 ∧ x.2 < y.2).

End Keyed.

(** ** [clean_csv.py]: [CSVDeduplicator] *)

Module CleanCsv.
Import Py.

(** A row of [df.to_dict('records')]. *)
Abbreviation row := (gmap string value).

Section CSVDeduplicator.
Context `{UnicodeData}.
Variable comparison_columns : list string.

Definition normalize_string (text : value) : str :=
  if isna text then []
  else
    let text := to_str text in
    let text := NFKD (lower text) in
    let text := sub_nonword [] text in
    strip (sub_spaces false text).

(** The separator of [generate_comparison_key], ["_"]. *)
Definition separator : str := [95%N].

(** The segment of one column: [normalize_string(str(row[col]))] when
    the column is in the row, [""] otherwise. *)
Definition key_part (r : row) (col : string) : str :=
  match r !! col with
  | Some v => normalize_string (VStr (to_str v))
  | None => []
  end.

Definition key_parts (r : row) : list str := map (key_part r) comparison_columns.

Definition generate_comparison_key (r : row) : str := join separator (key_parts r).

(** [py_.group_by(items, f)]: a [dict] from key to the items with that
    key; keys in order of first appearance, items in input order. *)
Fixpoint group_add {A} (k : str) (x : A) (groups : list (str * list A))
  : list (str * list A) :=
  match groups with
  | [] => [(k, [x])]
  | (k', xs) :: rest =>
      if bool_decide (k = k') then (k', xs ++ [x]) :: rest
      else (k', xs) :: group_add k x rest
  end.

Definition group_by {A} (f : A → str) (items : list A) : list (str * list A) :=
  fold_left (λ groups x, group_add (f x) x groups) items [].

(** The rows keep their position in the concatenated input as identity. *)
Definition all_entries_with_keys (rows : list row) : list (str * (nat * row)) :=
  imap (λ i r, (generate_comparison_key r, (i, r))) rows.

Record state := State {
  all_data : list (nat * row);
  duplicates_found : nat;
  (** the duplicates file: pairs (original, duplicate) *)
  duplicate_file : list (nat * nat)
}.

(** The body of [for key, group in key_groups.items()], where every
    message can be built; the subscripts of the message, which raise a
    [KeyError] on a row without the column, are those of
    [group_step_checked] below. *)
Definition group_step (st : state) (kg : str * list (str * (nat * row))) : state :=
  match kg.2 with
  | [] => st
  | first :: others =>
      if 1 <? length kg.2 then
        State (all_data st ++ [first.2])
              (duplicates_found st + (length kg.2 - 1))
              (duplicate_file st ++ map (λ g, (first.2.1, g.2.1)) others)
      else
        State (all_data st ++ [first.2]) (duplicates_found st) (duplicate_file st)
  end.

(** The state a run that does not raise ends in.  The run of the script is
    [deduplicate_entries_checked] below, which is this state or the
    [KeyError]. *)
Definition deduplicate_entries (rows : list row) (file0 : list (nat * nat)) : state :=
  let key_groups := group_by fst (all_entries_with_keys rows) in
  fold_left group_step key_groups (State [] 0 file0).

(** The state with [l] put in front of its duplicates file. *)
Definition with_file (l : list (nat * nat)) (st : state) : state :=
  State (all_data st) (duplicates_found st) (l ++ duplicate_file st).

(** [read_csv_file]: the rows of the frame read, each with its
    [source_file].  [df] is what [pd.read_csv] gave (with [utf-8], or with
    [latin1] after a [UnicodeDecodeError]), [None] when it raised: the
    frame returned is then empty. *)
Definition read_csv_file (file_path : str) (df : option (list row)) : list row :=
  match df with
  | Some rows => (λ r : row, <["source_file" := VStr file_path]> r) <$> rows
  | None => []
  end.

(** The columns the message of a duplicate reads from the original entry
    by subscript. *)
Definition logged_columns : list string :=
  ["source_file"; "Item Title"; "Authors"; "Publication Year"]%list.

(** The message of a duplicate can be built: the original holds the logged
    columns and the duplicate its [source_file].  A [KeyError] otherwise. *)
Definition can_log (original duplicate : row) : bool :=
  forallb (λ col, bool_decide (is_Some (original !! col))) logged_columns
  && bool_decide (is_Some (duplicate !! "source_file")).

(** [group_step] with the subscripts of the message checked: [None] is the
    [KeyError], which leaves [deduplicate_entries]. *)
Definition group_step_checked (st : state) (kg : str * list (str * (nat * row)))
  : option state :=
  match kg.2 with
  | [] => Some st
  | first :: others =>
      if forallb (λ g : str * (nat * row), can_log first.2.2 g.2.2) others
      then Some (group_step st kg)
      else None
  end.

Definition deduplicate_entries_checked (rows : list row) (file0 : list (nat * nat))
  : option state :=
  let key_groups := group_by fst (all_entries_with_keys rows) in
  fold_left (λ st kg, st ≫= λ st, group_step_checked st kg) key_groups
            (Some (State [] 0 file0)).

(** [deduplicate_entries] from the frames read for the input files. *)
Definition deduplicate_files (input_files : list (str * option (list row)))
    (file0 : list (nat * nat)) : option state :=
  deduplicate_entries_checked
    (flat_map (λ f, read_csv_file f.1 f.2) input_files) file0.

(** What a run of [deduplicate_entries] on [rows] comes to, [outcome]
    being its result from an empty duplicates file: when it returns, the
    first row of every comparison key is kept and the pairs are logged by
    original and duplicate; when it raises the [KeyError], some row and the
    first row with its key make a message that cannot be built. *)
Definition settled_outcome (rows : list row) (outcome : option state) : Prop :=
  let keys := generate_comparison_key <$> rows in
  match outcome with
  | Some st =>
      Keyed.deduplicated keys rows
        (all_data st) (duplicates_found st) (duplicate_file st)
      ∧ StronglySorted Keyed.pair_before (duplicate_file st)
  | None =>
      ∃ o d original duplicate,
        o < d ∧ Keyed.first_of keys o d
        ∧ rows !! o = Some original ∧ rows !! d = Some duplicate
        ∧ can_log original duplicate = false
  end.

End CSVDeduplicator.
End CleanCsv.

(** ** [clean_xlsx.py]: [ExcelDeduplicator] *)

Module CleanXlsx.
Import Py.

(** A row of [df.iterrows()], a [pd.Series] indexed by column name. *)
Abbreviation row := (gmap string value).

Section ExcelDeduplicator.
Context `{UnicodeData}.
Variable comparison_columns : list string.

Definition normalize_string (text : value) : str :=
  if isna text then []
  else
    let text := to_str text in
    let text := NFKD (lower text) in
    let text := sub_nonword [] text in
    strip (sub_spaces false text).

Definition key_part (r : row) (col : string) : str :=
  match r !! col with
  | Some v => normalize_string v
  | None => []
  end.

Definition key_parts (r : row) : list str := map (key_part r) comparison_columns.

Definition generate_comparison_key (r : row) : str := join [95%N] (key_parts r).

(** [read_excel_file]: the rows of the frame read, each with its
    [source_file].  [df] is what [pd.read_excel] gave, [None] when it
    raised: the frame returned is then empty. *)
Definition read_excel_file (file_path : str) (df : option (list row)) : list row :=
  match df with
  | Some rows => (λ r : row, <["source_file" := VStr file_path]> r) <$> rows
  | None => []
  end.

(** [all_data] is kept as the list of the rows appended (the frame that
    [pd.concat] builds holds them over the union of their columns), each
    with its position in the input as identity; the duplicates file as the
    pairs (original, duplicate). *)
Record state := State {
  all_data : list (nat * row);
  unique_entries : gmap str (nat * row);
  duplicates_found : nat;
  duplicate_file : list (nat * nat)
}.

(** The body of [for idx, row in df.iterrows()].  [None] is the [KeyError]
    of a subscript [['source_file']] in the message of a duplicate. *)
Definition row_step (st : state) (ir : nat * row) : option state :=
  let comparison_key := generate_comparison_key ir.2 in
  match unique_entries st !! comparison_key with
  | None =>
      Some (State (all_data st ++ [ir])
                  (<[comparison_key := ir]> (unique_entries st))
                  (duplicates_found st) (duplicate_file st))
  | Some original_row =>
      if bool_decide (is_Some (original_row.2 !! "source_file"))
         && bool_decide (is_Some (ir.2 !! "source_file"))
      then Some (State (all_data st) (unique_entries st)
                       (duplicates_found st + 1)
                       (duplicate_file st ++ [(original_row.1, ir.1)]))
      else None
  end.

(** The two loops on the rows of all frames in order; [file0] is what the
    duplicates file holds when the run starts. *)
Definition deduplicate_rows (rows : list row) (file0 : list (nat * nat))
  : option state :=
  fold_left (λ st ir, st ≫= λ st, row_step st ir) (imap pair rows)
            (Some (State [] ∅ 0 file0)).

Definition deduplicate_entries (input_files : list (str * option (list row)))
    (file0 : list (nat * nat)) : option state :=
  deduplicate_rows (flat_map (λ f, read_excel_file f.1 f.2) input_files) file0.

(** The rows with their comparison key and position. *)
Definition all_entries_with_keys (rows : list row) : list (str * (nat * row)) :=
  imap (λ i r, (generate_comparison_key r, (i, r))) rows.

(** What holds of the state once the rows [seen] of [rows] are read. *)
Definition reading (rows : list row) (file0 : list (nat * nat))
    (seen : list (nat * row)) (ost : option state) : Prop :=
  ∃ st pairs,
    let keyed : list (str * (nat * row)) :=
      (λ ir, (generate_comparison_key ir.2, ir)) <$> seen in
    let keys : list str := generate_comparison_key <$> rows in
    ost = Some st
    ∧ all_data st = (Keyed.first_seen ∅ keyed).*2
    ∧ (∀ k, unique_entries st !! k = None ↔ k ∉ keyed.*1)
    ∧ (∀ k ir, unique_entries st !! k = Some ir → (k, ir) ∈ Keyed.first_seen ∅ keyed)
    ∧ duplicates_found st = length pairs
    ∧ duplicate_file st = file0 ++ pairs
    ∧ (all_data st).*1 ++ pairs.*2 ≡ₚ seen.*1
    ∧ (∀ o d, (o, d) ∈ pairs → o < d ∧ Keyed.first_of keys o d).

End ExcelDeduplicator.
End CleanXlsx.

(** ** [list.py]: [BibContentExtractor] *)

Module ListPy.
Import Py.

(** [a < b] on [str]: code point by code point, a proper prefix first. *)
Fixpoint str_ltb (a b : str) : bool :=
  match a, b with
  | _, [] => false
  | [], _ :: _ => true
  | x :: a', y :: b' => (x <? y)%N || ((x =? y)%N && str_ltb a' b')
  end.

(** [a <= b] *)
Definition str_leb (a b : str) : bool := negb (str_ltb b a).

(** [sorted(set(ys))]: the distinct values in increasing order. *)
Fixpoint insert_year (y : str) (years : list str) : list str :=
  match years with
  | [] => [y]
  | z :: rest =>
      if bool_decide (y = z) then years
      else if str_ltb y z then y :: years
      else z :: insert_year y rest
  end.

Definition sorted_set (ys : list str) : list str := foldr insert_year [] ys.

(** A paper of [extract_content]: a [dict] with exactly these keys, the
    year ['N/A'] when the entry has none. *)
Record paper := Paper {
  id : str;
  title : str;
  abstract : str;
  year : str;
  author : str
}.

(** What the summary text interpolates. *)
Record summary := Summary {
  total_papers : nat;
  papers_with_abstract : nat;
  first_year : str;
  last_year : str
}.

Section BibContentExtractor.
Context `{UnicodeData}.


End BibContentExtractor.

(** The years of the papers that have one. *)
Definition known_years (papers : list paper) : list str :=
  filter (λ y, y ≠ lit "N/A") (year <$> papers).

(** [generate_summary], up to the layout of the text: [None] is the
    [IndexError] of [years[0]], raised before anything is written. *)
Definition generate_summary (papers : list paper) : option summary :=
  let total_papers := length papers in
  let papers_with_abstract :=
    length (filter (λ p, truthy (abstract p) = true) papers) in
  let years := sorted_set (known_years papers) in
  first ← years !! 0;
  Some (Summary total_papers papers_with_abstract first
                (default (lit "N/A") (last years))).

End ListPy.

(** ** Concrete records

    The inputs the examples below run the scripts on, over the [excerpt]
    tables. *)

Module Examples.
Import Py.

Definition bib (fields : list (string * string)) : gmap string str :=
  list_to_map (map (λ kv, (kv.1, lit kv.2)) fields).

(** A record without DOI, the same work with a DOI, and another work that
    carries the same DOI. *)
Definition paper_no_doi := bib [("title", "Web Testing"); ("author", "Doe, J.")].
Definition paper_doi :=
  bib [("title", "Web testing!"); ("author", "Doe J"); ("doi", "10.1/X")].
Definition other_same_doi :=
  bib [("title", "Other"); ("author", "Smith"); ("doi", "10.1/x ")].

(** Two different works whose identifiers differ in case and in trailing
    whitespace only. *)
Definition upper_doi :=
  bib [("title", "Web Testing Survey"); ("author", "Doe, J."); ("doi", "10.1/ABC ")].
Definition lower_doi :=
  bib [("title", "Browser Automation"); ("author", "Roe, R."); ("doi", "10.1/abc")].

Definition tide : str := lit "tide".
Definition diet : str := lit "diet".

(** U+2122, the trade mark sign. *)
Definition trade_mark : str := [8482%N].

Definition columns : list string := ["Item Title"; "Authors"]%list.

Definition cells (fields : list (string * value)) : gmap string value :=
  list_to_map fields.

(** Two rows with different values in both columns. *)
Definition row_ab_c :=
  cells [("Item Title", VStr (lit "a_b")); ("Authors", VStr (lit "c"))].
Definition row_a_bc :=
  cells [("Item Title", VStr (lit "a")); ("Authors", VStr (lit "b_c"))].

(** A row whose [Authors] cell was empty in the file. *)
Definition row_missing_author :=
  cells [("Item Title", VStr (lit "Foo")); ("Authors", VNaN)].

(** Two exports with the columns of [clean_csv.py], as [pd.read_csv] gives
    them: the row of the second repeats the first row of the first up to
    case and punctuation. *)
Definition sl_row (title authors : string) : gmap string value :=
  cells [("Item Title", VStr (lit title)); ("Authors", VStr (lit authors));
         ("Publication Year", VInt 2020)].
Definition sl_files : list (str * option (list (gmap string value))) :=
  [(lit "sl.csv", Some [sl_row "Web Testing" "Doe"; sl_row "Other" "Roe"]);
   (lit "sl2.csv", Some [sl_row "web testing!" "doe"])].

(** Two rows of an export whose title column has another name. *)
Definition renamed_row (title : string) : gmap string value :=
  cells [("Title", VStr (lit title))].
Definition renamed_files : list (str * option (list (gmap string value))) :=
  [(lit "wos.csv", Some [renamed_row "Web Testing"; renamed_row "web testing"])].

(** Three papers, the second without year. *)
Definition papers : list ListPy.paper :=
  [ListPy.Paper (lit "a") (lit "A") [] (lit "2021") (lit "Doe");
   ListPy.Paper (lit "b") (lit "B") (lit "text") (lit "N/A") (lit "Roe");
   ListPy.Paper (lit "c") (lit "C") [] (lit "2019") (lit "Poe")].

End Examples.

(** * Properties *)

#[local] Set Warnings "-clear-no-such-hyp".

(** ** Normalization *)

Section Normalizer.
Import Py.
Context {U : UnicodeData}.
Implicit Types (s r : str) (c : codepoint).
Hypothesis space_is_space : is_space 32 = true.

Lemma lstrip_idem s : lstrip (lstrip s) = lstrip s.
Proof.
  induction s as [|c r IH]; simpl; [done|].
  destruct (is_space c) eqn:Ec; [done|]. simpl. by rewrite Ec.
Qed.

Lemma lstrip_snoc s c :
  lstrip (s ++ [c]) = match lstrip s with [] => lstrip [c] | _ => lstrip s ++ [c] end.
Proof.
  induction s as [|d r IH]; simpl; [done|].
  destruct (is_space d); [done|]. done.
Qed.

Lemma rstrip_cons c r :
  rstrip (c :: r)
  = match rstrip r with
    | [] => if is_space c then [] else [c]
    | _ => c :: rstrip r
    end.
Proof.
  unfold rstrip. simpl. rewrite lstrip_snoc.
  destruct (lstrip (rev r)) as [|d l] eqn:El; simpl.
  - by destruct (is_space c).
  - rewrite rev_app_distr. simpl.
    destruct (rev l ++ [d]) eqn:E; [by destruct (rev l)|done].
Qed.

Lemma rstrip_nil : rstrip [] = [].
Proof. done. Qed.

Lemma rstrip_idem s : rstrip (rstrip s) = rstrip s.
Proof. unfold rstrip. by rewrite rev_involutive, lstrip_idem. Qed.

Lemma Forall_lstrip (P : codepoint → Prop) s : Forall P s → Forall P (lstrip s).
Proof.
  induction 1 as [|c r Hc Hr IH]; simpl; [done|].
  destruct (is_space c); [done | by constructor].
Qed.

Lemma Forall_rstrip (P : codepoint → Prop) s : Forall P s → Forall P (rstrip s).
Proof. intros Hs. unfold rstrip. by apply Forall_rev, Forall_lstrip, Forall_rev. Qed.

Lemma Forall_sub_spaces (P : codepoint → Prop) s : ∀ b,
  P 32%N → Forall P s → Forall P (sub_spaces b s).
Proof.
  induction s as [|c r IH]; intros b H32 Hs; simpl; [done|].
  apply Forall_cons in Hs as [Hc Hr].
  destruct (is_space c); [destruct b|]; repeat constructor; auto.
Qed.

Lemma Forall_sub_nonword_keep s : Forall (λ c, keep c = true) (sub_nonword [] s).
Proof.
  induction s as [|c r IH]; simpl; [done|].
  destruct (keep c) eqn:Ec; [by constructor | done].
Qed.

Lemma sub_nonword_fixed repl s : Forall (λ c, keep c = true) s → sub_nonword repl s = s.
Proof.
  induction 1 as [|c r Hc Hr IH]; simpl; [done|]. by rewrite Hc, IH.
Qed.

Lemma collapsed_sub_spaces s : ∀ b, collapsed b (sub_spaces b s).
Proof.
  induction s as [|c r IH]; intros b; simpl; [done|].
  destruct (is_space c) eqn:Ec.
  - destruct b; [apply IH|]. simpl. rewrite space_is_space. by split_and!.
  - simpl. rewrite Ec. apply IH.
Qed.

Lemma sub_spaces_fixed s : ∀ b, collapsed b s → sub_spaces b s = s.
Proof.
  induction s as [|c r IH]; intros b; simpl; [done|].
  destruct (is_space c).
  - intros (-> & -> & Hr). by rewrite IH.
  - intros Hr. by rewrite IH.
Qed.

Lemma collapsed_lstrip s : ∀ b, collapsed b s → collapsed false (lstrip s).
Proof.
  induction s as [|c r IH]; intros b; simpl; [done|].
  destruct (is_space c) eqn:Ec.
  - intros (_ & _ & Hr). by eapply IH.
  - intros Hr. simpl. by rewrite Ec.
Qed.

Lemma collapsed_rstrip s : ∀ b, collapsed b s → collapsed b (rstrip s).
Proof.
  induction s as [|c r IH]; intros b; [done|].
  rewrite rstrip_cons. simpl.
  destruct (is_space c) eqn:Ec.
  - intros (-> & -> & Hr). specialize (IH _ Hr).
    destruct (rstrip r); [done|]. simpl. rewrite Ec. by split_and!.
  - intros Hr. specialize (IH _ Hr).
    destruct (rstrip r); simpl; by rewrite Ec.
Qed.

Lemma starts_clean_lstrip s : starts_clean (lstrip s).
Proof.
  induction s as [|c r IH]; simpl; [done|].
  destruct (is_space c) eqn:Ec; [done|]. done.
Qed.

Lemma starts_clean_rstrip s : starts_clean s → starts_clean (rstrip s).
Proof.
  destruct s as [|c r]; [done|]. simpl. intros Ec. rewrite rstrip_cons, Ec.
  by destruct (rstrip r).
Qed.

Lemma lstrip_fixed s : starts_clean s → lstrip s = s.
Proof. destruct s as [|c r]; simpl; [done|]. by intros ->. Qed.

Lemma strip_idem s : strip (strip s) = strip s.
Proof.
  unfold strip. rewrite (lstrip_fixed (rstrip (lstrip s))).
  - apply rstrip_idem.
  - apply starts_clean_rstrip, starts_clean_lstrip.
Qed.

(** the three steps after [NFKD]: a second application changes nothing *)
Lemma tidy_idempotent s :
  let y := strip (sub_spaces false (sub_nonword [] s)) in
  strip (sub_spaces false (sub_nonword [] y)) = y.
Proof.
  intros y.
  assert (Hkeep : Forall (λ c, keep c = true) y).
  { apply Forall_rstrip, Forall_lstrip, Forall_sub_spaces.
    - unfold keep. rewrite space_is_space. apply orb_true_r.
    - apply Forall_sub_nonword_keep. }
  assert (Hcol : collapsed false y).
  { apply collapsed_rstrip. eapply collapsed_lstrip, collapsed_sub_spaces. }
  rewrite sub_nonword_fixed, sub_spaces_fixed by done.
  apply strip_idem.
Qed.

Lemma normalize_string_idempotent_on_stable (x : option str) :
  let y := Clean.normalize_string x in
  lower y = y → NFKD y = y →
  Clean.normalize_string (Some y) = y
  ∧ Clean.normalize_string None = [].
Proof.
  intros y Hlower Hnfkd. split; [|done].
  unfold Clean.normalize_string at 1.
  destruct (truthy y) eqn:Ey; simpl.
  - rewrite Hlower, Hnfkd. subst y. unfold Clean.normalize_string.
    destruct x as [t|]; [|done]. destruct (truthy t); simpl; [|done].
    apply tidy_idempotent.
  - by destruct y.
Qed.


(** *** [normalize_text] of [clean_mf.py] *)

Hypothesis space_not_Mn : is_Mn 32 = false.

Lemma split_ws_words s : ∀ cur,
  Forall (λ c, is_space c = false) cur → Forall word (split_ws cur s).
Proof.
  induction s as [|c r IH]; intros cur Hcur; simpl.
  - destruct cur as [|d cur']; [done|]. constructor; [|done]. split.
    + simpl. by destruct (rev cur').
    + by apply Forall_rev.
  - destruct (is_space c) eqn:Ec.
    + destruct cur as [|d cur']; [by apply IH|]. constructor; [|by apply IH].
      split; [simpl; by destruct (rev cur') | by apply Forall_rev].
    + apply IH. by constructor.
Qed.

Lemma split_ws_chars (P : codepoint → Prop) s : ∀ cur,
  Forall P cur → Forall P s → Forall (Forall P) (split_ws cur s).
Proof.
  induction s as [|c r IH]; intros cur Hcur Hs; simpl.
  - destruct cur; [done|]. constructor; [by apply Forall_rev|done].
  - apply Forall_cons in Hs as [Hc Hr]. destruct (is_space c).
    + destruct cur; [by apply IH|].
      constructor; [by apply Forall_rev | by apply IH].
    + apply IH; [by constructor|done].
Qed.

Lemma split_ws_nonspace w : ∀ cur rest,
  Forall (λ c, is_space c = false) w →
  split_ws cur (w ++ rest) = split_ws (rev w ++ cur) rest.
Proof.
  induction w as [|c w IH]; intros cur rest Hw; simpl; [done|].
  apply Forall_cons in Hw as [-> Hw]. rewrite IH by done.
  by rewrite <- app_assoc.
Qed.

Lemma split_ws_join ws : ∀ cur w,
  Forall word (w :: ws) →
  split_ws cur (join [32%N] (w :: ws)) = (rev cur ++ w) :: ws.
Proof.
  induction ws as [|w' ws IH]; intros cur w Hws.
  - apply Forall_cons in Hws as [[Hne Hw] _]. simpl.
    rewrite <- (app_nil_r w) at 1. rewrite split_ws_nonspace by done. simpl.
    rewrite rev_app_distr, rev_involutive.
    destruct (rev w ++ cur) eqn:E; [|done].
    apply app_eq_nil in E as [E _]. destruct w; [done|]. simpl in E.
    by destruct (rev w).
  - apply Forall_cons in Hws as [[Hne Hw] Hws].
    change (join [32%N] (w :: w' :: ws)) with (w ++ [32%N] ++ join [32%N] (w' :: ws)).
    rewrite split_ws_nonspace by done.
    remember (join [32%N] (w' :: ws)) as rest eqn:Hrest.
    simpl. rewrite space_is_space. subst rest.
    rewrite (IH [] w' Hws). simpl.
    rewrite rev_app_distr, rev_involutive.
    destruct (rev w ++ cur) eqn:E; [|done].
    apply app_eq_nil in E as [E _]. destruct w; [done|]. simpl in E.
    by destruct (rev w).
Qed.

Lemma split_join ws : Forall word ws → split (join [32%N] ws) = ws.
Proof.
  destruct ws as [|w ws]; [done|]. intros Hws. unfold split.
  by rewrite split_ws_join.
Qed.

Lemma Forall_join (P : codepoint → Prop) ws :
  P 32%N → Forall (Forall P) ws → Forall P (join [32%N] ws).
Proof.
  intros H32. induction 1 as [|w ws Hw Hws IH]; [done|].
  destruct ws as [|w' ws]; [done|].
  change (join [32%N] (w :: w' :: ws)) with (w ++ [32%N] ++ join [32%N] (w' :: ws)).
  apply Forall_app. split; [done|]. by constructor.
Qed.

Lemma Forall_sub_nonword_space (P : codepoint → Prop) s :
  P 32%N → Forall P s → Forall P (sub_nonword [32%N] s).
Proof.
  intros H32. induction 1 as [|c r Hc Hr IH]; simpl; [done|].
  destruct (keep c); by constructor.
Qed.

Lemma Forall_sub_nonword_space_keep s :
  Forall (λ c, keep c = true) (sub_nonword [32%N] s).
Proof.
  induction s as [|c r IH]; simpl; [done|].
  destruct (keep c) eqn:Ec; constructor; try done.
  unfold keep. rewrite space_is_space. apply orb_true_r.
Qed.

Lemma list_filter_fixed (P : codepoint → Prop) `{∀ c, Decision (P c)} s :
  Forall P s → filter P s = s.
Proof.
  induction 1 as [|c r Hc Hr IH]; [done|].
  rewrite filter_cons, decide_True by done. by rewrite IH.
Qed.

Lemma Forall_filter_self (P : codepoint → Prop) `{∀ c, Decision (P c)} s :
  Forall P (filter P s).
Proof. apply Forall_forall. by intros c [? _]%list_elem_of_filter. Qed.

Lemma tidy_text_idempotent s : CleanMf.tidy_text (CleanMf.tidy_text s) = CleanMf.tidy_text s.
Proof.
  unfold CleanMf.tidy_text.
  set (t := sub_nonword [32%N] (filter (λ c, is_Mn c = false) s)).
  assert (Hwords : Forall word (split t)) by by apply split_ws_words.
  assert (HMn : Forall (λ c, is_Mn c = false) (join [32%N] (split t))).
  { apply Forall_join; [done|]. apply split_ws_chars; [done|].
    apply Forall_sub_nonword_space; [done|]. apply Forall_filter_self. }
  assert (Hkeep : Forall (λ c, keep c = true) (join [32%N] (split t))).
  { apply Forall_join; [unfold keep; rewrite space_is_space; apply orb_true_r|].
    apply split_ws_chars; [done|]. apply Forall_sub_nonword_space_keep. }
  rewrite list_filter_fixed, sub_nonword_fixed, split_join by done. done.
Qed.

Lemma normalize_text_idempotent_on_stable (x : value) :
  let y := CleanMf.normalize_text x in
  lower y = y → NFKD y = y →
  CleanMf.normalize_text (VStr y) = y
  ∧ CleanMf.normalize_text VNone = []
  ∧ CleanMf.normalize_text VNaN = [].
Proof.
  intros y Hlower Hnfkd. split; [|done].
  unfold CleanMf.normalize_text at 1. cbn [isna to_str].
  rewrite Hlower, Hnfkd.
  change (CleanMf.tidy_text y = y).
  subst y. unfold CleanMf.normalize_text. destruct (isna x); [done|].
  apply tidy_text_idempotent.
Qed.

End Normalizer.

Section NormalizerTheorem.
Import Py.
Context {U : UnicodeData}.

(** C6, as the code has it.  Whatever the character tables (with U+0020 a
    whitespace character and not a non-spacing mark): when lowercasing and
    NFKD leave the normalized text unchanged, normalizing it again leaves it
    unchanged, for [normalize_string] of [clean.py] and for [normalize_text]
    of [clean_mf.py]; and [None] (and NaN, where the script tests
    [pd.isna]) normalizes to the empty string. *)
Theorem normalization_idempotent_on_stable (x : option str) (v : value) :
  is_space 32 = true → is_Mn 32 = false →
  let y := Clean.normalize_string x in
  let z := CleanMf.normalize_text v in
  lower y = y → NFKD y = y → lower z = z → NFKD z = z →
  Clean.normalize_string (Some y) = y
  ∧ CleanMf.normalize_text (VStr z) = z
  ∧ Clean.normalize_string None = []
  ∧ CleanMf.normalize_text VNone = []
  ∧ CleanMf.normalize_text VNaN = []
  ∧ CleanCsv.normalize_string VNone = []
  ∧ CleanCsv.normalize_string VNaN = []
  ∧ CleanXlsx.normalize_string VNone = []
  ∧ CleanXlsx.normalize_string VNaN = [].
Proof.
  intros Hspace HMn y z Hly Hny Hlz Hnz.
  destruct (normalize_string_idempotent_on_stable Hspace x Hly Hny) as [Hy _].
  destruct (normalize_text_idempotent_on_stable Hspace HMn v Hlz Hnz) as [Hz _].
  by split_and!.
Qed.

End NormalizerTheorem.

Section NormalizerExamples.
Import Py Examples.

Lemma normalization_idempotent_witness :
  let x := Some (lit "  Web-Testing:  A  Survey ") in
  let v := VStr (lit "Doe,  J.") in
  let y := Clean.normalize_string (H:=excerpt) x in
  let z := CleanMf.normalize_text (H:=excerpt) v in
  (is_space (UnicodeData:=excerpt) 32 = true ∧ is_Mn (UnicodeData:=excerpt) 32 = false
   ∧ lower (UnicodeData:=excerpt) y = y ∧ NFKD (UnicodeData:=excerpt) y = y
   ∧ lower (UnicodeData:=excerpt) z = z ∧ NFKD (UnicodeData:=excerpt) z = z)
  ∧ y = lit "webtesting a survey" ∧ z = lit "doe j"
  ∧ Clean.normalize_string (H:=excerpt) (Some y) = y
  ∧ CleanMf.normalize_text (H:=excerpt) (VStr z) = z.
Proof.
  cbv zeta. split; [repeat split; reflexivity|].
  split; [reflexivity|]. split; [reflexivity|].
  pose proof (normalization_idempotent_on_stable (U:=excerpt)
                (Some (lit "  Web-Testing:  A  Survey ")) (VStr (lit "Doe,  J."))
                eq_refl eq_refl eq_refl eq_refl eq_refl eq_refl) as Hthm.
  split; [exact (proj1 Hthm) | exact (proj1 (proj2 Hthm))].
Defined.

(** Against the idempotence of C6: the trade mark sign U+2122 normalizes to
    ["TM"] (lowercasing comes before NFKD), and ["TM"] normalizes to ["tm"]. *)
Lemma normalization_not_idempotent :
  Clean.normalize_string (H:=excerpt) (Some trade_mark) = lit "TM"
  ∧ Clean.normalize_string (H:=excerpt)
      (Some (Clean.normalize_string (H:=excerpt) (Some trade_mark))) = lit "tm"
  ∧ CleanMf.normalize_text (H:=excerpt) (VStr trade_mark) = lit "TM"
  ∧ CleanMf.normalize_text (H:=excerpt)
      (VStr (CleanMf.normalize_text (H:=excerpt) (VStr trade_mark))) = lit "tm".
Proof. by vm_compute. Qed.

End NormalizerExamples.

Section Ascii.
Import Py.

Lemma plain_lower_char c : (c < 128)%N → plain (lower_char c).
Proof.
  unfold plain, lower_char. intros Hc.
  destruct ((65 <=? c)%N && (c <=? 90)%N) eqn:E.
  - apply andb_true_iff in E as [H1%N.leb_le H2%N.leb_le].
    replace ((65 <=? c + 32)%N && (c + 32 <=? 90)%N) with false; [lia|].
    symmetry. apply andb_false_iff. right. apply N.leb_gt. lia.
  - by rewrite E.
Qed.

Lemma plain_space : plain 32.
Proof. by vm_compute. Qed.

Lemma lower_plain (s : str) : Forall plain s → lower (UnicodeData:=excerpt) s = s.
Proof.
  induction 1 as [|c r [_ Hc] _ IH]; [done|]. simpl in *. by rewrite Hc, IH.
Qed.

Lemma NFKD_ascii (s : str) :
  Forall (λ c, (c < 128)%N) s → NFKD (UnicodeData:=excerpt) s = s.
Proof.
  induction 1 as [|c r Hc _ IH]; [done|]. simpl in *. rewrite IH.
  unfold nfkd_char.
  replace (c =? 233)%N with false by (symmetry; apply N.eqb_neq; lia).
  by replace (c =? 8482)%N with false by (symmetry; apply N.eqb_neq; lia).
Qed.

Lemma NFKD_plain (s : str) : Forall plain s → NFKD (UnicodeData:=excerpt) s = s.
Proof. intros Hs. apply NFKD_ascii. eapply Forall_impl; [done|]. by intros c []. Qed.

Lemma plain_lower (s : str) :
  Forall (λ c, (c < 128)%N) s → Forall plain (lower (UnicodeData:=excerpt) s).
Proof.
  intros Hs. simpl. apply Forall_fmap. eapply Forall_impl; [done|].
  intros c Hc. by apply plain_lower_char.
Qed.

Lemma Forall_sub_nonword {U : UnicodeData} (P : codepoint → Prop) repl s :
  Forall P repl → Forall P s → Forall P (sub_nonword repl s).
Proof.
  intros Hrepl. induction 1 as [|c r Hc Hr IH]; simpl; [done|].
  destruct (keep c); [by constructor | by apply Forall_app].
Qed.

Lemma normalize_string_plain (s : str) :
  Forall (λ c, (c < 128)%N) s →
  Forall plain (Clean.normalize_string (H:=excerpt) (Some s)).
Proof.
  intros Hs. unfold Clean.normalize_string.
  destruct (truthy s); simpl negb; cbn iota; [|done].
  pose proof (plain_lower s Hs) as Hl. rewrite (NFKD_plain _ Hl).
  apply Forall_rstrip, Forall_lstrip, Forall_sub_spaces; [apply plain_space|].
  by apply Forall_sub_nonword.
Qed.

Lemma normalize_text_plain (s : str) :
  Forall (λ c, (c < 128)%N) s →
  Forall plain (CleanMf.normalize_text (H:=excerpt) (VStr s)).
Proof.
  intros Hs. unfold CleanMf.normalize_text. cbn [isna to_str].
  pose proof (plain_lower s Hs) as Hl. rewrite (NFKD_plain _ Hl).
  apply Forall_join; [apply plain_space|]. apply split_ws_chars; [done|].
  apply Forall_sub_nonword; [repeat constructor; apply plain_space|].
  apply Forall_forall. intros c [_ Hc]%list_elem_of_filter.
  by eapply Forall_forall in Hl.
Qed.

(** On ASCII text normalization is idempotent, in [clean.py] and in
    [clean_mf.py]. *)
Lemma normalization_idempotent_ascii (s : str) :
  Forall (λ c, (c < 128)%N) s →
  let y := Clean.normalize_string (H:=excerpt) (Some s) in
  let z := CleanMf.normalize_text (H:=excerpt) (VStr s) in
  Clean.normalize_string (H:=excerpt) (Some y) = y
  ∧ CleanMf.normalize_text (H:=excerpt) (VStr z) = z.
Proof.
  intros Hs y z.
  pose proof (normalize_string_plain s Hs) as Hy.
  pose proof (normalize_text_plain s Hs) as Hz.
  split.
  - apply (normalize_string_idempotent_on_stable (U:=excerpt) eq_refl (Some s));
      [by apply lower_plain | by apply NFKD_plain].
  - apply (normalize_text_idempotent_on_stable (U:=excerpt) eq_refl eq_refl (VStr s));
      [by apply lower_plain | by apply NFKD_plain].
Qed.

End Ascii.

(** ** The similarity scorer *)

Section Positions.
Import Py Difflib.

Lemma elem_of_positions_from c l : ∀ k j,
  j ∈ positions_from k c l ↔ k ≤ j ∧ l !! (j - k) = Some c.
Proof.
  induction l as [|x r IH]; intros k j; simpl.
  - rewrite elem_of_nil. naive_solver.
  - assert (Hshift : S k ≤ j → (x :: r) !! (j - k) = r !! (j - S k)).
    { intros. by replace (j - k) with (S (j - S k)) by lia. }
    destruct (N.eqb_spec x c) as [->|Hne].
    + rewrite elem_of_cons, IH. split.
      * intros [->|[Hk Hl]]; [by rewrite Nat.sub_diag|].
        rewrite Hshift by done. split; [lia|done].
      * intros [Hk Hl]. destruct (decide (j = k)) as [|Hjk]; [by left|right].
        rewrite <- Hshift by lia. split; [lia|done].
    + rewrite IH. split.
      * intros [Hk Hl]. rewrite Hshift by done. split; [lia|done].
      * intros [Hk Hl]. destruct (decide (j = k)) as [->|Hjk].
        { rewrite Nat.sub_diag in Hl. simpl in Hl. congruence. }
        rewrite <- Hshift by lia. split; [lia|done].
Qed.

Lemma positions_from_sorted c l : ∀ k, StronglySorted lt (positions_from k c l).
Proof.
  induction l as [|x r IH]; intros k; simpl; [constructor|].
  destruct (x =? c)%N; [|apply IH].
  constructor; [apply IH|]. apply Forall_forall.
  intros j [Hj _]%elem_of_positions_from. lia.
Qed.

Lemma chain_fold_lookup c l : ∀ k (m : gmap N (list nat)),
  fold_left chain_step (imap (λ i, pair (k + i)) l) m !! c
  = appended (m !! c) (positions_from k c l).
Proof.
  induction l as [|x r IH]; intros k m; [done|].
  rewrite imap_cons. cbn [fold_left].
  erewrite imap_ext; [rewrite (IH (S k))|intros i y _; simpl; f_equal; lia].
  unfold chain_step. cbn [fst snd positions_from]. rewrite Nat.add_0_r.
  destruct (N.eqb_spec x c) as [->|Hne].
  - rewrite lookup_insert_eq. unfold appended.
    destruct (positions_from (S k) c r); simpl; [done|].
    by rewrite <- app_assoc.
  - by rewrite lookup_insert_ne.
Qed.

Lemma b2j_all_lookup (b : str) c :
  b2j_all b !! c = appended None (positions_from 0 c b).
Proof.
  unfold b2j_all. pose proof (chain_fold_lookup c b 0 ∅) as Hl.
  by rewrite lookup_empty in Hl.
Qed.

Lemma b2j_lookup_Some (b : str) c l :
  b2j b !! c = Some l → l = positions_from 0 c b.
Proof.
  unfold b2j. intros Hl.
  assert (Hall : b2j_all b !! c = Some l).
  { destruct (200 <=? length b); [|done].
    by apply map_lookup_filter_Some in Hl as [? _]. }
  rewrite b2j_all_lookup in Hall. unfold appended in Hall.
  destruct (positions_from 0 c b); [done|]. by injection Hall as <-.
Qed.

Lemma j2len_at_empty j : j2len_at ∅ j = 0.
Proof. unfold j2len_at. by rewrite lookup_empty. Qed.

Lemma j2len_at_insert (m : gmap nat nat) j k x :
  j2len_at (<[j := k]> m) x = if decide (j = x) then k else j2len_at m x.
Proof. unfold j2len_at. rewrite lookup_insert. by case_decide. Qed.

End Positions.

Section Bounds.
Import Py Difflib.
Variables a b : str.
#[local] Abbreviation get := Difflib.j2len_at.

Lemma scan_row_within alo blo bhi i J js : ∀ new best,
  alo ≤ i →
  (∀ j, j2lenget J j ≤ i - alo ∧ j2lenget J j ≤ j - blo) →
  (∀ j, get new j ≤ S i - alo ∧ get new j ≤ S j - blo) →
  within (alo, S i, blo, bhi) best →
  let r := scan_row i blo bhi J js new best in
  (∀ j, get r.1 j ≤ S i - alo ∧ get r.1 j ≤ S j - blo)
  ∧ within (alo, S i, blo, bhi) r.2.
Proof.
  intros new best Hi HJ. revert new best.
  induction js as [|j js IH]; intros new best Hnew Hbest; simpl; [done|].
  destruct (j <? blo) eqn:Ejb; [by apply IH|]. apply Nat.ltb_ge in Ejb.
  destruct (bhi <=? j) eqn:Ebj; [done|]. apply Nat.leb_gt in Ebj.
  destruct (HJ j) as [Hk1 Hk2].
  assert (Hnew' : ∀ x, get (<[j:=j2lenget J j + 1]> new) x ≤ S i - alo
                      ∧ get (<[j:=j2lenget J j + 1]> new) x ≤ S x - blo).
  { intros x. rewrite j2len_at_insert. case_decide as Hx; [subst x; lia|apply Hnew]. }
  destruct (best.2 <? j2lenget J j + 1); apply IH; try done.
  unfold within; simpl. lia.
Qed.

Lemma scan_rows_within alo blo bhi len : ∀ i J best,
  alo ≤ i →
  (∀ j, j2lenget J j ≤ i - alo ∧ j2lenget J j ≤ j - blo) →
  within (alo, i, blo, bhi) best →
  within (alo, i + len, blo, bhi) (scan_rows a b blo bhi (seq i len) J best).
Proof.
  induction len as [|len IH]; intros i J best Hi HJ Hbest; simpl.
  - by rewrite Nat.add_0_r.
  - rewrite <- Nat.add_succ_comm.
    destruct (scan_row_within alo blo bhi i J (row_positions a b i) ∅ best Hi HJ)
      as [HJ' Hbest'].
    + intros j. unfold j2len_at. rewrite lookup_empty. simpl. lia.
    + unfold within in *; simpl in *. lia.
    + apply IH; [lia| |done].
      intros [|j]; [simpl; lia|]. destruct (HJ' j). simpl.
      change (default 0 (?m !! j)) with (get m j). lia.
Qed.

Lemma extend_left_within junk alo blo bi : ∀ bj bs,
  alo ≤ bi → blo ≤ bj →
  let r := extend_left a b junk alo blo bi bj bs in
  alo ≤ r.1.1 ∧ blo ≤ r.1.2 ∧ r.1.1 + r.2 = bi + bs ∧ r.1.2 + r.2 = bj + bs.
Proof.
  induction bi as [|bi IH]; intros bj bs Hi Hj; simpl; [lia|].
  destruct bj as [|bj]; simpl; [lia|].
  destruct (alo <? S bi) eqn:E1; simpl; [|lia].
  destruct (blo <? S bj) eqn:E2; simpl; [|lia].
  apply Nat.ltb_lt in E1, E2.
  destruct (bool_decide (junk_at b bj = junk) && same_elt a b bi bj); simpl; [|lia].
  destruct (IH bj (S bs)) as (?&?&?&?); [lia..|]. lia.
Qed.

Lemma extend_right_within junk ahi bhi bi bj todo : ∀ bs,
  bi + bs ≤ ahi → bj + bs ≤ bhi →
  let r := extend_right a b junk ahi bhi bi bj bs todo in
  bs ≤ r ∧ bi + r ≤ ahi ∧ bj + r ≤ bhi.
Proof.
  induction todo as [|todo IH]; intros bs Hi Hj; simpl; [lia|].
  destruct (bi + bs <? ahi) eqn:E1; simpl; [|lia].
  destruct (bj + bs <? bhi) eqn:E2; simpl; [|lia].
  apply Nat.ltb_lt in E1, E2.
  destruct (bool_decide (junk_at b (bj + bs) = junk) && same_elt a b (bi + bs) (bj + bs));
    simpl; [|lia].
  destruct (IH (S bs)) as (?&?&?); [lia..|]. lia.
Qed.

Lemma extend_within junk alo ahi blo bhi (m : Match) :
  within (alo, ahi, blo, bhi) m → within (alo, ahi, blo, bhi) (extend a b junk alo ahi blo bhi m).
Proof.
  destruct m as [[bi bj] bs]. unfold within, extend; simpl. intros (H1 & H2 & H3 & H4).
  pose proof (extend_left_within junk alo blo bi bj bs H1 H3) as Hl.
  destruct (extend_left a b junk alo blo bi bj bs) as [[bi' bj'] bs']. simpl in *.
  pose proof (extend_right_within junk ahi bhi bi' bj' (ahi - (bi' + bs')) bs') as Hr.
  simpl in Hr. lia.
Qed.

(** the block of [find_longest_match] lies within the window it is given *)
Lemma find_longest_match_within alo ahi blo bhi :
  proper (alo, ahi, blo, bhi) →
  within (alo, ahi, blo, bhi) (find_longest_match a b alo ahi blo bhi).
Proof.
  unfold proper; simpl. intros [Ha Hb]. unfold find_longest_match.
  do 2 apply extend_within.
  replace ahi with (alo + (ahi - alo)) at 1 by lia.
  apply scan_rows_within; [done| |unfold within; simpl; lia].
  intros [|j]; simpl; [lia|]. rewrite lookup_empty. simpl. lia.
Qed.

Lemma matching_loop_enough turns : ∀ queue blocks more,
  Forall proper queue → queue_weight queue ≤ turns →
  matching_loop a b (turns + more) queue blocks = matching_loop a b turns queue blocks.
Proof.
  induction turns as [|turns IH]; intros queue blocks more Hq Hw.
  - destruct queue as [|w queue]; [by destruct more|]. simpl in Hw. lia.
  - destruct queue as [|[[[alo ahi] blo] bhi] queue]; [done|].
    apply Forall_cons in Hq as [Hw0 Hq]. simpl in Hw.
    cbn [Nat.add matching_loop].
    pose proof (find_longest_match_within alo ahi blo bhi Hw0) as Hin.
    destruct (find_longest_match a b alo ahi blo bhi) as [[i j] k].
    unfold within, proper in Hin, Hw0; simpl in Hin, Hw0.
    destruct (0 <? k) eqn:Ek; [|apply IH; [done|lia]].
    apply Nat.ltb_lt in Ek. apply IH.
    + unfold push_if.
      destruct ((i + k <? ahi) && (j + k <? bhi)) eqn:E2;
        destruct ((alo <? i) && (blo <? j)) eqn:E1;
        repeat (apply Forall_cons; split); try done;
        unfold proper; simpl; lia.
    + unfold push_if.
      destruct ((i + k <? ahi) && (j + k <? bhi)) eqn:E2;
        destruct ((alo <? i) && (blo <? j)) eqn:E1; simpl; lia.
Qed.

(** More turns than [get_matching_blocks] allows change nothing: the queue
    is empty by then. *)
Lemma get_matching_blocks_terminates more :
  matching_loop a b (2 * length a + 1 + more) [(0, length a, 0, length b)] []
  = matching_loop a b (2 * length a + 1) [(0, length a, 0, length b)] [].
Proof.
  apply matching_loop_enough.
  - repeat constructor; simpl; lia.
  - simpl. lia.
Qed.

End Bounds.

Section SelfMatch.
Import Py Difflib.
Variable s : str.

#[local] Abbreviation live_at := (Difflib.live_at s).
#[local] Abbreviation run_len := (Difflib.run_len s).
#[local] Abbreviation diagonal := (Difflib.diagonal s).
#[local] Abbreviation get := Difflib.j2len_at.

Lemma run_len_le j : run_len j ≤ j.
Proof. induction j as [|j IH]; simpl; [done|]. destruct (live_at j); lia. Qed.

Lemma row_positions_dead i : live_at i = false → row_positions s s i = [].
Proof.
  unfold live_at, row_positions. destruct (s !! i) as [c|]; [|done].
  intros Hd%bool_decide_eq_false. destruct (b2j s !! c) eqn:E; [|done].
  destruct Hd. by eexists.
Qed.

Lemma row_positions_live i :
  live_at i = true →
  StronglySorted lt (row_positions s s i)
  ∧ i ∈ row_positions s s i
  ∧ ∀ j, j ∈ row_positions s s i → live_at j = true ∧ j < length s.
Proof.
  unfold live_at, row_positions. destruct (s !! i) as [c|] eqn:Ei; [|done].
  intros [l Hl]%bool_decide_eq_true. rewrite Hl. simpl.
  rewrite (b2j_lookup_Some _ _ _ Hl). split_and!.
  - apply positions_from_sorted.
  - apply elem_of_positions_from. rewrite Nat.sub_0_r. split; [lia|done].
  - intros j [_ Hj]%elem_of_positions_from. rewrite Nat.sub_0_r in Hj.
    rewrite Hj. split; [|by eapply lookup_lt_Some].
    apply bool_decide_eq_true. by eexists.
Qed.

Lemma scan_row_self i J js : ∀ new best,
  live_at i = true →
  StronglySorted lt js →
  (∀ j, j ∈ js → live_at j = true ∧ j < length s) →
  (∀ j, j2lenget J j ≤ run_len i ∧ j2lenget J j ≤ run_len j) →
  j2lenget J i = run_len i →
  (∀ j, get new j ≤ run_len (S i) ∧ get new j ≤ run_len (S j)) →
  best.1.1 = best.1.2 → best.1.1 + best.2 ≤ S i →
  (∀ r, r ≤ i → run_len r ≤ best.2) →
  (i ∈ js ∨ (get new i = run_len (S i) ∧ run_len (S i) ≤ best.2 ∧ Forall (lt i) js)) →
  let r := scan_row i 0 (length s) J js new best in
  (∀ j, get r.1 j ≤ run_len (S i) ∧ get r.1 j ≤ run_len (S j))
  ∧ get r.1 i = run_len (S i)
  ∧ r.2.1.1 = r.2.1.2 ∧ r.2.1.1 + r.2.2 ≤ S i
  ∧ (∀ r', r' ≤ S i → run_len r' ≤ r.2.2).
Proof.
  intros new best Hi Hsorted Hjs HJ HJi.
  revert new best. induction js as [|j js IH]; intros new best Hnew Hdiag Hb Hrun Hprog.
  - simpl. destruct Hprog as [[]%elem_of_nil | (Hg & Hr & _)].
    split_and!; try done. intros r' Hr'.
    destruct (decide (r' = S i)) as [->|]; [done|]. apply Hrun. lia.
  - apply StronglySorted_inv in Hsorted as [Hsorted Hlt].
    destruct (Hjs j) as [Hlive Hjn]; [left|].
    cbn [scan_row]. replace (j <? 0) with false by done.
    replace (length s <=? j) with false by (symmetry; apply Nat.leb_gt; lia).
    set (k := j2lenget J j + 1).
    assert (HSi : run_len (S i) = S (run_len i)) by (simpl; by rewrite Hi).
    assert (HSj : run_len (S j) = S (run_len j)) by (simpl; by rewrite Hlive).
    assert (Hk : k ≤ run_len (S i) ∧ k ≤ run_len (S j)).
    { destruct (HJ j). unfold k. lia. }
    assert (Hnew' : ∀ x, get (<[j:=k]> new) x ≤ run_len (S i)
                        ∧ get (<[j:=k]> new) x ≤ run_len (S x)).
    { intros x. rewrite j2len_at_insert. case_decide as Hx; [subst x; done|apply Hnew]. }
    assert (Hcases : (j = i ∧ Forall (lt i) js)
                     ∨ (j < i ∧ i ∈ js)
                     ∨ (i < j ∧ get new i = run_len (S i) ∧ run_len (S i) ≤ best.2
                        ∧ Forall (lt i) js)).
    { destruct Hprog as [[->|Hin]%elem_of_cons | (Hg & Hr & Hall)].
      - by left.
      - right; left. split; [|done]. by eapply Forall_forall in Hlt.
      - apply Forall_cons in Hall as [? ?]. right; right. done. }
    assert (Hjs' : ∀ x, x ∈ js → live_at x = true ∧ x < length s)
      by (intros x Hx; apply Hjs; by right).
    destruct (best.2 <? k) eqn:Ebk.
    + apply Nat.ltb_lt in Ebk.
      destruct Hcases as [[-> Hall] | [[Hji Hin] | (Hij & Hg & Hr & Hall)]].
      * assert (k = run_len (S i)) as Hkeq by (unfold k; lia).
        pose proof (run_len_le (S i)).
        apply IH; try done; cbn [fst snd].
        -- lia.
        -- intros r Hr. specialize (Hrun r Hr). lia.
        -- right. rewrite j2len_at_insert, decide_True by done. split_and!; [done|lia|done].
      * pose proof (Hrun (S j) ltac:(lia)). lia.
      * lia.
    + apply Nat.ltb_ge in Ebk.
      apply IH; try done.
      destruct Hcases as [[-> Hall] | [[Hji Hin] | (Hij & Hg & Hr & Hall)]].
      * right. rewrite j2len_at_insert, decide_True by done.
        split_and!; [unfold k; lia | unfold k; lia | done].
      * by left.
      * right. rewrite j2len_at_insert, decide_False by lia. done.
Qed.


Lemma j2lenget_get J j : j2lenget J (S j) = get J j.
Proof. done. Qed.

Lemma row_step_diagonal i J best :
  diagonal i J best →
  let r := scan_row i 0 (length s) J (row_positions s s i) ∅ best in
  diagonal (S i) r.1 r.2.
Proof.
  intros (HJ & HJi & Hdiag & Hb & Hrun).
  assert (Hnext : ∀ (J' : gmap nat nat) best',
    (∀ j, get J' j ≤ run_len (S i) ∧ get J' j ≤ run_len (S j)) →
    get J' i = run_len (S i) →
    best'.1.1 = best'.1.2 → best'.1.1 + best'.2 ≤ S i →
    (∀ r', r' ≤ S i → run_len r' ≤ best'.2) →
    diagonal (S i) J' best').
  { intros J' best' HJ' HJi' ? ? ?. split_and!; try done.
    intros [|j]; [simpl; lia|]. rewrite j2lenget_get. apply HJ'. }
  destruct (live_at i) eqn:Hi.
  - destruct (row_positions_live i Hi) as (Hsorted & Hin & Hjs).
    assert (Hempty : ∀ j, get ∅ j ≤ run_len (S i) ∧ get ∅ j ≤ run_len (S j)).
    { intros j. rewrite j2len_at_empty. lia. }
    destruct (scan_row_self i J (row_positions s s i) ∅ best Hi Hsorted Hjs HJ HJi
                Hempty Hdiag ltac:(lia) Hrun ltac:(by left))
      as (H1 & H2 & H3 & H4 & H5).
    by apply Hnext.
  - rewrite (row_positions_dead i Hi). simpl.
    assert (HSi : run_len (S i) = 0) by (simpl; by rewrite Hi).
    apply Hnext; [| by rewrite j2len_at_empty | done | lia |].
    + intros j. rewrite j2len_at_empty. lia.
    + intros r' Hr'. destruct (decide (r' = S i)) as [->|]; [lia|]. apply Hrun. lia.
Qed.

Lemma scan_rows_diagonal len : ∀ i J best,
  diagonal i J best →
  let r := scan_rows s s 0 (length s) (seq i len) J best in
  r.1.1 = r.1.2 ∧ r.1.1 + r.2 ≤ i + len.
Proof.
  induction len as [|len IH]; intros i J best Hd; simpl.
  - destruct Hd as (_ & _ & ? & ? & _). split; [done|lia].
  - rewrite <- Nat.add_succ_comm. apply IH. by apply row_step_diagonal.
Qed.

Lemma same_elt_self i : i < length s → same_elt s s i i = true.
Proof.
  intros [c Hc]%lookup_lt_is_Some. unfold same_elt. rewrite Hc. apply N.eqb_refl.
Qed.

Lemma junk_at_false (b : str) j : junk_at b j = false.
Proof. unfold junk_at. by destruct (b !! j). Qed.

Lemma extend_left_self bi : ∀ bs,
  bi ≤ length s → extend_left s s false 0 0 bi bi bs = (0, 0, bs + bi).
Proof.
  induction bi as [|bi IH]; intros bs Hbi; simpl.
  - by rewrite Nat.add_0_r.
  - rewrite junk_at_false, same_elt_self by lia.
    rewrite bool_decide_eq_true_2 by done. simpl.
    rewrite IH by lia. f_equal. lia.
Qed.

Lemma extend_right_self todo : ∀ size,
  size + todo ≤ length s →
  extend_right s s false (length s) (length s) 0 0 size todo = size + todo.
Proof.
  induction todo as [|todo IH]; intros size Hsize; simpl; [lia|].
  rewrite junk_at_false, same_elt_self by lia.
  rewrite bool_decide_eq_true_2 by done.
  replace (size <? length s) with true by (symmetry; apply Nat.ltb_lt; lia).
  simpl. rewrite IH by lia. lia.
Qed.

Lemma extend_left_junk (a b : str) alo blo bi : ∀ bj bs,
  extend_left a b true alo blo bi bj bs = (bi, bj, bs).
Proof.
  destruct bi as [|bi]; intros [|bj] bs; simpl; try done.
  rewrite junk_at_false. rewrite bool_decide_eq_false_2 by done.
  by rewrite andb_false_r.
Qed.

Lemma extend_right_junk (a b : str) ahi bhi bi bj bs todo :
  extend_right a b true ahi bhi bi bj bs todo = bs.
Proof.
  destruct todo as [|todo]; simpl; [done|].
  rewrite junk_at_false. rewrite bool_decide_eq_false_2 by done.
  by rewrite andb_false_r.
Qed.

Lemma extend_junk (a b : str) alo ahi blo bhi (m : Match) :
  extend a b true alo ahi blo bhi m = m.
Proof.
  unfold extend. rewrite extend_left_junk, extend_right_junk. by destruct m as [[??]?].
Qed.

Lemma matching_loop_done (a b : str) turns blocks :
  matching_loop a b turns [] blocks = blocks.
Proof. by destruct turns. Qed.

Lemma find_longest_match_self :
  find_longest_match s s 0 (length s) 0 (length s) = (0, 0, length s).
Proof.
  unfold find_longest_match. rewrite extend_junk, Nat.sub_0_r.
  pose proof (scan_rows_diagonal (length s) 0 ∅ (0, 0, 0)) as Hd.
  destruct Hd as [Hdiag Hb].
  { split_and!; simpl; [|done|done|done|].
    - intros j. destruct j; [simpl; lia|]. rewrite j2lenget_get, j2len_at_empty. lia.
    - intros r Hr. by replace r with 0 by lia. }
  destruct (scan_rows s s 0 (length s) (seq 0 (length s)) ∅ (0, 0, 0))
    as [[bi bj] bs]. simpl in *. subst bj.
  unfold extend. cbn [fst snd]. rewrite extend_left_self by lia.
  rewrite extend_right_self by lia. f_equal. lia.
Qed.

Lemma matches_self : matches s s = length s.
Proof.
  unfold matches, get_matching_blocks.
  destruct s as [|c r] eqn:Es; [done|]. rewrite <- Es.
  replace (2 * length s + 1) with (S (2 * length s)) by lia.
  cbn [matching_loop]. rewrite find_longest_match_self.
  assert (Hpos : 0 < length s) by (rewrite Es; simpl; lia).
  replace (0 <? length s) with true by (symmetry; by apply Nat.ltb_lt).
  rewrite Nat.ltb_irrefl. cbn [andb push_if Nat.add].
  rewrite Nat.ltb_irrefl. cbn [andb push_if app].
  rewrite matching_loop_done. cbn [sort foldr insert_sorted collapse Nat.add].
  cbn [Nat.eqb andb].
  replace (0 <? length s) with true by (symmetry; by apply Nat.ltb_lt).
  simpl. lia.
Qed.

Lemma calculate_ratio_all n : 0 < n → (calculate_ratio n (n + n) == 1)%Q.
Proof.
  intros Hn. unfold calculate_ratio.
  destruct (n + n) as [|m] eqn:E; [lia|].
  unfold Qeq. cbn [Qnum Qden]. rewrite <- E. lia.
Qed.

Lemma ratio_self : s ≠ [] → (ratio s s == 1)%Q.
Proof.
  intros Hs. unfold ratio. rewrite matches_self.
  apply calculate_ratio_all. destruct s; [done|simpl; lia].
Qed.

End SelfMatch.

Section EmptyMatch.
Import Py Difflib.

Lemma matches_empty_left (b : str) : matches [] b = 0.
Proof. done. Qed.

Lemma row_positions_empty_b (a : str) i : row_positions a [] i = [].
Proof. unfold row_positions. by destruct (a !! i). Qed.

Lemma scan_rows_empty_b (a : str) blo bhi rows : ∀ J best,
  scan_rows a [] blo bhi rows J best = best.
Proof.
  induction rows as [|i rows IH]; intros J best; simpl; [done|].
  by rewrite row_positions_empty_b, IH.
Qed.

Lemma find_longest_match_empty_b (a : str) :
  find_longest_match a [] 0 (length a) 0 0 = (0, 0, 0).
Proof.
  unfold find_longest_match. rewrite extend_junk, scan_rows_empty_b.
  unfold extend. cbn [extend_left fst snd Nat.add]. rewrite Nat.sub_0_r.
  by destruct (length a).
Qed.

Lemma matches_empty_right (a : str) : matches a [] = 0.
Proof.
  unfold matches, get_matching_blocks.
  replace (2 * length a + 1) with (S (2 * length a)) by lia.
  cbn [matching_loop length]. rewrite find_longest_match_empty_b.
  cbn [Nat.ltb Nat.leb]. rewrite matching_loop_done. simpl. lia.
Qed.

Lemma calculate_ratio_none n : (calculate_ratio 0 n == 0)%Q ∨ n = 0.
Proof. destruct n; [by right|by left]. Qed.

(** C5, as the code has it.  The similarity of a string with itself is 1,
    that of two empty strings is 1, and that of an empty string with a string
    that is not empty is 0, in either order.  (Symmetry is not part of it:
    the score depends on the order of the arguments.) *)
Theorem similarity_contracts (a : str) (c : codepoint) (r : str) :
  (Clean.calculate_similarity a a == 1)%Q
  ∧ (Clean.calculate_similarity [] [] == 1)%Q
  ∧ (Clean.calculate_similarity [] (c :: r) == 0)%Q
  ∧ (Clean.calculate_similarity (c :: r) [] == 0)%Q.
Proof.
  unfold Clean.calculate_similarity. split_and!.
  - destruct a as [|x a']; [done|]. by apply ratio_self.
  - done.
  - done.
  - unfold ratio. rewrite matches_empty_right. done.
Qed.

(** Against the symmetry of C5: ["tide"] scores 0.25 against ["diet"], and
    ["diet"] scores 0.5 against ["tide"]. *)
Lemma similarity_not_symmetric :
  (Clean.calculate_similarity Examples.tide Examples.diet == 1 # 4)%Q
  ∧ (Clean.calculate_similarity Examples.diet Examples.tide == 1 # 2)%Q
  ∧ ¬ (Clean.calculate_similarity Examples.tide Examples.diet
       == Clean.calculate_similarity Examples.diet Examples.tide)%Q.
Proof. vm_compute. split_and!; [done..|discriminate]. Qed.

End EmptyMatch.

(** ** The fuzzy matcher of [clean.py] *)

Section FuzzyMatcher.
Import Py Clean.
Context `{UnicodeData}.

Lemma Qgtb_lt (x y : Q) : Qgtb x y = true ↔ (y < x)%Q.
Proof.
  unfold Qgtb. rewrite negb_true_iff, <- not_true_iff_false, Qle_bool_iff.
  split; [apply Qnot_le_lt | apply Qlt_not_le].
Qed.

(** C3.  Two entries are similar exactly when the similarity of the
    normalized titles is strictly above [title_threshold] and the similarity
    of the normalized authors is strictly above [author_threshold]; when the
    title similarity is not above its threshold, the only call of
    [calculate_similarity] is the one on the titles and the answer is no. *)
Theorem are_entries_similar_conjunction (entry1 entry2 : entry)
    (title_threshold author_threshold : Q) :
  let title1 := normalize_string (get_or_empty entry1 "title") in
  let title2 := normalize_string (get_or_empty entry2 "title") in
  let authors1 := normalize_string (get_or_empty entry1 "author") in
  let authors2 := normalize_string (get_or_empty entry2 "author") in
  let title_similarity := calculate_similarity title1 title2 in
  let author_similarity := calculate_similarity authors1 authors2 in
  (are_entries_similar entry1 entry2 title_threshold author_threshold = true
     ↔ (title_threshold < title_similarity)%Q
       ∧ (author_threshold < author_similarity)%Q)
  ∧ (¬ (title_threshold < title_similarity)%Q →
       are_entries_similar_traced entry1 entry2 title_threshold author_threshold
       = (false, [(title1, title2)]))
  ∧ ((title_threshold < title_similarity)%Q →
       (are_entries_similar_traced entry1 entry2 title_threshold author_threshold).2
       = [(title1, title2); (authors1, authors2)]).
Proof.
  intros title1 title2 authors1 authors2 ts asim.
  unfold are_entries_similar, are_entries_similar_traced, mbind, Traced_bind,
    mret, Traced_ret, calculate_similarity_traced.
  cbn [fst snd]. fold title1 title2 authors1 authors2. fold ts asim.
  destruct (Qgtb ts title_threshold) eqn:Et; cbn [fst snd app].
  - apply Qgtb_lt in Et. rewrite Qgtb_lt. tauto.
  - assert (¬ (title_threshold < ts)%Q) as Hn
      by (rewrite <- Qgtb_lt; congruence).
    split; [|split]; [|done|tauto].
    split; [done | tauto].
Qed.

End FuzzyMatcher.

Section Fieldless.
Import Py Clean.
Context {U : UnicodeData}.

Lemma blank_get_or_empty e field :
  blank e field → normalize_string (get_or_empty e field) = [].
Proof. unfold get_or_empty. by intros [-> | ->]. Qed.

Lemma blank_entries_similar e1 e2 :
  blank e1 "title" → blank e1 "author" → blank e2 "title" → blank e2 "author" →
  are_entries_similar e1 e2 title_threshold_default author_threshold_default = true.
Proof.
  intros Ht1 Ha1 Ht2 Ha2.
  unfold are_entries_similar, are_entries_similar_traced.
  rewrite !blank_get_or_empty by done. reflexivity.
Qed.

Lemma blank_doi_step ds i e : blank e "doi" → doi_step ds (i, e) = ds.
Proof. unfold doi_step; simpl. by intros [-> | ->]. Qed.

(** A batch made of two entries without title, author and DOI: one
    comparison, the second logged as a duplicate of the first. *)
Lemma fieldless_pair_batch e1 e2 :
  blank e1 "title" → blank e1 "author" → blank e2 "title" → blank e2 "author" →
  are_entries_similar e1 e2 title_threshold_default author_threshold_default = true
  ∧ (blank e1 "doi" → blank e2 "doi" →
     (deduplicate_entries [e1; e2] []).1 = [e1]
     ∧ log (deduplicate_entries [e1; e2] []).2
       = [Compared 0 1; Logged 0 1 Title_Author_similarity]).
Proof.
  intros Ht1 Ha1 Ht2 Ha2.
  pose proof (blank_entries_similar e1 e2 Ht1 Ha1 Ht2 Ha2) as Hsim.
  split; [done|]. intros Hd1 Hd2.
  assert (Hdoi : check_doi_duplicates [e1; e2] = []).
  { unfold check_doi_duplicates. simpl. by rewrite !blank_doi_step. }
  assert (Hinner : inner_step [e1; e2] 0 (State ∅ 0 []) 1
                   = State {[1]} 1 [Compared 0 1; Logged 0 1 Title_Author_similarity]).
  { unfold inner_step, similar_at. simpl. rewrite Hsim.
    rewrite bool_decide_eq_false_2 by set_solver.
    unfold claim. simpl. f_equal; set_solver. }
  assert (Hrun : run [e1; e2] []
                 = State {[1]} 1 [Compared 0 1; Logged 0 1 Title_Author_similarity]).
  { unfold run, doi_pass. rewrite Hdoi. unfold similarity_pass. simpl.
    unfold outer_step at 2. simpl.
    rewrite bool_decide_eq_false_2 by set_solver. rewrite Hinner.
    unfold outer_step. simpl. by rewrite bool_decide_eq_true_2 by set_solver. }
  unfold deduplicate_entries. rewrite Hrun. split; [|done].
  unfold unique_of. simpl. rewrite !filter_cons, filter_nil. simpl.
  rewrite decide_True by set_solver. by rewrite decide_False by set_solver.
Qed.

End Fieldless.

(** ** The DOI pass of [clean.py] *)

Section ExactKey.
Import Py Clean.
Context {U : UnicodeData}.
Implicit Types (es : list entry) (ds : gmap str nat * list (nat * nat)).

Lemma doi_step_key ds i e :
  doi_step ds (i, e)
  = match doi_key e with
    | Some key =>
        match ds.1 !! key with
        | Some original => (ds.1, ds.2 ++ [(original, i)])
        | None => (<[key := i]> ds.1, ds.2)
        end
    | None => ds
    end.
Proof.
  unfold doi_step, doi_key. simpl.
  destruct (e !! "doi") as [doi|]; [|done]. by destruct (truthy doi).
Qed.

Lemma first_with_unique es key o o' :
  first_with es key o → first_with es key o' → o = o'.
Proof.
  intros [Ho Hfo] [Ho' Hfo'].
  destruct (Nat.lt_trichotomy o o') as [Hlt|[->|Hlt]]; [|done|].
  - by destruct (Hfo' _ Hlt).
  - by destruct (Hfo _ Hlt).
Qed.

Lemma doi_step_exact es k e ds :
  es !! k = Some e → doi_exact es k ds → doi_exact es (S k) (doi_step ds (k, e)).
Proof.
  intros Hk (Hsome & Hnone & Hl). rewrite doi_step_key.
  assert (Hkey : key_at es k = doi_key e) by (unfold key_at; by rewrite Hk).
  destruct (doi_key e) as [key0|] eqn:Ekey.
  - destruct (ds.1 !! key0) as [o0|] eqn:Elook.
    + destruct (Hsome _ _ Elook) as [Ho0 Hf0]. split_and!; cbn [fst snd].
      * intros key o Hko. destruct (Hsome _ _ Hko). split; [lia|done].
      * intros key Hko o Ho. destruct (decide (o = k)) as [->|].
        -- rewrite Hkey. intros [= ->]. congruence.
        -- apply Hnone; [done|lia].
      * intros o d. rewrite elem_of_app, list_elem_of_singleton, Hl. split.
        -- intros [(Hd & Hod & key & Hkd & Hf) | [= -> ->]].
           ++ split_and!; [lia|done|]. by exists key.
           ++ split_and!; [lia|done|]. by exists key0.
        -- intros (Hd & Hod & key & Hkd & Hf).
           destruct (decide (d = k)) as [->|].
           ++ right. rewrite Hkey in Hkd. injection Hkd as <-.
              by rewrite (first_with_unique _ _ _ _ Hf Hf0).
           ++ left. split_and!; [lia|done|]. by exists key.
    + split_and!; cbn [fst snd].
      * intros key o. rewrite lookup_insert. case_decide as Hk0.
        -- intros [= <-]. subst key. split; [lia|]. split; [done|].
           intros u Hu. by apply Hnone.
        -- intros Hko. destruct (Hsome _ _ Hko). split; [lia|done].
      * intros key. rewrite lookup_insert. case_decide as Hk0; [done|].
        intros Hko o Ho. destruct (decide (o = k)) as [->|].
        -- rewrite Hkey. congruence.
        -- apply Hnone; [done|lia].
      * intros o d. rewrite Hl. split.
        -- intros (Hd & Hod & key & Hkd & Hf). split_and!; [lia|done|]. by exists key.
        -- intros (Hd & Hod & key & Hkd & Hf).
           destruct (decide (d = k)) as [->|].
           ++ rewrite Hkey in Hkd. injection Hkd as <-.
              destruct Hf as [Hfo _]. by destruct (Hnone _ Elook o Hod).
           ++ split_and!; [lia|done|]. by exists key.
  - split_and!.
    + intros key o Hko. destruct (Hsome _ _ Hko). split; [lia|done].
    + intros key Hko o Ho. destruct (decide (o = k)) as [->|].
      * by rewrite Hkey.
      * apply Hnone; [done|lia].
    + intros o d. rewrite Hl. split.
      * intros (Hd & Hod & key & Hkd & Hf). split_and!; [lia|done|]. by exists key.
      * intros (Hd & Hod & key & Hkd & Hf).
        destruct (decide (d = k)) as [->|]; [congruence|].
        split_and!; [lia|done|]. by exists key.
Qed.

Lemma doi_fold_exact es suffix : ∀ k ds,
  drop k es = suffix → doi_exact es k ds →
  doi_exact es (k + length suffix)
    (fold_left doi_step (imap (λ i, pair (k + i)) suffix) ds).
Proof.
  induction suffix as [|e suffix IH]; intros k ds Hdrop Hds; simpl.
  - by rewrite Nat.add_0_r.
  - rewrite Nat.add_0_r, <- Nat.add_succ_comm.
    assert (Hk : es !! k = Some e).
    { rewrite <- (Nat.add_0_r k), <- lookup_drop, Hdrop. done. }
    erewrite imap_ext; [apply (IH (S k))|].
    + rewrite (drop_S _ _ _ Hk) in Hdrop. by injection Hdrop.
    + by apply doi_step_exact.
    + intros i x _; simpl. f_equal. lia.
Qed.

(** [check_doi_duplicates] pairs a position [d] with [o] exactly when [d]
    carries a DOI, [o] is the first position whose DOI is the same once
    lowercased and stripped, and [o] comes before [d]. *)
Lemma check_doi_duplicates_first_seen es o d :
  (o, d) ∈ check_doi_duplicates es
  ↔ d < length es ∧ o < d
    ∧ ∃ key, key_at es d = Some key ∧ first_with es key o.
Proof.
  unfold check_doi_duplicates.
  pose proof (doi_fold_exact es es 0 (∅, []) eq_refl) as Hex. simpl in Hex.
  destruct Hex as (_ & _ & Hl); [|apply Hl].
  split_and!; simpl.
  - intros key x. by rewrite lookup_empty.
  - intros key _ x Hx. lia.
  - intros x y. rewrite elem_of_nil. split; [done|]. intros (? & _). lia.
Qed.

Lemma first_with_below es key n :
  (∀ u, u < n → key_at es u ≠ Some key) ∨ (∃ o, o < n ∧ first_with es key o).
Proof.
  induction n as [|n [Hno | (o & Ho & Hf)]].
  - left. intros u Hu. lia.
  - destruct (decide (key_at es n = Some key)) as [Hn|Hn].
    + right. exists n. split; [lia|]. by split.
    + left. intros u Hu. destruct (decide (u = n)) as [->|]; [done|]. apply Hno. lia.
  - right. exists o. split; [lia|done].
Qed.

(** Two positions whose DOIs agree once lowercased and stripped: the later
    one is paired with the first position that carries this DOI. *)
Lemma same_doi_matched es i j key :
  i < j → key_at es i = Some key → key_at es j = Some key →
  ∃ o, o ≤ i ∧ first_with es key o ∧ (o, j) ∈ check_doi_duplicates es.
Proof.
  intros Hij Hi Hj.
  destruct (first_with_below es key (S i)) as [Hno | (o & Ho & Hf)];
    [by destruct (Hno i ltac:(lia))|].
  assert (Hfirst : ∃ o, o ≤ i ∧ first_with es key o) by (exists o; split; [lia|done]).
  clear o Ho Hf.
  destruct Hfirst as (o & Ho & Hf). exists o. split_and!; [done..|].
  apply check_doi_duplicates_first_seen. split_and!; [|lia|by exists key].
  unfold key_at in Hj. destruct (es !! j) eqn:E; [|done]. by eapply lookup_lt_Some.
Qed.

(** An entry without DOI, or with an empty one, is in no pair. *)
Lemma blank_doi_unmatched es o d e :
  blank e "doi" → (o, d) ∈ check_doi_duplicates es →
  es !! o ≠ Some e ∧ es !! d ≠ Some e.
Proof.
  intros Hblank (Hd & Hod & key & Hkd & [Hko _])%check_doi_duplicates_first_seen.
  assert (Hnone : doi_key e = None) by (unfold doi_key; by destruct Hblank as [-> | ->]).
  unfold key_at in *. split; intros He; rewrite He in *; simpl in *; congruence.
Qed.

End ExactKey.

Section ExactKeyExamples.
Import Py Examples.

(** C4, at two records whose DOIs differ in case and trailing whitespace
    only: [check_doi_duplicates] of [clean.py] pairs the second with the
    first, [are_duplicates] of [clean_mf.py] reports no duplicate (it trims
    but does not lowercase). *)
Theorem doi_case_only_in_clean_py :
  Clean.check_doi_duplicates (H:=excerpt) [upper_doi; lower_doi] = [(0, 1)]
  ∧ CleanMf.are_duplicates (H:=excerpt) upper_doi lower_doi = false
  ∧ CleanMf.are_duplicates (H:=excerpt) lower_doi upper_doi = false.
Proof. by vm_compute. Qed.

End ExactKeyExamples.

(** ** The detector of [clean.py] *)

Section Detector.
Import Py Clean.
Context {U : UnicodeData}.
Implicit Types (st : state) (es : list entry) (t : list event).

Lemma fold_left_commute {A B} (f : A → B → A) (g : A → A) (xs : list B) :
  (∀ a x, f (g a) x = g (f a x)) →
  ∀ a, fold_left f xs (g a) = g (fold_left f xs a).
Proof.
  intros Hfg. induction xs as [|x xs IH]; intros a; simpl; [done|].
  by rewrite Hfg, IH.
Qed.

Lemma claim_with_log l o d m st :
  claim o d m (with_log l st) = with_log l (claim o d m st).
Proof. unfold claim, with_log; simpl. by rewrite app_assoc. Qed.

Lemma emit_with_log l e st : emit e (with_log l st) = with_log l (emit e st).
Proof. unfold emit, with_log; simpl. by rewrite app_assoc. Qed.

Lemma inner_step_with_log es i l st j :
  inner_step es i (with_log l st) j = with_log l (inner_step es i st j).
Proof.
  unfold inner_step. rewrite emit_with_log, claim_with_log.
  change (removed_entries (with_log l st)) with (removed_entries st).
  repeat case_bool_decide; try done. by destruct (similar_at es i j).
Qed.

Lemma outer_step_with_log es l st i :
  outer_step es (with_log l st) i = with_log l (outer_step es st i).
Proof.
  unfold outer_step.
  change (removed_entries (with_log l st)) with (removed_entries st).
  case_bool_decide; [done|].
  apply fold_left_commute. intros; apply inner_step_with_log.
Qed.

Lemma run_with_log es log0 : run es log0 = with_log log0 (run es []).
Proof.
  unfold run, similarity_pass, doi_pass.
  replace (State ∅ 0 log0) with (with_log log0 (State ∅ 0 []))
    by (unfold with_log; simpl; by rewrite app_nil_r).
  rewrite (fold_left_commute _ (with_log log0)).
  - apply fold_left_commute. intros; apply outer_step_with_log.
  - intros; apply claim_with_log.
Qed.


Lemma duplicates_of_app t1 t2 :
  duplicates_of (t1 ++ t2) = duplicates_of t1 ++ duplicates_of t2.
Proof. unfold duplicates_of. apply flat_map_app. Qed.

Lemma orderly_mono t : ∀ c c' : gset nat, c' ⊆ c → orderly c t → orderly c' t.
Proof.
  induction t as [|[i j|o d m] t IH]; intros c c' Hc; simpl; [done| |].
  - intros (Hi&Hj&Ht). split_and!; [set_solver..|by eapply IH].
  - intros (Hi&Hj&Ht). split_and!; [set_solver..|].
    eapply IH; [|done]. set_solver.
Qed.

Lemma orderly_app t1 : ∀ (c : gset nat) t2,
  orderly c (t1 ++ t2)
  ↔ orderly c t1 ∧ orderly (list_to_set (duplicates_of t1) ∪ c) t2.
Proof.
  induction t1 as [|[i j|o d m] t1 IH]; intros c t2; simpl.
  - rewrite (left_id_L ∅ (∪)). tauto.
  - rewrite IH. tauto.
  - rewrite IH.
    replace ({[d]} ∪ list_to_set (duplicates_of t1) ∪ c)
      with (list_to_set (duplicates_of t1) ∪ ({[d]} ∪ c) : gset nat)
      by set_solver.
    tauto.
Qed.

Lemma consistent_removed_set n st :
  consistent n st →
  list_to_set (duplicates_of (log st)) ∪ ∅ = removed_entries st.
Proof.
  intros Hc. apply set_eq. intros d.
  rewrite (consistent_removed _ _ Hc). set_solver.
Qed.

Lemma consistent_emit n st i j :
  consistent n st → i ∉ removed_entries st → j ∉ removed_entries st →
  consistent n (emit (Compared i j) st).
Proof.
  intros Hc Hi Hj. destruct Hc as [Hnd Hrm Hcnt Hb Ho].
  split; unfold emit; simpl; rewrite ?duplicates_of_app; simpl;
    rewrite ?app_nil_r; try done.
  apply orderly_app. split; [done|]. simpl.
  rewrite (consistent_removed_set n st); [done | by split].
Qed.

Lemma consistent_claim n st o d m :
  consistent n st → o ∉ removed_entries st → d ∉ removed_entries st → d < n →
  consistent n (claim o d m st).
Proof.
  intros Hc Hi Hj Hd. pose proof (consistent_removed_set n st Hc) as Hset.
  destruct Hc as [Hnd Hrm Hcnt Hb Ho].
  split; unfold claim; simpl; rewrite ?duplicates_of_app; simpl.
  - apply NoDup_app. split_and!; [done| |apply NoDup_singleton].
    intros x Hx ->%list_elem_of_singleton. by apply Hj, Hrm.
  - intros x. rewrite elem_of_app, list_elem_of_singleton, <- Hrm. set_solver.
  - rewrite length_app; simpl. lia.
  - intros x [->%elem_of_singleton|?]%elem_of_union; [done | by apply Hb].
  - apply orderly_app. split; [done|]. simpl. rewrite Hset. done.
Qed.


Lemma fold_left_seq_inv {A} (P : nat → A → Prop) (f : A → nat → A) (len : nat) :
  ∀ s a,
  (∀ i a, s ≤ i < s + len → P i a → P (S i) (f a i)) →
  P s a → P (s + len) (fold_left f (seq s len) a).
Proof.
  induction len as [|len IH]; intros s a Hstep Ha; simpl.
  - by rewrite Nat.add_0_r.
  - rewrite <- Nat.add_succ_comm. apply IH.
    + intros i b Hi. apply Hstep. lia.
    + apply Hstep; [lia | done].
Qed.

Lemma doi_step_consistent k ds e :
  doi_consistent k ds → doi_consistent (S k) (doi_step ds (k, e)).
Proof.
  intros (Hpairs & Hmap & Hnd). unfold doi_step; simpl.
  assert (Hlt : ∀ d, d ∈ ds.2.*2 → d < k).
  { intros d ((o & d') & -> & Hin)%list_elem_of_fmap.
    destruct (Hpairs _ _ Hin) as (_ & ? & _). done. }
  assert (Hk : k ∉ ds.2.*2) by (intros Hin%Hlt; lia).
  assert (Hweak : doi_consistent (S k) ds).
  { split_and!; [|intros key v Hv; destruct (Hmap _ _ Hv); split; [lia|done]|done].
    intros o d Hin. destruct (Hpairs _ _ Hin) as (?&?&?). split_and!; [lia..|done]. }
  destruct (e !! "doi") as [doi|]; [|done].
  destruct (truthy doi); [|done].
  destruct (ds.1 !! strip (lower doi)) as [original|] eqn:Hlook; simpl.
  - destruct (Hmap _ _ Hlook) as [Ho Hon].
    split_and!; simpl; rewrite ?fmap_app; simpl.
    + intros o d [Hin|Hin%list_elem_of_singleton]%elem_of_app.
      * destruct (Hpairs _ _ Hin) as (?&?&?). split_and!; [lia..|].
        rewrite elem_of_app, list_elem_of_singleton. intros [?|?]; [done|lia].
      * injection Hin as -> ->. split_and!; [lia..|].
        rewrite elem_of_app, list_elem_of_singleton. intros [?|?]; [done|lia].
    + intros key v Hv. destruct (Hmap _ _ Hv) as [? ?]. split; [lia|].
      rewrite elem_of_app, list_elem_of_singleton. intros [?|?]; [done|lia].
    + apply NoDup_app. split_and!; [done| |apply NoDup_singleton].
      intros x Hx ->%list_elem_of_singleton. done.
  - split_and!; simpl; [apply Hweak| |done].
    intros key v. rewrite lookup_insert. case_decide.
    + intros [= <-]. split; [lia|done].
    + intros Hv. destruct (Hmap _ _ Hv). split; [lia|done].
Qed.

Lemma doi_fold_consistent es : ∀ k ds,
  doi_consistent k ds →
  doi_consistent (k + length es)
    (fold_left doi_step (imap (λ i, pair (k + i)) es) ds).
Proof.
  induction es as [|e es IH]; intros k ds Hds; simpl.
  - by rewrite Nat.add_0_r.
  - rewrite Nat.add_0_r, <- Nat.add_succ_comm.
    erewrite imap_ext; [apply (IH (S k)), doi_step_consistent, Hds|].
    intros i x _; simpl. f_equal. lia.
Qed.

Lemma check_doi_duplicates_spec es :
  NoDup (check_doi_duplicates es).*2
  ∧ ∀ o d, (o, d) ∈ check_doi_duplicates es →
      o < d ∧ d < length es ∧ o ∉ (check_doi_duplicates es).*2.
Proof.
  unfold check_doi_duplicates.
  pose proof (doi_fold_consistent es 0 (∅, [])) as Hc. simpl in Hc.
  destruct Hc as (Hpairs & _ & Hnd).
  - split_and!; simpl; [intros ?? []%elem_of_nil | | constructor].
    intros key v. by rewrite lookup_empty.
  - split; [done|]. apply Hpairs.
Qed.


Lemma claims_consistent n (l : list (nat * nat)) : ∀ st,
  consistent n st → NoDup l.*2 →
  (∀ o d, (o, d) ∈ l →
     (o ∉ l.*2) ∧ d < n ∧ (o ∉ removed_entries st) ∧ (d ∉ removed_entries st)) →
  consistent n (fold_left (λ st od, claim od.1 od.2 DOI_match st) l st)
  ∧ log (fold_left (λ st od, claim od.1 od.2 DOI_match st) l st)
    = log st ++ map (λ od, Logged od.1 od.2 DOI_match) l.
Proof.
  induction l as [|[o d] l IH]; intros st Hc Hnd Hl; simpl.
  - by rewrite app_nil_r.
  - apply NoDup_cons in Hnd as [Hd Hnd].
    destruct (Hl o d) as (Ho & Hdn & Hor & Hdr); [left|].
    destruct (IH (claim o d DOI_match st)) as [Hc' Hlog]; [|done| |].
    + by apply consistent_claim.
    + intros o' d' Hin. destruct (Hl o' d') as (Ho' & ? & ? & ?); [by right|].
      simpl in Ho'. apply not_elem_of_cons in Ho' as [? ?].
      split_and!; [done..| |]; simpl; apply not_elem_of_union;
        (split; [|done]); apply not_elem_of_singleton; [done|].
      intros ->. apply Hd. apply list_elem_of_fmap. by exists (o', d).
    + split; [done|]. rewrite Hlog. simpl. by rewrite <- app_assoc.
Qed.

Lemma consistent_init n : consistent n (State ∅ 0 []).
Proof. split; simpl; [constructor|set_solver|done|set_solver|done]. Qed.

Lemma doi_pass_spec es :
  consistent (length es) (doi_pass es (State ∅ 0 []))
  ∧ log (doi_pass es (State ∅ 0 []))
    = map (λ od, Logged od.1 od.2 DOI_match) (check_doi_duplicates es).
Proof.
  destruct (check_doi_duplicates_spec es) as [Hnd Hl].
  apply (claims_consistent (length es) _ (State ∅ 0 []));
    [apply consistent_init | done |].
  intros o d Hin. destruct (Hl _ _ Hin) as (?&?&?). simpl. set_solver.
Qed.

Lemma doi_pass_similarity_consistent es :
  similarity_consistent es 0 (doi_pass es (State ∅ 0 [])).
Proof.
  destruct (doi_pass_spec es) as [Hc Hlog]. split_and!; [done| |];
    intros o d; rewrite Hlog; intros (od & Heq & Hin)%list_elem_of_fmap.
  - done.
  - injection Heq as -> ->. by destruct od.
Qed.

Lemma inner_step_consistent es i bound st j :
  i < j < length es → i < bound ≤ j →
  similarity_consistent es bound st ∧ (i ∉ removed_entries st) →
  similarity_consistent es bound (inner_step es i st j)
  ∧ (i ∉ removed_entries (inner_step es i st j)).
Proof.
  intros Hj Hb [(Hc & Hta & Hdoi) Hi]. unfold inner_step.
  case_bool_decide as Hjr; [done|].
  assert (Hc' : consistent (length es) (emit (Compared i j) st))
    by by apply consistent_emit.
  assert (Hinv : similarity_consistent es bound (emit (Compared i j) st)).
  { split_and!; [done| |]; intros o d; unfold emit; simpl;
      rewrite elem_of_app, list_elem_of_singleton; intros [?|?]; eauto; done. }
  destruct (similar_at es i j); [|done].
  destruct Hinv as (_ & Hta' & Hdoi'). split.
  - split_and!.
    + apply consistent_claim; [done..|lia].
    + intros o d; unfold claim; simpl.
      rewrite elem_of_app, list_elem_of_singleton. intros [Hin|Heq].
      * destruct (Hta' _ _ Hin) as (?&?&Hor). simpl in Hor. split_and!; [done..|].
        apply not_elem_of_union. split; [|done].
        apply not_elem_of_singleton. lia.
      * injection Heq as -> ->. split_and!; [lia..|].
        apply not_elem_of_union. split; [apply not_elem_of_singleton; lia|done].
    + intros o d; unfold claim; simpl.
      rewrite elem_of_app, list_elem_of_singleton. intros [?|?]; eauto; done.
  - simpl. apply not_elem_of_union. split; [apply not_elem_of_singleton; lia|done].
Qed.

Lemma fold_left_Forall_inv {A B} (P : A → Prop) (Q : B → Prop) (f : A → B → A)
    (xs : list B) :
  (∀ a x, Q x → P a → P (f a x)) → Forall Q xs →
  ∀ a, P a → P (fold_left f xs a).
Proof.
  intros Hstep HQ. induction HQ as [|x xs Hx _ IH]; intros a Ha; simpl; [done|].
  apply IH. by apply Hstep.
Qed.

Lemma outer_step_consistent es st i :
  i < length es →
  similarity_consistent es i st → similarity_consistent es (S i) (outer_step es st i).
Proof.
  intros Hi Hinv.
  assert (Hweak : similarity_consistent es (S i) st).
  { destruct Hinv as (Hc & Hta & Hdoi). split_and!; [done| |done].
    intros o d Hin. destruct (Hta _ _ Hin) as (?&?&?). split_and!; [lia|done..]. }
  unfold outer_step. case_bool_decide as Hir; [done|].
  apply (fold_left_Forall_inv
           (λ st, similarity_consistent es (S i) st ∧ (i ∉ removed_entries st))
           (λ j, i < j < length es)); [| |done].
  - intros a j Hj Ha. apply inner_step_consistent; [done|lia|done].
  - apply Forall_forall. intros j Hj%elem_of_seq. lia.
Qed.

Lemma run_similarity_consistent es :
  similarity_consistent es (length es) (run es []).
Proof.
  unfold run, similarity_pass.
  apply (fold_left_seq_inv (similarity_consistent es) (outer_step es) (length es) 0).
  - intros i a Hi. apply outer_step_consistent. lia.
  - apply doi_pass_similarity_consistent.
Qed.



Lemma unique_pairs_fst (R : gset nat) es : ∀ k,
  (filter (λ ie : nat * entry, ie.1 ∉ R) (imap (λ i, pair (k + i)) es)).*1
  = filter (λ i, i ∉ R) (seq k (length es)).
Proof.
  induction es as [|e es IH]; intros k; [done|].
  rewrite imap_cons. simpl. rewrite !filter_cons. simpl.
  rewrite Nat.add_0_r. rewrite <- (IH (S k)).
  erewrite (imap_ext _ (λ i, pair (S k + i))).
  - by case_decide.
  - intros i x _; simpl. f_equal. lia.
Qed.

Lemma unique_of_lookup es st :
  Forall2 (λ i e, es !! i = Some e) (unique_ids es st) (unique_of es st).
Proof.
  unfold unique_ids, unique_of.
  rewrite <- (unique_pairs_fst (removed_entries st) es 0).
  apply Forall2_fmap, Forall_Forall2_diag, Forall_forall.
  intros [i e] [_ Hin]%list_elem_of_filter.
  apply elem_of_lookup_imap in Hin as (i' & e' & [= -> ->] & Hlook). done.
Qed.

Lemma duplicates_are_removed es st :
  consistent (length es) st →
  filter (λ i, ¬ (i ∉ removed_entries st)) (seq 0 (length es))
  ≡ₚ duplicates_of (log st).
Proof.
  intros Hc. apply NoDup_Permutation.
  - apply NoDup_filter, NoDup_seq.
  - apply (consistent_nodup _ _ Hc).
  - intros x. rewrite list_elem_of_filter, elem_of_seq.
    rewrite <- (consistent_removed _ _ Hc). split.
    + intros [Hx _]. by apply dec_stable.
    + intros Hx. pose proof (consistent_bound _ _ Hc x Hx). split; [tauto|lia].
Qed.

(** C1.  Partition completeness of [deduplicate_entries] ([clean.py]): the
    number of unique entries plus the number of duplicates logged is the
    number of input entries, [duplicates_count] is that number of
    duplicates, every input position occurs exactly once across the unique
    positions and the logged duplicates (the two together are a permutation
    of all positions), no unique position is a duplicate, and the entries
    returned are the entries at the unique positions. *)
Theorem partition_complete es :
  let st := (deduplicate_entries es []).2 in
  let unique := (deduplicate_entries es []).1 in
  let duplicates := duplicates_of (log st) in
  length unique + length duplicates = length es
  ∧ duplicates_count st = length duplicates
  ∧ unique_ids es st ++ duplicates ≡ₚ seq 0 (length es)
  ∧ Forall (λ i, i ∉ duplicates) (unique_ids es st)
  ∧ Forall2 (λ i e, es !! i = Some e) (unique_ids es st) unique.
Proof.
  cbv zeta. cbn [deduplicate_entries fst snd].
  destruct (run_similarity_consistent es) as (Hc & _ & _).
  set (st := run es []) in *.
  assert (Hperm : unique_ids es st ++ duplicates_of (log st) ≡ₚ seq 0 (length es)).
  { rewrite <- (duplicates_are_removed es st Hc). apply filter_app_complement. }
  assert (Hlook := unique_of_lookup es st).
  split_and!; [|apply (consistent_count _ _ Hc)|done| |done].
  - rewrite <- (Forall2_length _ _ _ Hlook), <- length_app, Hperm.
    apply length_seq.
  - apply Forall_forall. intros i [Hi _]%list_elem_of_filter.
    by rewrite <- (consistent_removed _ _ Hc).
Qed.

(** C2, as the code has it.  No record is logged as a duplicate twice; at
    the time of each comparison and of each claim none of the two records
    involved has been claimed before ([orderly]); an original of the
    similarity pass is never a duplicate; an original of the DOI pass is
    never a duplicate of the DOI pass. *)
Theorem claimed_records_stay_claimed es :
  let st := (deduplicate_entries es []).2 in
  NoDup (duplicates_of (log st))
  ∧ orderly ∅ (log st)
  ∧ (∀ o d, Logged o d Title_Author_similarity ∈ log st →
       o ∉ duplicates_of (log st))
  ∧ (∀ o d o' d', Logged o d DOI_match ∈ log st →
       Logged o' d' DOI_match ∈ log st → o ≠ d').
Proof.
  cbv zeta. cbn [deduplicate_entries snd].
  destruct (run_similarity_consistent es) as (Hc & Hta & Hdoi).
  set (st := run es []) in *.
  split_and!; [apply Hc..| |].
  - intros o d Hin. rewrite <- (consistent_removed _ _ Hc).
    by destruct (Hta _ _ Hin) as (_ & _ & ?).
  - intros o d o' d' Hin%Hdoi Hin'%Hdoi ->.
    destruct (check_doi_duplicates_spec es) as [_ Hl].
    destruct (Hl _ _ Hin) as (_ & _ & Ho). apply Ho.
    apply list_elem_of_fmap. by exists (o', d').
Qed.

End Detector.

Section Rerun.
Import Py.
Context {U : UnicodeData}.

Lemma group_step_with_file l st kg :
  CleanCsv.group_step (CleanCsv.with_file l st) kg
  = CleanCsv.with_file l (CleanCsv.group_step st kg).
Proof.
  unfold CleanCsv.group_step, CleanCsv.with_file.
  destruct kg.2 as [|first others]; [done|]. simpl.
  destruct (1 <? S (length others)); simpl; [|done].
  by rewrite app_assoc.
Qed.

Lemma csv_with_file cols rows file0 :
  CleanCsv.deduplicate_entries cols rows file0
  = CleanCsv.with_file file0 (CleanCsv.deduplicate_entries cols rows []).
Proof.
  unfold CleanCsv.deduplicate_entries.
  replace (CleanCsv.State [] 0 file0)
    with (CleanCsv.with_file file0 (CleanCsv.State [] 0 []))
    by (unfold CleanCsv.with_file; simpl; by rewrite app_nil_r).
  apply fold_left_commute. intros; apply group_step_with_file.
Qed.

End Rerun.

Section DetectorExamples.
Import Py Clean Examples.

(** Against C2 as stated: on these three records the record at position 1
    is the original of a DOI group and a duplicate of the similarity pass. *)
Lemma doi_original_claimed_later :
  let st := (deduplicate_entries (H:=excerpt)
               [paper_no_doi; paper_doi; other_same_doi] []).2 in
  log st = [Logged 1 2 DOI_match; Compared 0 1; Logged 0 1 Title_Author_similarity]
  ∧ originals_of (log st) = [1; 0]
  ∧ duplicates_of (log st) = [2; 1].
Proof. vm_compute. done. Qed.

End DetectorExamples.

(** ** Records without fields *)

Section FieldlessBatch.
Import Py Clean.
Context {U : UnicodeData}.
Implicit Types (st : state) (es : list entry).

Lemma similar_to_nameless e e1 e2 tt at' :
  nameless e1 → nameless e2 →
  are_entries_similar e e1 tt at' = are_entries_similar e e2 tt at'.
Proof.
  intros [Ht1 Ha1] [Ht2 Ha2].
  unfold are_entries_similar, are_entries_similar_traced.
  by rewrite !(blank_get_or_empty e1), !(blank_get_or_empty e2).
Qed.

Lemma inner_step_grows es t st jj x :
  x ∈ removed_entries st → x ∈ removed_entries (inner_step es t st jj).
Proof.
  unfold inner_step. case_bool_decide; [done|].
  destruct (similar_at es t jj); simpl; [|done]. set_solver.
Qed.

Lemma inner_step_other es t st jj x :
  x ≠ jj → x ∈ removed_entries (inner_step es t st jj) → x ∈ removed_entries st.
Proof.
  unfold inner_step. case_bool_decide; [done|].
  destruct (similar_at es t jj); simpl; [|done]. set_solver.
Qed.

Lemma inner_step_claims es t st jj :
  similar_at es t jj = true → jj ∈ removed_entries (inner_step es t st jj).
Proof.
  intros Hs. unfold inner_step. case_bool_decide; [done|].
  rewrite Hs. simpl. set_solver.
Qed.

Lemma inner_step_claimed es t st jj :
  jj ∈ removed_entries (inner_step es t st jj) →
  jj ∈ removed_entries st ∨ similar_at es t jj = true.
Proof.
  unfold inner_step. case_bool_decide; [by left|].
  destruct (similar_at es t jj); simpl; [by right|by left].
Qed.


Lemma duplicates_of_logged (l : list (nat * nat)) m :
  duplicates_of (map (λ od, Logged od.1 od.2 m) l) = l.*2.
Proof. induction l as [|[o d] l IH]; [done|]. simpl. by rewrite IH. Qed.

Lemma elem_of_duplicates_of (t : list event) d :
  d ∈ duplicates_of t ↔ ∃ o m, Logged o d m ∈ t.
Proof.
  induction t as [|[i j|o d' m] t IH]; simpl.
  - rewrite elem_of_nil. split; [done|]. by intros (? & ? & ?%elem_of_nil).
  - rewrite IH. split.
    + intros (o & m & Hin). exists o, m. by right.
    + intros (o & m & [Heq|Hin]%elem_of_cons); [done|]. by exists o, m.
  - rewrite elem_of_cons, IH. split.
    + intros [->|(o' & m' & Hin)]; [exists o, m; by left|].
      exists o', m'. by right.
    + intros (o' & m' & [[= -> -> ->]|Hin]%elem_of_cons); [by left|].
      right. by exists o', m'.
Qed.

Section Pair.
Variables (es : list entry) (i j : nat) (ei ej : entry).
Hypothesis Hij : i < j.
Hypothesis Hi : es !! i = Some ei.
Hypothesis Hj : es !! j = Some ej.
Hypothesis Hni : nameless ei.
Hypothesis Hnj : nameless ej.

#[local] Abbreviation pair_inner := (Clean.pair_inner es i j).
#[local] Abbreviation pair_outer := (Clean.pair_outer i j).

Lemma similar_at_nameless t : similar_at es t i = similar_at es t j.
Proof.
  unfold similar_at. rewrite Hi, Hj. destruct (es !! t); [|done].
  by apply similar_to_nameless.
Qed.

Lemma similar_at_pair : similar_at es i j = true.
Proof.
  unfold similar_at. rewrite Hi, Hj.
  destruct Hni, Hnj. by apply blank_entries_similar.
Qed.

Lemma inner_step_pair t jj st :
  t < jj → pair_inner t jj st → pair_inner t (S jj) (inner_step es t st jj).
Proof.
  intros Htj (Hk & Hti & Hit). split_and!.
  - intros Hin. destruct (decide (jj = i)) as [->|Hne].
    + destruct (inner_step_claimed _ _ _ _ Hin) as [Hold|Hsim].
      * destruct (Hk Hold) as [?|(?&?&?)]; [left; by apply inner_step_grows|].
        right. split_and!; [lia|done..].
      * right. split_and!; [lia|done..].
    + apply inner_step_other in Hin; [|done].
      destruct (Hk Hin) as [?|(Hjj & Hlt & Hsim)]; [left; by apply inner_step_grows|].
      destruct (decide (jj = j)) as [->|].
      * left. apply inner_step_claims. by rewrite <- similar_at_nameless.
      * right. split_and!; [lia|done..].
  - intros -> Hlt. destruct (decide (jj = j)) as [->|].
    + apply inner_step_claims, similar_at_pair.
    + apply inner_step_grows, Hti; [done|lia].
  - intros Hlt. by apply inner_step_grows, Hit.
Qed.

Lemma outer_step_pair t st :
  t < length es → pair_outer t st → pair_outer (S t) (outer_step es st t).
Proof.
  intros Ht [Hk Hit]. unfold outer_step. case_bool_decide as Htr.
  - split; [done|]. intros Hlt. destruct (decide (i = t)) as [->|]; [by apply Hk|].
    apply Hit. lia.
  - pose proof (fold_left_seq_inv (pair_inner t) (inner_step es t)
                  (length es - (t + 1)) (t + 1) st) as Hfold.
    replace (t + 1 + (length es - (t + 1))) with (length es) in Hfold by lia.
    destruct Hfold as (Hk' & Hti' & Hit').
    + intros jj a Hjj. apply inner_step_pair. lia.
    + split_and!; [|lia|done]. intros Hin. left. by apply Hk.
    + assert (Hjn : j < length es) by by eapply lookup_lt_Some.
      split.
      * intros Hin. destruct (Hk' Hin) as [?|(?&_)]; [done|lia].
      * intros Hlt. destruct (decide (i = t)) as [->|]; [by apply Hti'|].
        apply Hit'. lia.
Qed.

Hypothesis Hdi : blank ei "doi".
Hypothesis Hdj : blank ej "doi".

Lemma doi_pass_spares x e :
  es !! x = Some e → blank e "doi" →
  x ∉ removed_entries (doi_pass es (State ∅ 0 [])).
Proof.
  intros Hx Hb. destruct (doi_pass_spec es) as [Hc Hlog].
  rewrite (consistent_removed _ _ Hc), Hlog, duplicates_of_logged.
  intros ((o & d) & -> & Hin)%list_elem_of_fmap. simpl in Hx.
  by destruct (blank_doi_unmatched es o d e Hb Hin) as [_ ?].
Qed.

Lemma later_nameless_claimed :
  j ∈ removed_entries (run es [])
  ∧ ∃ o, Logged o j Title_Author_similarity ∈ log (run es []).
Proof.
  assert (Hjn : j < length es) by by eapply lookup_lt_Some.
  assert (Hrem : j ∈ removed_entries (run es [])).
  { unfold run, similarity_pass.
    pose proof (fold_left_seq_inv pair_outer (outer_step es) (length es) 0
                  (doi_pass es (State ∅ 0 []))) as Hfold.
    destruct Hfold as [_ Hfin].
    - intros t a Ht. apply outer_step_pair. lia.
    - split; [|lia]. intros Hin. by destruct (doi_pass_spares i ei Hi Hdi).
    - apply Hfin. simpl. lia. }
  split; [done|].
  destruct (run_similarity_consistent es) as (Hc & _ & Hdoi).
  apply (consistent_removed _ _ Hc), elem_of_duplicates_of in Hrem as (o & m & Hlog).
  exists o. destruct m; [|done].
  destruct (blank_doi_unmatched es o j ej Hdj (Hdoi _ _ Hlog)) as [_ Hne]. done.
Qed.

End Pair.

(** C10.  Two entries whose title and author are missing or empty are
    similar under the default thresholds.  When their DOI is missing or empty
    too, then in every batch that holds the two, the later one ends up
    removed and logged as a duplicate by title/author similarity; and a batch
    made of just the two compares them once, logs the second as a duplicate of
    the first and keeps the first only. *)
Theorem fieldless_entries_are_fuzzy_duplicates e1 e2 :
  blank e1 "title" → blank e1 "author" → blank e2 "title" → blank e2 "author" →
  are_entries_similar e1 e2 title_threshold_default author_threshold_default = true
  ∧ (blank e1 "doi" → blank e2 "doi" →
     (∀ es i j, i < j → es !! i = Some e1 → es !! j = Some e2 →
        j ∈ removed_entries (run es [])
        ∧ ∃ o, Logged o j Title_Author_similarity ∈ log (run es []))
     ∧ (deduplicate_entries [e1; e2] []).1 = [e1]
     ∧ log (deduplicate_entries [e1; e2] []).2
       = [Compared 0 1; Logged 0 1 Title_Author_similarity]).
Proof.
  intros Ht1 Ha1 Ht2 Ha2.
  destruct (fieldless_pair_batch e1 e2 Ht1 Ha1 Ht2 Ha2) as [Hsim Hpair].
  split; [done|]. intros Hd1 Hd2. split; [|by apply Hpair].
  intros es i j Hij Hi Hj.
  by apply (later_nameless_claimed es i j e1 e2).
Qed.

End FieldlessBatch.

Section FieldlessExamples.
Import Py Examples.

Lemma fieldless_witness :
  let e1 : Clean.entry := ∅ in
  let e2 : Clean.entry := {[ "title" := [] ]} in
  (Clean.blank e1 "title" ∧ Clean.blank e1 "author"
   ∧ Clean.blank e2 "title" ∧ Clean.blank e2 "author")
  ∧ Clean.are_entries_similar (H:=excerpt) e1 e2
      Clean.title_threshold_default Clean.author_threshold_default = true.
Proof.
  cbv zeta.
  assert (H1 : Clean.blank (∅ : Clean.entry) "title") by (left; reflexivity).
  assert (H2 : Clean.blank (∅ : Clean.entry) "author") by (left; reflexivity).
  assert (H3 : Clean.blank ({[ "title" := [] ]} : Clean.entry) "title")
    by (right; reflexivity).
  assert (H4 : Clean.blank ({[ "title" := [] ]} : Clean.entry) "author")
    by (left; reflexivity).
  split; [repeat split; assumption|].
  exact (proj1 (fieldless_entries_are_fuzzy_duplicates (U:=excerpt) _ _ H1 H2 H3 H4)).
Defined.

End FieldlessExamples.

(** ** Comparison keys of [clean_csv.py] and [clean_xlsx.py] *)

Section JoinKeys.
Import Py.

Lemma app_separator_inj (p q x y : str) :
  95%N ∉ p → 95%N ∉ q → p ++ 95%N :: x = q ++ 95%N :: y → p = q ∧ x = y.
Proof.
  revert q. induction p as [|c p IH]; intros [|d q] Hp Hq Heq; simpl in *.
  - by injection Heq.
  - injection Heq as <- _. destruct Hq. by left.
  - injection Heq as -> _. destruct Hp. by left.
  - injection Heq as -> Heq. apply not_elem_of_cons in Hp as [_ Hp], Hq as [_ Hq].
    destruct (IH q Hp Hq Heq) as [-> ->]. done.
Qed.

(** Segment tuples of the same length without the separator in any segment
    are told apart by their key. *)
Lemma join_separator_free_inj (ps qs : list str) :
  length ps = length qs →
  Forall (λ p, 95%N ∉ p) ps → Forall (λ q, 95%N ∉ q) qs →
  join [95%N] ps = join [95%N] qs → ps = qs.
Proof.
  revert qs. induction ps as [|p ps IH]; intros [|q qs] Hlen Hps Hqs Heq;
    try done.
  apply Forall_cons in Hps as [Hp Hps], Hqs as [Hq Hqs].
  destruct ps as [|p' ps], qs as [|q' qs]; try done.
  - simpl in Heq. by subst.
  - change (p ++ 95%N :: join [95%N] (p' :: ps) = q ++ 95%N :: join [95%N] (q' :: qs))
      in Heq.
    destruct (app_separator_inj _ _ _ _ Hp Hq Heq) as [-> Hrest].
    f_equal. apply IH; [simpl in *; lia|done..].
Qed.

End JoinKeys.

Section KeyParts.
Import Py.
Context {U : UnicodeData}.

Lemma xlsx_missing_segment (r : CleanXlsx.row) col :
  (r !! col = None ∨ ∃ v, r !! col = Some v ∧ isna v = true) →
  CleanXlsx.key_part r col = [].
Proof.
  unfold CleanXlsx.key_part, CleanXlsx.normalize_string.
  intros [-> | (v & -> & ->)]; done.
Qed.

Lemma csv_absent_segment (r : CleanCsv.row) col :
  r !! col = None → CleanCsv.key_part r col = [].
Proof. unfold CleanCsv.key_part. by intros ->. Qed.

End KeyParts.

Section KeyExamples.
Import Py Examples.

(** C7, at two rows with different segments: the separator survives
    normalization (it is a word character), and the two rows get the same
    comparison key, in [clean_csv.py] and in [clean_xlsx.py]. *)
Theorem separator_survives_normalization :
  CleanCsv.normalize_string (H:=excerpt) (VStr (lit "a_b")) = lit "a_b"
  ∧ CleanCsv.key_parts (H:=excerpt) columns row_ab_c = [lit "a_b"; lit "c"]
  ∧ CleanCsv.key_parts (H:=excerpt) columns row_a_bc = [lit "a"; lit "b_c"]
  ∧ CleanCsv.generate_comparison_key (H:=excerpt) columns row_ab_c = lit "a_b_c"
  ∧ CleanCsv.generate_comparison_key (H:=excerpt) columns row_a_bc = lit "a_b_c"
  ∧ CleanXlsx.generate_comparison_key (H:=excerpt) columns row_ab_c
    = CleanXlsx.generate_comparison_key (H:=excerpt) columns row_a_bc.
Proof. by vm_compute. Qed.

(** C8, at a row whose [Authors] cell is NaN: [clean_csv.py] turns the
    cell into the segment ["nan"] (it normalizes [str(row[col])]), where
    [clean_xlsx.py] gives the empty segment. *)
Theorem csv_nan_cell_is_not_empty :
  CleanCsv.key_part (H:=excerpt) row_missing_author "Authors" = lit "nan"
  ∧ CleanCsv.generate_comparison_key (H:=excerpt) columns row_missing_author
    = lit "foo_nan"
  ∧ CleanXlsx.key_part (H:=excerpt) row_missing_author "Authors" = []
  ∧ CleanXlsx.generate_comparison_key (H:=excerpt) columns row_missing_author
    = lit "foo_".
Proof. by vm_compute. Qed.

End KeyExamples.

(** ** Range of the similarity score *)

Section Range01.
Import Py Difflib.
Variables a b : str.

Lemma total_size_app l1 l2 : total_size (l1 ++ l2) = total_size l1 + total_size l2.
Proof.
  unfold total_size. induction l1 as [|x l1 IH]; simpl; [done|]. rewrite IH. lia.
Qed.

Lemma total_size_snoc l (x : Match) : total_size (l ++ [x]) = total_size l + x.2.
Proof. rewrite total_size_app. unfold total_size; simpl. lia. Qed.

Lemma matching_loop_room turns : ∀ queue blocks,
  Forall proper queue →
  total_size (matching_loop a b turns queue blocks)
    ≤ total_size blocks + queue_room_a queue
  ∧ total_size (matching_loop a b turns queue blocks)
    ≤ total_size blocks + queue_room_b queue.
Proof.
  induction turns as [|turns IH]; intros queue blocks Hq; [simpl; lia|].
  destruct queue as [|[[[alo ahi] blo] bhi] queue]; [simpl; lia|].
  apply Forall_cons in Hq as [Hw Hq]. cbn [matching_loop].
  pose proof (find_longest_match_within a b alo ahi blo bhi Hw) as Hin.
  destruct (find_longest_match a b alo ahi blo bhi) as [[i j] k].
  unfold within, proper in Hin, Hw; simpl in Hin, Hw.
  destruct (0 <? k) eqn:Ek.
  - match goal with |- context [matching_loop a b turns ?q ?bl] =>
      destruct (IH q bl) as [Ha Hb] end.
    + unfold push_if.
      destruct ((i + k <? ahi) && (j + k <? bhi)) eqn:E2;
        destruct ((alo <? i) && (blo <? j)) eqn:E1;
        repeat (apply Forall_cons; split); try done;
        unfold proper; simpl; lia.
    + rewrite total_size_snoc in Ha, Hb. cbn [snd] in Ha, Hb.
      apply Nat.ltb_lt in Ek.
      unfold push_if in Ha, Hb.
      destruct ((i + k <? ahi) && (j + k <? bhi)) eqn:E2;
        destruct ((alo <? i) && (blo <? j)) eqn:E1; simpl in *; lia.
  - destruct (IH queue blocks Hq) as [Ha Hb]. simpl. lia.
Qed.

Lemma total_size_insert_sorted x l :
  total_size (insert_sorted x l) = x.2 + total_size l.
Proof.
  unfold total_size. induction l as [|y l IH]; simpl; [done|].
  destruct (Match_leb x y); simpl; [done|]. rewrite IH. lia.
Qed.

Lemma total_size_sort l : total_size (sort l) = total_size l.
Proof.
  induction l as [|x l IH]; [done|]. simpl.
  rewrite total_size_insert_sorted, IH. done.
Qed.

Lemma total_size_cons (x : Match) l : total_size (x :: l) = x.2 + total_size l.
Proof. done. Qed.

Lemma total_size_collapse blocks : ∀ cur acc,
  total_size (collapse cur blocks acc) = cur.2 + total_size blocks + total_size acc.
Proof.
  induction blocks as [|[[i2 j2] k2] blocks IH]; intros [[i1 j1] k1] acc;
    cbn [collapse].
  - destruct (0 <? k1) eqn:E.
    + rewrite total_size_snoc. change (total_size []) with 0. simpl. lia.
    + apply Nat.ltb_ge in E. change (total_size []) with 0. simpl. lia.
  - rewrite total_size_cons. cbn [snd].
    destruct ((i1 + k1 =? i2) && (j1 + k1 =? j2)); rewrite IH; cbn [snd]; [lia|].
    destruct (0 <? k1) eqn:E.
    + rewrite total_size_snoc. simpl. lia.
    + apply Nat.ltb_ge in E. lia.
Qed.

Lemma matches_bounded : matches a b ≤ length a ∧ matches a b ≤ length b.
Proof.
  unfold matches, get_matching_blocks.
  change (foldr Init.Nat.add 0 (map snd ?l)) with (total_size l).
  rewrite total_size_snoc, total_size_collapse, total_size_sort.
  destruct (matching_loop_room (2 * length a + 1) [(0, length a, 0, length b)] [])
    as [Ha Hb]; [repeat constructor; simpl; lia|].
  change (total_size []) with 0 in *. simpl in *. lia.
Qed.

Lemma ratio_range : (0 <= ratio a b)%Q ∧ (ratio a b <= 1)%Q.
Proof.
  destruct matches_bounded as [Ha Hb]. unfold ratio, calculate_ratio.
  destruct (length a + length b) as [|n] eqn:E; [done|].
  unfold Qle; cbn [Qnum Qden]. rewrite <- E. split; [lia|].
  rewrite Z.mul_1_r, Z.mul_1_l. lia.
Qed.

End Range01.

Section Disjoint.
Import Py Difflib.
Variables a b : str.
Hypothesis Hdisjoint : ∀ c, c ∈ a → c ∉ b.

Lemma b2j_lookup_elem (s : str) c l : b2j s !! c = Some l → c ∈ s.
Proof.
  intros Hl. pose proof (b2j_lookup_Some _ _ _ Hl) as ->.
  assert (Hall : b2j_all s !! c = Some (positions_from 0 c s)).
  { unfold b2j in Hl. destruct (200 <=? length s); [|done].
    by apply map_lookup_filter_Some in Hl as [? _]. }
  rewrite b2j_all_lookup in Hall. unfold appended in Hall.
  destruct (positions_from 0 c s) as [|j ps] eqn:E; [done|].
  assert (Hj : j ∈ positions_from 0 c s) by (rewrite E; left).
  apply elem_of_positions_from in Hj as [_ Hj]. by eapply list_elem_of_lookup_2.
Qed.

Lemma row_positions_disjoint i : row_positions a b i = [].
Proof.
  unfold row_positions. destruct (a !! i) as [c|] eqn:Ei; [|done].
  destruct (b2j b !! c) as [l|] eqn:El; [|done].
  apply b2j_lookup_elem in El. destruct (Hdisjoint c); [|done].
  by eapply list_elem_of_lookup_2.
Qed.

Lemma scan_rows_disjoint blo bhi rows : ∀ J best,
  scan_rows a b blo bhi rows J best = best.
Proof.
  induction rows as [|i rows IH]; intros J best; simpl; [done|].
  by rewrite row_positions_disjoint, IH.
Qed.

Lemma same_elt_disjoint i j : same_elt a b i j = false.
Proof.
  unfold same_elt. destruct (a !! i) as [x|] eqn:Ex; [|done].
  destruct (b !! j) as [y|] eqn:Ey; [|done].
  apply N.eqb_neq. intros ->. destruct (Hdisjoint y); by eapply list_elem_of_lookup_2.
Qed.

Lemma find_longest_match_disjoint alo ahi blo bhi :
  (find_longest_match a b alo ahi blo bhi).2 = 0.
Proof.
  unfold find_longest_match. rewrite extend_junk, scan_rows_disjoint.
  unfold extend. cbn [fst snd].
  assert (Hl : extend_left a b false alo blo alo blo 0 = (alo, blo, 0)).
  { destruct alo as [|alo'], blo as [|blo']; simpl; try done.
    by rewrite same_elt_disjoint, andb_false_r. }
  rewrite Hl. cbn [snd]. destruct (ahi - (alo + 0)); simpl; [done|].
  by rewrite same_elt_disjoint, andb_false_r.
Qed.

Lemma matches_disjoint : matches a b = 0.
Proof.
  unfold matches, get_matching_blocks.
  replace (2 * length a + 1) with (S (2 * length a)) by lia.
  cbn [matching_loop].
  pose proof (find_longest_match_disjoint 0 (length a) 0 (length b)) as Hk.
  destruct (find_longest_match a b 0 (length a) 0 (length b)) as [[i j] k].
  simpl in Hk. subst k. cbn [Nat.ltb Nat.leb]. rewrite matching_loop_done. done.
Qed.

Lemma ratio_disjoint : a ++ b ≠ [] → (ratio a b == 0)%Q.
Proof.
  intros Hne. unfold ratio. rewrite matches_disjoint.
  destruct (length a + length b) as [|n] eqn:E; [|done].
  destruct a, b; simpl in *; try lia. done.
Qed.

End Disjoint.

Section Similar.
Import Py Clean.
Context {U : UnicodeData}.

Lemma ratio_same (s : str) : (Difflib.ratio s s == 1)%Q.
Proof. destruct s as [|c s]; [done|]. by apply ratio_self. Qed.

(** X3.  Two entries whose titles have the same normal form and whose
    authors have the same normal form are similar, for all thresholds
    below 1; so with the default thresholds. *)
Theorem same_normal_form_is_similar (entry1 entry2 : entry)
    (title_threshold author_threshold : Q) :
  normalize_string (get_or_empty entry1 "title")
  = normalize_string (get_or_empty entry2 "title") →
  normalize_string (get_or_empty entry1 "author")
  = normalize_string (get_or_empty entry2 "author") →
  (title_threshold < 1)%Q → (author_threshold < 1)%Q →
  are_entries_similar entry1 entry2 title_threshold author_threshold = true.
Proof.
  intros Ht Ha Htt Hat.
  unfold are_entries_similar, are_entries_similar_traced, mbind, Traced_bind,
    mret, Traced_ret, calculate_similarity_traced, calculate_similarity.
  cbn [fst snd]. rewrite Ht, Ha.
  assert (Hgt : ∀ s t, (t < 1)%Q → Qgtb (Difflib.ratio s s) t = true).
  { intros s t Hlt. apply Qgtb_lt. by rewrite ratio_same. }
  rewrite Hgt by done. cbn [fst snd]. by apply Hgt.
Qed.

(** X4.  Lowering a threshold never turns a similar pair into a dissimilar
    one: [are_entries_similar] is monotone in its thresholds. *)
Theorem lower_thresholds_keep_similar (entry1 entry2 : entry)
    (title_low title_high author_low author_high : Q) :
  (title_low <= title_high)%Q → (author_low <= author_high)%Q →
  are_entries_similar entry1 entry2 title_high author_high = true →
  are_entries_similar entry1 entry2 title_low author_low = true.
Proof.
  intros Htt Hat.
  unfold are_entries_similar, are_entries_similar_traced, mbind, Traced_bind,
    mret, Traced_ret, calculate_similarity_traced.
  cbn [fst snd].
  set (ts := calculate_similarity _ _). set (asim := calculate_similarity _ _).
  destruct (Qgtb ts title_high) eqn:E1; cbn [fst snd]; [|done].
  intros E2. apply Qgtb_lt in E1, E2.
  replace (Qgtb ts title_low) with true
    by (symmetry; apply Qgtb_lt; by eapply Qle_lt_trans).
  cbn [fst snd]. apply Qgtb_lt. by eapply Qle_lt_trans.
Qed.

End Similar.

(** ** What the detector of [clean.py] returns *)

Section Verdicts.
Import Py Clean.
Context {U : UnicodeData}.
Implicit Types (st : state) (es : list entry).

Lemma outer_step_grows es st t x :
  x ∈ removed_entries st → x ∈ removed_entries (outer_step es st t).
Proof.
  intros Hx. unfold outer_step. case_bool_decide; [done|].
  apply (fold_left_Forall_inv (λ st, x ∈ removed_entries st) (λ _, True));
    [|by apply Forall_forall|done].
  intros a j _. apply inner_step_grows.
Qed.

Lemma inner_step_settled es t st jj :
  settled_inner es t jj st → settled_inner es t (S jj) (inner_step es t st jj).
Proof.
  intros [Hold Hnew]. split.
  - intros i j Hi Hj Hs. destruct (Hold i j Hi Hj Hs); [left|right];
      by apply inner_step_grows.
  - intros j Hj Hjn Hs. destruct (decide (j = jj)) as [->|Hne].
    + right. by apply inner_step_claims.
    + destruct (Hnew j ltac:(lia) Hjn Hs); [left|right]; by apply inner_step_grows.
Qed.

Lemma outer_step_settled es st t :
  settled es t st → settled es (S t) (outer_step es st t).
Proof.
  intros Hold.
  assert (Hskip : t ∈ removed_entries (outer_step es st t) →
                  settled es (S t) (outer_step es st t)).
  { intros Ht i j Hi Hj Hs. destruct (decide (i = t)) as [->|Hne]; [by left|].
    destruct (Hold i j ltac:(lia) Hj Hs); [left|right]; by apply outer_step_grows. }
  unfold outer_step in *. case_bool_decide as Hr; [by apply Hskip|].
  set (n := length es) in *.
  assert (Hin : settled_inner es t (t + 1 + (n - (t + 1)))
                  (fold_left (inner_step es t) (seq (t + 1) (n - (t + 1))) st)).
  { apply (fold_left_seq_inv (settled_inner es t) (inner_step es t)).
    - intros j a _. apply inner_step_settled.
    - split; [done|]. intros j Hj. lia. }
  destruct Hin as [Hold' Hnew]. intros i j Hi Hj Hs.
  destruct (decide (i = t)) as [->|Hne].
  - apply Hnew; [|lia|done]. fold n in Hj. lia.
  - apply Hold'; [lia|done..].
Qed.

Lemma run_settled es : settled es (length es) (run es []).
Proof.
  unfold run, similarity_pass.
  apply (fold_left_seq_inv (settled es) (outer_step es) (length es) 0).
  - intros i a _. apply outer_step_settled.
  - intros i j Hi. lia.
Qed.

Lemma inner_step_justified es t st jj :
  justified es st → justified es (inner_step es t st jj).
Proof.
  intros Hj. unfold inner_step. case_bool_decide; [done|].
  assert (Hj' : justified es (emit (Compared t jj) st)).
  { intros o d. unfold emit; simpl.
    rewrite elem_of_app, list_elem_of_singleton. intros [?|?]; [by apply Hj|done]. }
  destruct (similar_at es t jj) eqn:Hs; [|done].
  intros o d. unfold claim; simpl.
  rewrite elem_of_app, list_elem_of_singleton. intros [?|[= -> ->]]; [by apply Hj'|done].
Qed.

Lemma outer_step_justified es st t :
  justified es st → justified es (outer_step es st t).
Proof.
  intros Hj. unfold outer_step. case_bool_decide; [done|].
  apply (fold_left_Forall_inv (justified es) (λ _, True));
    [|by apply Forall_forall|done].
  intros a j _. apply inner_step_justified.
Qed.

Lemma run_justified es : justified es (run es []).
Proof.
  unfold run, similarity_pass.
  apply (fold_left_Forall_inv (justified es) (λ _, True));
    [|by apply Forall_forall|].
  - intros a j _. apply outer_step_justified.
  - intros o d. destruct (doi_pass_spec es) as [_ ->].
    by intros (od & [=] & _)%list_elem_of_fmap.
Qed.

Lemma similarity_pass_grows es st x :
  x ∈ removed_entries st → x ∈ removed_entries (similarity_pass es st).
Proof.
  intros Hx. unfold similarity_pass.
  apply (fold_left_Forall_inv (λ st, x ∈ removed_entries st) (λ _, True));
    [|by apply Forall_forall|done].
  intros a j _. apply outer_step_grows.
Qed.

Lemma doi_duplicate_removed es o d :
  (o, d) ∈ check_doi_duplicates es → d ∈ removed_entries (run es []).
Proof.
  intros Hin. unfold run. apply similarity_pass_grows.
  destruct (doi_pass_spec es) as [Hc Hlog].
  apply (consistent_removed _ _ Hc). rewrite Hlog, duplicates_of_logged.
  apply list_elem_of_fmap. by exists (o, d).
Qed.

(** Two positions that [run] leaves unremoved are not similar and are not
    filed under the same DOI. *)
Lemma kept_positions_distinct es i j :
  i < j < length es →
  i ∉ removed_entries (run es []) → j ∉ removed_entries (run es []) →
  similar_at es i j = false
  ∧ ∀ key, key_at es i = Some key → key_at es j ≠ Some key.
Proof.
  intros Hij Hi Hj. split.
  - destruct (similar_at es i j) eqn:Hs; [|done].
    destruct (run_settled es i j) as [?|?]; [lia|done|done|done|done].
  - intros key Hki Hkj.
    destruct (same_doi_matched es i j key) as (o & _ & _ & Hin); [lia|done..|].
    by apply Hj, (doi_duplicate_removed es o).
Qed.

Lemma filter_seq_increasing (P : nat → Prop) `{∀ x, Decision (P x)} n : ∀ k a b i j,
  filter P (seq k n) !! a = Some i → filter P (seq k n) !! b = Some j →
  a < b → i < j.
Proof.
  induction n as [|n IH]; intros k a b i j; simpl; [done|].
  rewrite filter_cons. case_decide; [|apply IH].
  destruct a as [|a], b as [|b]; simpl; try lia.
  - intros [= <-] Hb _.
    apply list_elem_of_lookup_2, list_elem_of_filter in Hb as [_ Hb%elem_of_seq]. lia.
  - intros Ha Hb Hab. apply (IH (S k) a b); [done..|lia].
Qed.

Lemma unique_ids_spec es st i :
  i ∈ unique_ids es st ↔ i < length es ∧ i ∉ removed_entries st.
Proof.
  unfold unique_ids. rewrite list_elem_of_filter, elem_of_seq.
  split; intros [? ?]; (split; [lia || done | lia || done]).
Qed.

Lemma unique_of_position es st a e :
  unique_of es st !! a = Some e →
  ∃ i, unique_ids es st !! a = Some i ∧ es !! i = Some e.
Proof.
  intros He. pose proof (unique_of_lookup es st) as Hl.
  destruct (Forall2_lookup_r _ _ _ _ _ Hl He) as (i & Hi & Hie). by exists i.
Qed.

Lemma unique_pair_positions es st a b ea eb :
  a < b → unique_of es st !! a = Some ea → unique_of es st !! b = Some eb →
  ∃ i j, i < j < length es ∧ es !! i = Some ea ∧ es !! j = Some eb
         ∧ (i ∉ removed_entries st) ∧ (j ∉ removed_entries st).
Proof.
  intros Hab (i & Hi & Hei)%unique_of_position (j & Hj & Hej)%unique_of_position.
  exists i, j.
  pose proof (filter_seq_increasing _ _ _ _ _ _ _ Hi Hj Hab) as Hlt.
  apply list_elem_of_lookup_2, unique_ids_spec in Hi as [? ?].
  apply list_elem_of_lookup_2, unique_ids_spec in Hj as [? ?].
  split_and!; [lia|done..].
Qed.

Lemma unique_entries_distinct es a b ea eb :
  let unique := unique_of es (run es []) in
  a < b → unique !! a = Some ea → unique !! b = Some eb →
  are_entries_similar ea eb title_threshold_default author_threshold_default = false
  ∧ ∀ key, doi_key ea = Some key → doi_key eb ≠ Some key.
Proof.
  intros unique Hab Ha Hb.
  destruct (unique_pair_positions _ _ _ _ _ _ Hab Ha Hb)
    as (i & j & Hij & Hi & Hj & Hri & Hrj).
  destruct (kept_positions_distinct es i j Hij Hri Hrj) as [Hs Hk].
  unfold similar_at, key_at in *. rewrite Hi, Hj in *. by split.
Qed.

(** *** A second run on the output *)

Lemma untouched_emit st e :
  (∀ o d m, e ≠ Logged o d m) → untouched st → untouched (emit e st).
Proof.
  intros He (Hr & Hc & Hd). unfold untouched, emit; simpl.
  rewrite duplicates_of_app, Hd. split_and!; [done..|].
  destruct e; [done|]. by destruct (He original duplicate m).
Qed.

Lemma inner_step_untouched es t st jj :
  similar_at es t jj = false → untouched st → untouched (inner_step es t st jj).
Proof.
  intros Hs Hu. unfold inner_step. case_bool_decide; [done|]. rewrite Hs.
  by apply untouched_emit.
Qed.

Lemma outer_step_untouched es st t :
  (∀ j, t < j < length es → similar_at es t j = false) →
  untouched st → untouched (outer_step es st t).
Proof.
  intros Hs Hu. unfold outer_step. case_bool_decide; [done|].
  apply (fold_left_Forall_inv untouched (λ j, t < j < length es)); [| |done].
  - intros a j Hj. apply inner_step_untouched. by apply Hs.
  - apply Forall_forall. intros j Hj%elem_of_seq. lia.
Qed.

Lemma filter_all {A} (P : A → Prop) `{∀ x, Decision (P x)} (l : list A) :
  Forall P l → filter P l = l.
Proof.
  induction 1 as [|x r Hx Hr IH]; [done|].
  rewrite filter_cons, decide_True by done. by rewrite IH.
Qed.

Lemma imap_pair_snd es : (imap pair es).*2 = es.
Proof.
  rewrite fmap_imap.
  change (λ n : nat, snd ∘ pair n) with (λ (n : nat) (e : entry), e).
  rewrite (imap_const id). apply list_fmap_id.
Qed.

Lemma unique_of_untouched es st : removed_entries st = ∅ → unique_of es st = es.
Proof.
  intros Hr. unfold unique_of. rewrite Hr, filter_all; [apply imap_pair_snd|].
  apply Forall_forall. intros ie _. set_solver.
Qed.

Lemma run_untouched es :
  (∀ i j, i < j < length es → similar_at es i j = false) →
  (∀ i j key, i < j < length es → key_at es i = Some key → key_at es j ≠ Some key) →
  untouched (run es []).
Proof.
  intros Hs Hk. unfold run.
  assert (Hnone : check_doi_duplicates es = []).
  { destruct (check_doi_duplicates es) as [|[o d] l] eqn:E; [done|].
    assert (Hin : (o, d) ∈ check_doi_duplicates es) by (rewrite E; left).
    apply check_doi_duplicates_first_seen in Hin as (Hd & Hod & key & Hkd & [Hko _]).
    by destruct (Hk o d key). }
  unfold doi_pass. rewrite Hnone. simpl. unfold similarity_pass.
  apply (fold_left_Forall_inv untouched (λ t, True)); [|by apply Forall_forall|done].
  intros a t _. apply outer_step_untouched. intros j Hj. by apply Hs.
Qed.

Lemma rerun_untouched es :
  let unique := unique_of es (run es []) in
  untouched (run unique []).
Proof.
  intros unique. apply run_untouched.
  - intros a b Hab. unfold similar_at.
    destruct (unique !! a) as [ea|] eqn:Ea; [|done].
    destruct (unique !! b) as [eb|] eqn:Eb; [|done].
    apply (unique_entries_distinct es a b ea eb); [lia|done..].
  - intros a b key Hab. unfold key_at.
    destruct (unique !! a) as [ea|] eqn:Ea; [|done].
    destruct (unique !! b) as [eb|] eqn:Eb; [|done]. simpl.
    apply (unique_entries_distinct es a b ea eb); [lia|done..].
Qed.

(** *** Order of the output *)

Lemma unique_of_sublist es st : unique_of es st `sublist_of` es.
Proof.
  unfold unique_of.
  rewrite <- (imap_pair_snd es) at 2. apply fmap_sublist, sublist_filter.
Qed.

Lemma removed_positive es d : d ∈ removed_entries (run es []) → 0 < d.
Proof.
  destruct (run_similarity_consistent es) as (Hc & Hta & Hdoi).
  intros (o & m & Hin)%(consistent_removed _ _ Hc)%elem_of_duplicates_of.
  destruct m.
  - apply Hdoi, check_doi_duplicates_spec in Hin. lia.
  - apply Hta in Hin. lia.
Qed.

Lemma first_kept e es :
  head (unique_of (e :: es) (run (e :: es) [])) = Some e.
Proof.
  unfold unique_of. rewrite imap_cons, filter_cons. simpl.
  case_decide as Hr; [done|]. apply removed_positive in Hr. lia.
Qed.

End Verdicts.

(** ** [process_files] of [clean_mf.py] *)

Section Merge.
Import Py CleanMf.
Context {U : UnicodeData}.
Implicit Types (e u : entry) (us : list entry).

Lemma fold_left_prefix_inv {A B} (P : list B → A → Prop) (f : A → B → A) xs a0 :
  P [] a0 →
  (∀ pre x suf a, xs = pre ++ x :: suf → P pre a → P (pre ++ [x]) (f a x)) →
  P xs (fold_left f xs a0).
Proof.
  intros H0 Hstep.
  enough (Hgen : ∀ rest pre a, xs = pre ++ rest → P pre a →
                   P (pre ++ rest) (fold_left f rest a)) by by apply (Hgen xs []).
  induction rest as [|x rest IH]; intros pre a Hxs Ha; simpl.
  - by rewrite app_nil_r.
  - rewrite (cons_middle x pre rest), app_assoc. apply IH.
    + by rewrite <- app_assoc.
    + by eapply Hstep.
Qed.

Lemma are_duplicates_sym e1 e2 : are_duplicates e1 e2 = are_duplicates e2 e1.
Proof.
  unfold are_duplicates.
  destruct (get_truthy e1 "doi") as [d1|], (get_truthy e2 "doi") as [d2|];
    rewrite ?(bool_decide_ext (strip d1 = strip d2) (strip d2 = strip d1)) by done;
    try destruct (bool_decide (strip d2 = strip d1)); try done;
    set (t1 := normalize_text _); set (t2 := normalize_text _);
    rewrite (bool_decide_ext (t1 = t2) (t2 = t1)) by done;
    by destruct (truthy t1), (truthy t2).
Qed.

Lemma find_original_snoc e us x :
  find_original e (us ++ [x])
  = match find_original e us with
    | Some u => Some u
    | None => if are_duplicates e x then Some x else None
    end.
Proof.
  induction us as [|u us IH]; simpl; [done|]. by destruct (are_duplicates e u).
Qed.

Lemma find_original_app e us vs u :
  find_original e us = Some u → find_original e (us ++ vs) = Some u.
Proof.
  induction us as [|u' us IH]; simpl; [done|]. by destruct (are_duplicates e u').
Qed.

Lemma find_original_None e us :
  find_original e us = None ↔ Forall (λ u, are_duplicates e u = false) us.
Proof.
  induction us as [|u us IH]; simpl; [done|].
  rewrite Forall_cons. destruct (are_duplicates e u); [|tauto].
  split; [done|]. by intros [? _].
Qed.

Lemma find_original_Some e us u :
  find_original e us = Some u → u ∈ us ∧ are_duplicates e u = true.
Proof.
  induction us as [|u' us IH]; simpl; [done|].
  destruct (are_duplicates e u') eqn:E.
  - intros [= <-]. split; [left|done].
  - intros [? ?]%IH. split; [by right|done].
Qed.

Lemma process_step_processed seen st e :
  processed seen st → processed (seen ++ [e]) (process_step st e).
Proof.
  destruct st as [us ds]. intros [Hperm Hsub Hhead Horig Hdist].
  unfold process_step. cbn [fst snd] in *.
  destruct (find_original e us) as [u|] eqn:Ef; split; cbn [fst snd].
  - rewrite fmap_app, app_assoc, Hperm. done.
  - by apply sublist_inserts_r.
  - destruct (find_original_Some _ _ _ Ef) as [Hu _].
    destruct us as [|x l]; [by apply elem_of_nil in Hu|].
    by destruct seen.
  - intros u' e'. rewrite elem_of_app, list_elem_of_singleton.
    intros [?|[= -> ->]]; [by apply Horig|done].
  - done.
  - rewrite <- Hperm, <- !app_assoc. apply Permutation_app_head.
    apply Permutation_app_comm.
  - by apply sublist_app.
  - destruct us as [|x l]; [|by destruct seen].
    destruct ds as [|[u' e'] l2]; [|by specialize (Horig u' e' ltac:(left))].
    simpl in Hperm. by apply Permutation_nil_l in Hperm as <-.
  - intros u' e' Hin. by apply find_original_app, Horig.
  - intros a b ea eb Hab Ha Hb.
    destruct (decide (b < length us)) as [Hlt|Hge].
    + rewrite lookup_app_l in Ha, Hb by lia. by apply (Hdist a b).
    + pose proof (lookup_lt_Some _ _ _ Hb) as Hb'. rewrite length_app in Hb'.
      simpl in Hb'. assert (b = length us) as -> by lia.
      rewrite lookup_app_l in Ha by lia.
      rewrite list_lookup_middle in Hb by done. injection Hb as <-.
      apply find_original_None in Ef. eapply Forall_forall in Ef; [done|].
      by eapply list_elem_of_lookup_2.
Qed.

Lemma process_files_processed files :
  processed (concat files) (process_files files).
Proof.
  unfold process_files.
  apply (fold_left_prefix_inv processed process_step).
  - split; simpl; [done..|by intros ?? ?%elem_of_nil|by intros].
  - intros pre x suf a _. apply process_step_processed.
Qed.

Lemma process_unique us :
  (∀ a b ea eb, a < b → us !! a = Some ea → us !! b = Some eb →
     are_duplicates eb ea = false) →
  process_files [us] = (us, []).
Proof.
  intros Hdist. unfold process_files. simpl. rewrite app_nil_r.
  apply (fold_left_prefix_inv (λ pre st, st = (pre, [])) process_step); [done|].
  intros pre x suf st Hus ->. unfold process_step. cbn [fst snd].
  replace (find_original x pre) with (@None entry); [done|].
  symmetry. apply find_original_None, Forall_forall.
  intros u (a & Ha)%list_elem_of_lookup_1.
  apply (Hdist a (length pre) u x).
  - by eapply lookup_lt_Some.
  - rewrite Hus. rewrite lookup_app_l; [done | by eapply lookup_lt_Some].
  - rewrite Hus. by rewrite list_lookup_middle.
Qed.

End Merge.

(** ** First occurrences of comparison keys *)

Ltac membership :=
  rewrite ?elem_of_cons, ?elem_of_union, ?elem_of_singleton, ?elem_of_nil,
    ?elem_of_empty in *;
  intuition congruence.

Lemma elem_of_flat_map {A B : Type} (f : A → list B) (l : list A) (y : B) :
  y ∈ flat_map f l ↔ ∃ x, x ∈ l ∧ y ∈ f x.
Proof.
  rewrite list_elem_of_In, in_flat_map. split; intros (x & Hx & Hy); exists x.
  - by rewrite !list_elem_of_In.
  - by rewrite <- !list_elem_of_In.
Qed.

Lemma elem_of_concat {A : Type} (ls : list (list A)) (x : A) :
  x ∈ concat ls ↔ ∃ l, l ∈ ls ∧ x ∈ l.
Proof.
  rewrite list_elem_of_In, in_concat. split; intros (l & Hl & Hx); exists l.
  - by rewrite !list_elem_of_In.
  - by rewrite <- !list_elem_of_In.
Qed.

Lemma NoDup_fst_unique {A B : Type} (l : list (A * B)) k y1 y2 :
  NoDup l.*1 → (k, y1) ∈ l → (k, y2) ∈ l → y1 = y2.
Proof.
  induction l as [|[k' y] l IH]; csimpl; [by intros _ ?%elem_of_nil|].
  intros [Hk Hnd]%NoDup_cons H1%elem_of_cons H2%elem_of_cons.
  destruct H1 as [[= <- <-]|H1]; destruct H2 as [Heq|H2].
  - by injection Heq.
  - destruct Hk. apply list_elem_of_fmap. by exists (k, y2).
  - injection Heq as <- <-. destruct Hk. apply list_elem_of_fmap. by exists (k, y1).
  - by apply IH.
Qed.

Section FirstSeen.
Import Py Keyed.
Context {A : Type}.
Implicit Types (items pre : list (str * A)) (seen : gset str).

Lemma first_seen_snoc pre : ∀ seen kx,
  first_seen seen (pre ++ [kx])
  = first_seen seen pre
    ++ (if decide (kx.1 ∈ seen ∨ kx.1 ∈ pre.*1) then [] else [kx]).
Proof.
  induction pre as [|ky pre IH]; intros seen kx; simpl.
  - repeat case_decide; try done; exfalso; membership.
  - destruct (decide (ky.1 ∈ seen)) as [Hy|Hy]; rewrite IH; simpl;
      repeat case_decide; try done; exfalso; membership.
Qed.

Lemma first_seen_keys items : ∀ seen k,
  k ∈ (first_seen seen items).*1 ↔ k ∈ items.*1 ∧ k ∉ seen.
Proof.
  induction items as [|ky items IH]; intros seen k; simpl.
  - rewrite elem_of_nil. tauto.
  - destruct (decide (ky.1 ∈ seen)) as [Hy|Hy]; simpl.
    + rewrite IH, elem_of_cons. split; [tauto|]. intros [[->|?] ?]; [done|tauto].
    + rewrite !elem_of_cons, IH. split.
      * intros [->|[? ?]]; [tauto|]. split; [tauto|]. set_solver.
      * intros [[->|?] ?]; [tauto|]. destruct (decide (k = ky.1)); [tauto|].
        right. split; [done|]. set_solver.
Qed.

Lemma first_seen_NoDup items : ∀ seen, NoDup (first_seen seen items).*1.
Proof.
  induction items as [|ky items IH]; intros seen; simpl; [constructor|].
  destruct (decide (ky.1 ∈ seen)); simpl; [apply IH|].
  constructor; [|apply IH]. rewrite first_seen_keys. set_solver.
Qed.

Lemma first_seen_sublist items : ∀ seen, first_seen seen items `sublist_of` items.
Proof.
  induction items as [|ky items IH]; intros seen; simpl; [done|].
  destruct (decide (ky.1 ∈ seen)); [by apply sublist_cons | by apply sublist_skip].
Qed.

Lemma first_seen_elem items : ∀ seen kx,
  kx ∈ first_seen seen items
  ↔ ∃ pre suf, items = pre ++ kx :: suf ∧ (kx.1 ∉ pre.*1) ∧ (kx.1 ∉ seen).
Proof.
  induction items as [|ky items IH]; intros seen kx; simpl.
  - rewrite elem_of_nil. split; [done|]. intros (pre & suf & Heq & _).
    by destruct pre.
  - destruct (decide (ky.1 ∈ seen)) as [Hy|Hy].
    + rewrite IH. split.
      * intros (pre & suf & -> & Hp & Hs). exists (ky :: pre), suf.
        split_and!; [done| |done]. simpl. membership.
      * intros (pre & suf & Heq & Hp & Hs). destruct pre as [|kz pre];
          simpl in Heq; injection Heq as -> ->; [done|].
        exists pre, suf. simpl in Hp. split_and!; [done| |done]. membership.
    + rewrite elem_of_cons, IH. split.
      * intros [->|(pre & suf & -> & Hp & Hs)].
        -- exists [], items. split_and!; [done| |done]. simpl. apply not_elem_of_nil.
        -- exists (ky :: pre), suf. simpl. split_and!; [done|membership..].
      * intros (pre & suf & Heq & Hp & Hs). destruct pre as [|kz pre];
          simpl in Heq; injection Heq as -> ->; [by left|].
        right. exists pre, suf. simpl in Hp. split_and!; [done|membership..].
Qed.

End FirstSeen.

Section KeyedPositions.
Import Py Keyed.
Context {A : Type}.
Variables (key : A → str) (rows : list A).

#[local] Abbreviation items := (imap (λ i r, (key r, (i, r))) rows).
#[local] Abbreviation keys := (key <$> rows).

Lemma items_lookup i kx :
  items !! i = Some kx ↔ ∃ r, rows !! i = Some r ∧ kx = (key r, (i, r)).
Proof.
  rewrite list_lookup_imap. destruct (rows !! i) as [r|]; simpl; split.
  - intros [= <-]. by exists r.
  - by intros (r' & [= <-] & ->).
  - done.
  - by intros (r' & ? & _).
Qed.

Lemma items_split pre kx suf :
  items = pre ++ kx :: suf →
  ∃ r, rows !! length pre = Some r ∧ kx = (key r, (length pre, r)).
Proof.
  intros Heq. apply items_lookup. rewrite Heq. by apply list_lookup_middle.
Qed.

Lemma items_elem kx :
  kx ∈ items ↔ ∃ r, rows !! kx.2.1 = Some r ∧ kx = (key r, (kx.2.1, r)).
Proof.
  rewrite list_elem_of_lookup. split.
  - intros (i & (r & Hr & ->)%items_lookup). by exists r.
  - intros (r & Hr & Hkx). exists kx.2.1. apply items_lookup. by exists r.
Qed.

Lemma items_positions : items.*2.*1 = seq 0 (length rows).
Proof.
  rewrite !fmap_imap.
  change (λ n : nat, fst ∘ (snd ∘ (λ r : A, (key r, (n, r)))))
    with (λ (n : nat) (_ : A), id n).
  by rewrite imap_seq_0, list_fmap_id.
Qed.

Lemma items_rows : items.*2 = imap pair rows.
Proof. by rewrite fmap_imap. Qed.

Lemma items_keys : items.*1 = keys.
Proof.
  rewrite fmap_imap.
  change (λ n : nat, fst ∘ (λ r : A, (key r, (n, r)))) with (λ (_ : nat), key).
  apply imap_const.
Qed.

Lemma keys_prefix pre kx suf k :
  items = pre ++ kx :: suf →
  k ∈ pre.*1 ↔ ∃ u, u < length pre ∧ keys !! u = Some k.
Proof.
  intros Heq. rewrite <- items_keys, Heq, fmap_app. rewrite list_elem_of_lookup.
  split.
  - intros (u & Hu). exists u. pose proof (lookup_lt_Some _ _ _ Hu) as Hlt.
    rewrite length_fmap in Hlt. split; [done|]. rewrite lookup_app_l; [done|].
    by rewrite length_fmap.
  - intros (u & Hu & Hk). exists u. rewrite lookup_app_l in Hk; [done|].
    by rewrite length_fmap.
Qed.

(** The items [first_seen] keeps are the rows at the first position of
    their key. *)
Lemma first_seen_first i r :
  (key r, (i, r)) ∈ first_seen ∅ items ↔ rows !! i = Some r ∧ first_of keys i i.
Proof.
  rewrite first_seen_elem. split.
  - intros (pre & suf & Heq & Hp & _).
    destruct (items_split _ _ _ Heq) as (r' & Hr & [= _ -> <-]).
    split; [done|]. split_and!; [done..| |].
    + rewrite length_fmap. by eapply lookup_lt_Some.
    + intros u Hu Hk. apply Hp. simpl. apply (keys_prefix _ _ _ _ Heq).
      exists u. split; [done|]. by rewrite Hk, list_lookup_fmap, Hr.
  - intros (Hr & _ & _ & _ & Hfirst).
    assert (Hi : items !! i = Some (key r, (i, r))) by (apply items_lookup; by exists r).
    pose proof (take_drop_middle _ _ _ Hi) as Heq. symmetry in Heq.
    exists (take i items), (drop (S i) items). split_and!; [done| |set_solver].
    simpl. intros (u & Hu & Hk)%(keys_prefix _ _ _ _ Heq).
    rewrite length_take in Hu. apply (Hfirst u); [lia|].
    by rewrite Hk, list_lookup_fmap, Hr.
Qed.

Lemma first_seen_kept ir :
  ir ∈ (first_seen ∅ items).*2 ↔ rows !! ir.1 = Some ir.2 ∧ first_of keys ir.1 ir.1.
Proof.
  destruct ir as [i r]. rewrite <- first_seen_first. rewrite list_elem_of_fmap. split.
  - intros ([k ir'] & [= <-] & Hin). 
    pose proof (elem_of_sublist _ _ _ Hin (first_seen_sublist _ _)) as Hit.
    apply items_elem in Hit as (r' & _ & [= -> ->]). done.
  - intros Hin. by exists (key r, (i, r)).
Qed.

Lemma first_of_unique o o' d : first_of keys o d → first_of keys o' d → o = o'.
Proof.
  intros (Hod & Hk & _ & Hf) (Hod' & Hk' & _ & Hf').
  destruct (Nat.lt_trichotomy o o') as [Hlt|[->|Hlt]]; [|done|].
  - destruct (Hf' o Hlt). congruence.
  - destruct (Hf o' Hlt). congruence.
Qed.

(** A first-occurrence deduplication from its ingredients: the rows kept
    are those of [first_seen], the count is the number of pairs, kept and
    duplicate positions are all positions, and every pair goes from a
    first position to a later position with the same key. *)
Lemma deduplicated_intro all_data found pairs :
  all_data = (first_seen ∅ items).*2 →
  found = length pairs →
  all_data.*1 ++ pairs.*2 ≡ₚ seq 0 (length rows) →
  (∀ o d, (o, d) ∈ pairs → o < d ∧ first_of keys o d) →
  deduplicated keys rows all_data found pairs.
Proof.
  intros -> -> Hperm Hsound.
  assert (Hkept : ∀ i r, (i, r) ∈ (first_seen ∅ items).*2
                         ↔ rows !! i = Some r ∧ first_of keys i i).
  { intros i r. apply (first_seen_kept (i, r)). }
  split; [ |done|done| |done|].
  - rewrite <- items_rows. apply fmap_sublist, first_seen_sublist.
  - apply Permutation_length in Hperm.
    rewrite length_app, !length_fmap, length_seq in Hperm.
    by rewrite length_fmap.
  - intros o d. split; [apply Hsound|]. intros (Hod & Hfirst).
    assert (Hd : d ∈ seq 0 (length rows)).
    { apply elem_of_seq. destruct Hfirst as (_ & _ & Hd & _).
      rewrite length_fmap in Hd. lia. }
    rewrite <- Hperm in Hd. apply elem_of_app in Hd as [Hd|Hd].
    + apply list_elem_of_fmap in Hd as ([d' r] & -> & (_ & _ & _ & _ & Hf)%Hkept).
      simpl in *. destruct Hfirst as (_ & Hk & _). by destruct (Hf o Hod).
    + apply list_elem_of_fmap in Hd as ([o' d'] & -> & Hin). simpl.
      destruct (Hsound _ _ Hin) as [_ Hfirst'].
      by rewrite (first_of_unique _ _ _ Hfirst Hfirst').
Qed.

End KeyedPositions.

(** ** [deduplicate_entries] of [clean_xlsx.py] *)

Section Xlsx.
Import Py Keyed.
Context {U : UnicodeData}.
Variable cols : list string.
Variables (rows : list CleanXlsx.row) (file0 : list (nat * nat)).
Hypothesis Hsource : Forall (λ r : CleanXlsx.row, is_Some (r !! "source_file")) rows.

#[local] Abbreviation gck := (CleanXlsx.generate_comparison_key cols).
#[local] Abbreviation keyed := (λ ir : nat * CleanXlsx.row, (gck ir.2, ir)).

Lemma keyed_items (l : list CleanXlsx.row) :
  keyed <$> imap pair l = imap (λ i r, (gck r, (i, r))) l.
Proof. by rewrite fmap_imap. Qed.

Lemma row_step_reading pre ir suf ost :
  imap pair rows = pre ++ ir :: suf →
  CleanXlsx.reading cols rows file0 pre ost →
  CleanXlsx.reading cols rows file0 (pre ++ [ir])
    (ost ≫= λ st, CleanXlsx.row_step cols st ir).
Proof.
  intros Hsplit (st & pairs & Hkeyed). cbv zeta in Hkeyed.
  destruct Hkeyed as (-> & Hdata & Hnone & Hsome & Hfound & Hfile & Hperm & Hpairs).
  simpl. unfold CleanXlsx.row_step.
  assert (Hitems : imap (λ i r, (gck r, (i, r))) rows
                   = (keyed <$> pre) ++ keyed ir :: (keyed <$> suf)).
  { by rewrite <- keyed_items, Hsplit, fmap_app. }
  destruct ir as [d rd].
  destruct (items_split gck rows _ _ _ Hitems) as (r & Hrd & Hir).
  rewrite length_fmap in Hrd, Hir. simpl in Hir. injection Hir as _ -> <-.
  simpl.
  destruct (CleanXlsx.unique_entries st !! gck rd) as [[o ro]|] eqn:Hlook.
  - pose proof (Hsome _ _ Hlook) as Hin.
    assert (Hseen : gck rd ∈ (keyed <$> pre).*1).
    { apply list_elem_of_fmap. exists (gck rd, (o, ro)). split; [done|].
      eapply elem_of_sublist; [done | apply first_seen_sublist]. }
    apply first_seen_elem in Hin as (p1 & s1 & Hpre & Hp1 & _).
    rewrite Hpre, <- app_assoc in Hitems. simpl in Hitems.
    destruct (items_split gck rows _ _ _ Hitems) as (ro' & Hro & [= Hko -> <-]).
    assert (Hlen : length p1 < length pre).
    { rewrite <- (length_fmap keyed pre), Hpre, length_app. simpl. lia. }
    assert (Hro_src : is_Some (ro !! "source_file")).
    { eapply Forall_forall in Hsource; [done|]. by eapply list_elem_of_lookup_2. }
    assert (Hrd_src : is_Some (rd !! "source_file")).
    { eapply Forall_forall in Hsource; [done|]. by eapply list_elem_of_lookup_2. }
    simpl. rewrite !bool_decide_eq_true_2 by done. simpl.
    exists (CleanXlsx.State (CleanXlsx.all_data st) (CleanXlsx.unique_entries st)
              (CleanXlsx.duplicates_found st + 1)
              (CleanXlsx.duplicate_file st ++ [(length p1, length pre)])),
           (pairs ++ [(length p1, length pre)]).
    cbv zeta. simpl. rewrite (fmap_app _ pre [_]). simpl. rewrite first_seen_snoc. simpl.
    rewrite decide_True by (by right). rewrite app_nil_r.
    split_and!; [done|done| | | | | |].
    + intros k. rewrite Hnone, fmap_app. simpl. rewrite not_elem_of_app.
      split; [|tauto]. intros Hk'. split; [done|].
      apply not_elem_of_cons. split; [|apply not_elem_of_nil]. by intros ->.
    + done.
    + rewrite length_app. simpl. lia.
    + by rewrite Hfile, app_assoc.
    + rewrite !fmap_app, app_assoc, Hperm. done.
    + intros o' d'. rewrite elem_of_app, list_elem_of_singleton.
      intros [?|[= -> ->]]; [by apply Hpairs|]. split; [done|].
      split_and!; [lia| | |].
      * by rewrite !list_lookup_fmap, Hro, Hrd; simpl; rewrite Hko.
      * rewrite length_fmap. by eapply lookup_lt_Some.
      * intros u Hu Hku. apply Hp1. apply (keys_prefix gck rows _ _ _ _ Hitems).
        exists u. split; [done|]. rewrite Hku, list_lookup_fmap, Hro. simpl.
        by rewrite Hko.
  - assert (Hnew : gck rd ∉ (keyed <$> pre).*1) by by apply Hnone.
    exists (CleanXlsx.State (CleanXlsx.all_data st ++ [(length pre, rd)])
              (<[gck rd := (length pre, rd)]> (CleanXlsx.unique_entries st))
              (CleanXlsx.duplicates_found st) (CleanXlsx.duplicate_file st)),
           pairs.
    cbv zeta. simpl. rewrite (fmap_app _ pre [_]). simpl. rewrite first_seen_snoc. simpl.
    rewrite decide_False by (intros [?%elem_of_empty|?]; done).
    split_and!; [done| | | |done|done| |done].
    + by rewrite fmap_app, Hdata.
    + intros k. rewrite fmap_app, not_elem_of_app. simpl.
      rewrite lookup_insert. case_decide as Hk'.
      * subst k. split; [done|]. intros [_ Hk']. destruct Hk'. left.
      * rewrite Hnone. split; [|tauto]. intros ?. split; [done|].
        apply not_elem_of_cons. split; [by intros ->|apply not_elem_of_nil].
    + intros k ir. rewrite lookup_insert. case_decide as Hk'.
      * intros [= <-]. subst k. apply elem_of_app. right. left.
      * intros Hl. apply elem_of_app. left. by apply Hsome.
    + rewrite !fmap_app. simpl. rewrite <- Hperm, <- !app_assoc.
      apply Permutation_app_head, Permutation_app_comm.
Qed.

Lemma deduplicate_rows_reading :
  CleanXlsx.reading cols rows file0 (imap pair rows)
    (CleanXlsx.deduplicate_rows cols rows file0).
Proof.
  unfold CleanXlsx.deduplicate_rows.
  apply (fold_left_prefix_inv (CleanXlsx.reading cols rows file0)).
  - exists (CleanXlsx.State [] ∅ 0 file0), []. cbv zeta. simpl.
    split_and!; try done.
    + intros k. rewrite lookup_empty. split; [intros _; apply not_elem_of_nil|done].
    + by rewrite app_nil_r.
    + by intros ?? ?%elem_of_nil.
  - intros pre x suf a. apply row_step_reading.
Qed.

Lemma deduplicate_rows_deduplicated :
  ∃ st pairs,
    CleanXlsx.deduplicate_rows cols rows file0 = Some st
    ∧ CleanXlsx.duplicate_file st = file0 ++ pairs
    ∧ CleanXlsx.all_data st
      = (first_seen ∅ (CleanXlsx.all_entries_with_keys cols rows)).*2
    ∧ deduplicated (gck <$> rows) rows
        (CleanXlsx.all_data st) (CleanXlsx.duplicates_found st) pairs.
Proof.
  destruct deduplicate_rows_reading as (st & pairs & Hkeyed). cbv zeta in Hkeyed.
  destruct Hkeyed as (Hst & Hdata & _ & _ & Hfound & Hfile & Hperm & Hpairs).
  rewrite keyed_items in Hdata.
  exists st, pairs. split_and!; [done..|].
  apply (deduplicated_intro gck); [done..| |done].
  rewrite Hperm, <- (items_rows gck), (items_positions gck). done.
Qed.

End Xlsx.

(** ** [deduplicate_entries] of [clean_csv.py] *)

Section Groups.
Import Py Keyed.
Context {A : Type}.
Implicit Types (x : str * A) (G : list (str * list (str * A))).

Lemma group_add_keys k x G :
  (CleanCsv.group_add k x G).*1 = G.*1 ++ (if decide (k ∈ G.*1) then [] else [k]).
Proof.
  induction G as [|[k' xs] G IH]; csimpl.
  - repeat case_decide; try done; exfalso; membership.
  - case_bool_decide as Hk; csimpl.
    + subst k'. rewrite decide_True by left. by rewrite app_nil_r.
    + rewrite IH. f_equal. repeat case_decide; try done; exfalso; membership.
Qed.

Lemma group_add_heads k x G :
  Forall (λ g, g.2 ≠ []) G →
  heads (CleanCsv.group_add k x G)
  = heads G ++ (if decide (k ∈ G.*1) then [] else [x]).
Proof.
  unfold heads. induction 1 as [|[k' xs] G Hne _ IH]; csimpl.
  - repeat case_decide; try done; exfalso; membership.
  - csimpl in Hne. case_bool_decide as Hk; csimpl.
    + subst k'. rewrite decide_True by left. rewrite app_nil_r.
      by destruct xs.
    + rewrite IH, <- app_assoc. do 2 f_equal.
      repeat case_decide; try done; exfalso; membership.
Qed.

Lemma group_add_nonempty k x G :
  Forall (λ g, g.2 ≠ []) G → Forall (λ g, g.2 ≠ []) (CleanCsv.group_add k x G).
Proof.
  induction 1 as [|[k' xs] G Hne HG IH]; csimpl.
  - by repeat constructor.
  - case_bool_decide; constructor; csimpl; try done. by destruct xs.
Qed.

Lemma group_add_perm k x G :
  concat (CleanCsv.group_add k x G).*2 ≡ₚ concat G.*2 ++ [x].
Proof.
  induction G as [|[k' xs] G IH]; csimpl; [done|].
  case_bool_decide; csimpl.
  - rewrite <- !app_assoc. apply Permutation_app_head, Permutation_app_comm.
  - by rewrite IH, app_assoc.
Qed.

Lemma group_add_key x G :
  Forall (λ g, Forall (λ it, it.1 = g.1) g.2) G →
  Forall (λ g, Forall (λ it, it.1 = g.1) g.2) (CleanCsv.group_add x.1 x G).
Proof.
  induction 1 as [|[k' xs] G Hk HG IH]; csimpl.
  - by repeat constructor.
  - case_bool_decide as Heq; constructor; csimpl in *; try done.
    apply Forall_app. split; [done|]. by repeat constructor.
Qed.

Lemma group_add_sub k x G pre :
  Forall (λ g, g.2 `sublist_of` pre) G →
  Forall (λ g, g.2 `sublist_of` pre ++ [x]) (CleanCsv.group_add k x G).
Proof.
  induction 1 as [|[k' xs] G Hs HG IH]; csimpl.
  - repeat constructor. csimpl. apply sublist_inserts_l. done.
  - csimpl in Hs. case_bool_decide; constructor; csimpl.
    + by apply sublist_app.
    + eapply Forall_impl; [done|]. intros g Hg. by apply sublist_inserts_r.
    + by apply sublist_inserts_r.
    + done.
Qed.

Lemma group_add_grouped pre x G :
  grouped pre G → grouped (pre ++ [x]) (CleanCsv.group_add x.1 x G).
Proof.
  intros [Hkeys Hheads Hne Hperm Hkey Hsub].
  assert (Hin : x.1 ∈ G.*1 ↔ x.1 ∈ (∅ : gset str) ∨ x.1 ∈ pre.*1).
  { rewrite Hkeys, first_seen_keys. set_solver. }
  split.
  - rewrite group_add_keys, first_seen_snoc, fmap_app, Hkeys. f_equal.
    rewrite <- Hkeys. repeat case_decide; try done; tauto.
  - rewrite group_add_heads, first_seen_snoc, Hheads by done. f_equal.
    repeat case_decide; try done; tauto.
  - by apply group_add_nonempty.
  - by rewrite group_add_perm, Hperm.
  - by apply group_add_key.
  - by apply group_add_sub.
Qed.

Lemma group_by_grouped (items : list (str * A)) :
  grouped items (CleanCsv.group_by fst items).
Proof.
  unfold CleanCsv.group_by.
  apply (fold_left_prefix_inv grouped).
  - by split.
  - intros pre x suf G _. apply group_add_grouped.
Qed.

End Groups.

Section Csv.
Import Py Keyed.
Context {U : UnicodeData}.
Variable cols : list string.
Implicit Types (G : list (str * list (str * (nat * CleanCsv.row)))) (st : CleanCsv.state).

#[local] Abbreviation csv_key := (CleanCsv.generate_comparison_key cols).

Lemma fold_group_step G : ∀ st,
  Forall (λ g, g.2 ≠ []) G →
  let st' := fold_left CleanCsv.group_step G st in
  CleanCsv.all_data st' = CleanCsv.all_data st ++ (heads G).*2
  ∧ CleanCsv.duplicates_found st'
    = CleanCsv.duplicates_found st + length (flat_map (λ g, group_pairs g.2) G)
  ∧ CleanCsv.duplicate_file st'
    = CleanCsv.duplicate_file st ++ flat_map (λ g, group_pairs g.2) G.
Proof.
  induction G as [|[k g] G IH]; intros st HG; cbv zeta; simpl.
  - by rewrite !app_nil_r, Nat.add_0_r.
  - apply Forall_cons in HG as [Hg HG]. simpl in Hg.
    destruct g as [|first others]; [done|].
    destruct (IH (CleanCsv.group_step st (k, first :: others)) HG) as (Hd & Hf & Hl).
    cbv zeta in Hd, Hf, Hl. rewrite Hd, Hf, Hl. unfold heads. simpl.
    rewrite length_app, length_map.
    unfold CleanCsv.group_step. simpl.
    destruct others as [|other others]; csimpl;
      rewrite <- ?app_assoc, ?app_nil_r, ?length_map;
      (split_and!; [done|simpl; lia|done]).
Qed.

Lemma group_pairs_positions (g : list (str * (nat * CleanCsv.row))) :
  (take 1 g).*2.*1 ++ (group_pairs g).*2 = g.*2.*1.
Proof.
  destruct g as [|first others]; [done|]. csimpl. f_equal.
  induction others as [|o others IH]; [done|]. csimpl. by f_equal.
Qed.

Lemma groups_partition G :
  (heads G).*2.*1 ++ (flat_map (λ g, group_pairs g.2) G).*2
  ≡ₚ (concat G.*2).*2.*1.
Proof.
  unfold heads. induction G as [|[k g] G IH]; [done|]. csimpl.
  rewrite !fmap_app, <- IH, <- (group_pairs_positions g).
  rewrite <- !app_assoc. apply Permutation_app_head.
  rewrite !app_assoc. apply Permutation_app_tail, Permutation_app_comm.
Qed.

Section Rows.
Variable rows : list CleanCsv.row.

#[local] Abbreviation csv_items := (CleanCsv.all_entries_with_keys cols rows).
#[local] Abbreviation csv_groups := (CleanCsv.group_by fst csv_items).

Lemma csv_groups_pairs o d :
  (o, d) ∈ flat_map (λ g, group_pairs g.2) csv_groups →
  o < d ∧ first_of (csv_key <$> rows) o d.
Proof.
  destruct (group_by_grouped csv_items) as [Hkeys Hheads Hne Hperm Hkey Hsub].
  intros ([k g] & Hg & Hin)%elem_of_flat_map. simpl in Hin.
  destruct g as [|first others]; [by apply elem_of_nil in Hin|]. simpl in Hin.
  apply list_elem_of_fmap in Hin as (other & [= -> ->] & Hother).
  assert (Hfirst : first ∈ first_seen ∅ csv_items).
  { rewrite <- Hheads. unfold heads. apply elem_of_flat_map.
    exists (k, first :: others). split; [done|]. simpl. left. }
  eapply Forall_forall in Hkey, Hsub; [|done..]. simpl in Hkey, Hsub.
  apply Forall_cons in Hkey as [Hkf Hko].
  eapply Forall_forall in Hko; [|done].
  apply sublist_cons_l in Hsub as (k1 & k2 & Heq & Hsub').
  pose proof (elem_of_sublist _ _ _ Hother Hsub') as Hin2.
  apply list_elem_of_split in Hin2 as (k2a & k2b & ->).
  destruct (items_split csv_key rows _ _ _ Heq) as (ro & Hro & ->).
  assert (Heq' : csv_items = (k1 ++ (csv_key ro, (length k1, ro)) :: k2a) ++ other :: k2b)
    by (by rewrite <- app_assoc).
  destruct (items_split csv_key rows _ _ _ Heq') as (rd & Hrd & ->).
  rewrite length_app in *. simpl in *.
  apply (first_seen_first csv_key) in Hfirst as [_ (_ & _ & Hlen & Hf)].
  split; [lia|]. unfold first_of. split_and!; [lia| | |done].
  - rewrite !list_lookup_fmap, Hro, Hrd. simpl. congruence.
  - rewrite length_fmap. by eapply lookup_lt_Some.
Qed.

(** [deduplicate_entries] of [clean_csv.py], when no message fails. *)
Lemma csv_deduplicated file0 :
  let st := CleanCsv.deduplicate_entries cols rows file0 in
  ∃ pairs,
    CleanCsv.duplicate_file st = file0 ++ pairs
    ∧ CleanCsv.all_data st = (first_seen ∅ csv_items).*2
    ∧ deduplicated (csv_key <$> rows) rows
        (CleanCsv.all_data st) (CleanCsv.duplicates_found st) pairs.
Proof.
  cbv zeta. unfold CleanCsv.deduplicate_entries.
  destruct (group_by_grouped csv_items) as [Hkeys Hheads Hne Hperm Hkey Hsub].
  destruct (fold_group_step csv_groups (CleanCsv.State [] 0 file0) Hne)
    as (Hd & Hf & Hl).
  cbv zeta in Hd, Hf, Hl. simpl in Hd, Hf, Hl.
  exists (flat_map (λ g, group_pairs g.2) csv_groups).
  rewrite Hd, Hheads. split_and!; [done..|].
  apply (deduplicated_intro csv_key); [done|done| |apply csv_groups_pairs].
  rewrite <- Hheads, groups_partition, Hperm.
  unfold CleanCsv.all_entries_with_keys. by rewrite (items_positions csv_key).
Qed.

Lemma can_log_rows (ro rd : CleanCsv.row) :
  Forall (λ col, is_Some (ro !! col)) (CleanCsv.logged_columns) →
  is_Some (rd !! "source_file") →
  CleanCsv.can_log ro rd = true.
Proof.
  intros Hro Hrd. unfold CleanCsv.can_log.
  rewrite (bool_decide_eq_true_2 _ Hrd), andb_true_r.
  apply forallb_forall. intros col Hcol%list_elem_of_In.
  apply bool_decide_eq_true_2. by eapply Forall_forall in Hro.
Qed.

Lemma fold_checked G : ∀ st,
  Forall (λ g, ∀ first others, g.2 = first :: others →
            Forall (λ o, CleanCsv.can_log first.2.2 o.2.2 = true) others) G →
  fold_left (λ ost kg, ost ≫= λ s, CleanCsv.group_step_checked s kg) G (Some st)
  = Some (fold_left CleanCsv.group_step G st).
Proof.
  induction G as [|[k g] G IH]; intros st HG; simpl; [done|].
  apply Forall_cons in HG as [Hg HG]. simpl in Hg.
  unfold CleanCsv.group_step_checked at 2. simpl.
  destruct g as [|first others] eqn:Eg.
  - rewrite IH by done. done.
  - replace (forallb _ others) with true; [by rewrite IH|].
    symmetry. apply forallb_forall. intros o Ho%list_elem_of_In.
    specialize (Hg first others eq_refl). by eapply Forall_forall in Hg.
Qed.

Lemma fold_checked_None G :
  fold_left (λ ost kg, ost ≫= λ s, CleanCsv.group_step_checked s kg) G None = None.
Proof. by induction G. Qed.

Lemma csv_checked file0 :
  Forall (λ r : CleanCsv.row,
            Forall (λ col, is_Some (r !! col)) CleanCsv.logged_columns) rows →
  CleanCsv.deduplicate_entries_checked cols rows file0
  = Some (CleanCsv.deduplicate_entries cols rows file0).
Proof.
  intros Hrows. unfold CleanCsv.deduplicate_entries_checked.
  apply fold_checked.
  destruct (group_by_grouped csv_items) as [_ _ _ _ _ Hsub].
  eapply Forall_impl; [done|]. intros [k g] Hg first others Heq.
  simpl in Hg, Heq. subst g.
  assert (Hrow : ∀ it, it ∈ first :: others →
            Forall (λ col, is_Some (it.2.2 !! col)) CleanCsv.logged_columns).
  { intros it Hit.
    pose proof (elem_of_sublist _ _ _ Hit Hg) as (r & Hr & ->)%(items_elem csv_key).
    simpl. eapply Forall_forall in Hrows; [done|]. by eapply list_elem_of_lookup_2. }
  apply Forall_forall. intros o Ho. apply can_log_rows.
  - apply Hrow. left.
  - specialize (Hrow o ltac:(by right)).
    eapply Forall_forall in Hrow; [done|]. left.
Qed.

End Rows.
End Csv.

Section Agreement.
Import Py Keyed.
Context {U : UnicodeData}.
Variable cols : list string.

Lemma key_part_agree (r : CleanCsv.row) col :
  (∀ v, r !! col = Some v → isna v = false) →
  CleanCsv.key_part r col = CleanXlsx.key_part r col.
Proof.
  intros Hna. unfold CleanCsv.key_part, CleanXlsx.key_part.
  destruct (r !! col) as [v|]; [|done]. specialize (Hna v eq_refl).
  unfold CleanCsv.normalize_string, CleanXlsx.normalize_string. rewrite Hna. done.
Qed.

Lemma comparison_key_agree (r : CleanCsv.row) :
  Forall (λ col, ∀ v, r !! col = Some v → isna v = false) cols →
  CleanCsv.generate_comparison_key cols r = CleanXlsx.generate_comparison_key cols r.
Proof.
  intros Hna. unfold CleanCsv.generate_comparison_key, CleanXlsx.generate_comparison_key,
    CleanCsv.key_parts, CleanXlsx.key_parts, CleanCsv.separator.
  f_equal. induction Hna as [|col l Hcol _ IH]; [done|]. simpl.
  by rewrite IH, key_part_agree.
Qed.

Lemma keys_agree (rows : list CleanCsv.row) :
  Forall (λ r : CleanCsv.row,
            Forall (λ col, ∀ v, r !! col = Some v → isna v = false) cols) rows →
  CleanCsv.generate_comparison_key cols <$> rows
  = CleanXlsx.generate_comparison_key cols <$> rows.
Proof.
  intros Hrows. apply list_fmap_ext. intros i r Hr. apply comparison_key_agree.
  eapply Forall_forall in Hrows; [done|]. by eapply list_elem_of_lookup_2.
Qed.

Lemma entries_with_keys_agree (rows : list CleanCsv.row) :
  Forall (λ r : CleanCsv.row,
            Forall (λ col, ∀ v, r !! col = Some v → isna v = false) cols) rows →
  CleanCsv.all_entries_with_keys cols rows = CleanXlsx.all_entries_with_keys cols rows.
Proof.
  intros Hrows. unfold CleanCsv.all_entries_with_keys, CleanXlsx.all_entries_with_keys.
  apply imap_ext. intros i r Hr. simpl. f_equal. apply comparison_key_agree.
  eapply Forall_forall in Hrows; [done|]. by eapply list_elem_of_lookup_2.
Qed.

Lemma deduplicated_pairs_NoDup {A : Type} keys (rows : list A) data found pairs :
  deduplicated keys rows data found pairs → NoDup pairs.
Proof.
  intros [_ _ _ _ Hperm _].
  assert (Hnd : NoDup (data.*1 ++ pairs.*2)) by (rewrite Hperm; apply NoDup_seq).
  apply NoDup_app in Hnd as (_ & _ & Hnd). by apply NoDup_fmap_1 in Hnd.
Qed.

Lemma deduplicated_pairs_perm {A : Type} keys (rows : list A)
    data found pairs data' found' pairs' :
  deduplicated keys rows data found pairs →
  deduplicated keys rows data' found' pairs' →
  pairs ≡ₚ pairs'.
Proof.
  intros Hd Hd'. apply NoDup_Permutation.
  - by eapply deduplicated_pairs_NoDup.
  - by eapply deduplicated_pairs_NoDup.
  - intros [o d]. by rewrite (pairs_first _ _ _ _ _ Hd), (pairs_first _ _ _ _ _ Hd').
Qed.

Lemma first_seen_keys_NoDup {A : Type} (key : A → str) (rows : list A) :
  NoDup (key <$> (first_seen ∅ (imap (λ i r, (key r, (i, r))) rows)).*2.*2).
Proof.
  set (items := imap _ rows).
  assert (Heq : key <$> (first_seen ∅ items).*2.*2 = (first_seen ∅ items).*1).
  { rewrite <- !list_fmap_compose. apply list_fmap_ext. intros i kx Hkx. simpl.
    apply list_elem_of_lookup_2 in Hkx.
    pose proof (elem_of_sublist _ _ _ Hkx (first_seen_sublist _ _)) as Hin.
    apply (items_elem key) in Hin as (r & _ & ->). done. }
  rewrite Heq. apply first_seen_NoDup.
Qed.

End Agreement.

Section KeyError.
Import Py Keyed.
Context {U : UnicodeData}.
Variable cols : list string.
Variable rows : list CleanCsv.row.

Lemma can_log_missing (ro rd : CleanCsv.row) col :
  col ∈ CleanCsv.logged_columns → ro !! col = None →
  CleanCsv.can_log ro rd = false.
Proof.
  intros Hcol Hro. unfold CleanCsv.can_log. apply andb_false_iff. left.
  apply not_true_iff_false. intros Hall.
  rewrite forallb_forall in Hall. specialize (Hall col).
  rewrite <- list_elem_of_In in Hall. specialize (Hall Hcol).
  apply bool_decide_eq_true_1 in Hall. rewrite Hro in Hall. by destruct Hall.
Qed.

Lemma fold_checked_fails G1 g G2 first other others ost :
  g.2 = first :: other :: others →
  CleanCsv.can_log first.2.2 other.2.2 = false →
  fold_left (λ ost kg, ost ≫= λ s, CleanCsv.group_step_checked s kg)
            (G1 ++ g :: G2) ost = None.
Proof.
  intros Hg Hlog. rewrite fold_left_app. simpl.
  set (mid := fold_left _ G1 ost).
  replace (mid ≫= λ s, CleanCsv.group_step_checked s g) with (@None CleanCsv.state).
  - apply fold_checked_None.
  - destruct mid as [s|]; [|done]. simpl. unfold CleanCsv.group_step_checked.
    rewrite Hg. simpl. by rewrite Hlog.
Qed.

(** X20.  [deduplicate_entries] of [clean_csv.py] raises a [KeyError] as
    soon as two rows have the same comparison key and the first row with
    that key lacks one of the columns that the log message reads, whatever
    the comparison columns are. *)
Theorem csv_key_error_on_missing_column (file0 : list (nat * nat)) (i j : nat)
    (ri rj : CleanCsv.row) (col : string) :
  rows !! i = Some ri → rows !! j = Some rj → i < j →
  CleanCsv.generate_comparison_key cols ri = CleanCsv.generate_comparison_key cols rj →
  (∀ u ru, u < i → rows !! u = Some ru →
     CleanCsv.generate_comparison_key cols ru ≠ CleanCsv.generate_comparison_key cols ri) →
  col ∈ CleanCsv.logged_columns → ri !! col = None →
  CleanCsv.deduplicate_entries_checked cols rows file0 = None.
Proof.
  intros Hi Hj Hij Hkey Hfirst Hcol Hmiss.
  unfold CleanCsv.deduplicate_entries_checked.
  set (key := CleanCsv.generate_comparison_key cols) in *.
  set (items := CleanCsv.all_entries_with_keys cols rows).
  destruct (group_by_grouped items) as [Hkeys Hheads Hne Hperm Hgk Hsub].
  set (G := CleanCsv.group_by fst items) in *.
  assert (Hhead : (key ri, (i, ri)) ∈ heads G).
  { rewrite Hheads. apply (first_seen_first key). split; [done|].
    split_and!; [done..| |].
    - rewrite length_fmap. by eapply lookup_lt_Some.
    - intros u Hu. rewrite !list_lookup_fmap, Hi. simpl.
      destruct (rows !! u) as [ru|] eqn:Hru; [|done]. simpl.
      intros [= Heq]. by apply (Hfirst u ru). }
  apply elem_of_flat_map in Hhead as ([k g] & Hg & Hin). simpl in Hin.
  destruct g as [|first others]; [by apply elem_of_nil in Hin|].
  simpl in Hin. apply list_elem_of_singleton in Hin as <-.
  assert (Hitem : (key rj, (j, rj)) ∈ concat G.*2).
  { rewrite Hperm. apply (items_elem key). by exists rj. }
  apply elem_of_concat in Hitem as (l & Hl & Hin).
  apply list_elem_of_fmap in Hl as ([k' g'] & -> & Hg'). simpl in Hin.
  assert (Hk : k = key ri).
  { eapply Forall_forall in Hgk; [|exact Hg]. simpl in Hgk.
    apply Forall_cons in Hgk as [Hk _]. done. }
  assert (Hk' : k' = key rj).
  { eapply Forall_forall in Hgk; [|exact Hg']. simpl in Hgk.
    eapply Forall_forall in Hgk; [|exact Hin]. done. }
  assert (Hnd : NoDup G.*1) by (rewrite Hkeys; apply first_seen_NoDup).
  assert (g' = (key ri, (i, ri)) :: others) as ->.
  { subst k k'. rewrite <- Hkey in Hg'. by eapply NoDup_fst_unique. }
  apply elem_of_cons in Hin as [[= _ Heq _]|Hin]; [lia|].
  destruct others as [|other others]; [by apply elem_of_nil in Hin|].
  apply list_elem_of_split in Hg as (G1 & G2 & ->).
  eapply (fold_checked_fails G1 _ G2); [done|].
  by eapply can_log_missing.
Qed.

End KeyError.

(** ** [list.py] *)

Section Order.
Import Py ListPy.
Implicit Types (a b c : str).

Lemma str_ltb_irrefl a : str_ltb a a = false.
Proof.
  induction a as [|x a IH]; [done|]. simpl.
  by rewrite N.ltb_irrefl, N.eqb_refl, IH.
Qed.

Lemma str_ltb_trans a : ∀ b c,
  str_ltb a b = true → str_ltb b c = true → str_ltb a c = true.
Proof.
  induction a as [|x a IH]; intros [|y b] [|z c]; simpl; try done.
  intros Hab Hbc.
  apply orb_true_iff in Hab as [Hxy%N.ltb_lt|[Hxy%N.eqb_eq Hab]%andb_true_iff];
  apply orb_true_iff in Hbc as [Hyz%N.ltb_lt|[Hyz%N.eqb_eq Hbc]%andb_true_iff];
  apply orb_true_iff.
  - left. apply N.ltb_lt. lia.
  - left. apply N.ltb_lt. lia.
  - left. apply N.ltb_lt. lia.
  - right. apply andb_true_iff. split; [apply N.eqb_eq; lia|]. by eapply IH.
Qed.

Lemma str_ltb_total a : ∀ b, str_ltb a b = false → str_ltb b a = false → a = b.
Proof.
  induction a as [|x a IH]; intros [|y b]; simpl; try done.
  intros Hab Hba.
  apply orb_false_iff in Hab as [Hxy%N.ltb_ge Hab].
  apply orb_false_iff in Hba as [Hyx%N.ltb_ge Hba].
  assert (x = y) as -> by lia. rewrite N.eqb_refl in Hab, Hba. simpl in *.
  f_equal. by apply IH.
Qed.

Lemma str_leb_refl a : str_leb a a = true.
Proof. unfold str_leb. by rewrite str_ltb_irrefl. Qed.

Lemma str_ltb_leb a b : str_ltb a b = true → str_leb a b = true.
Proof.
  intros Hab. unfold str_leb. destruct (str_ltb b a) eqn:Hba; [|done].
  pose proof (str_ltb_trans _ _ _ Hab Hba) as Haa. by rewrite str_ltb_irrefl in Haa.
Qed.

Lemma elem_of_insert_year y years x :
  x ∈ insert_year y years ↔ x = y ∨ x ∈ years.
Proof.
  induction years as [|z rest IH]; simpl.
  - rewrite list_elem_of_singleton, elem_of_nil. tauto.
  - case_bool_decide as Hyz.
    + subst z. rewrite elem_of_cons. tauto.
    + destruct (str_ltb y z); rewrite !elem_of_cons, ?IH; tauto.
Qed.

Lemma elem_of_sorted_set ys x : x ∈ sorted_set ys ↔ x ∈ ys.
Proof.
  induction ys as [|y ys IH]; simpl; [done|].
  by rewrite elem_of_insert_year, elem_of_cons, IH.
Qed.

Lemma insert_year_sorted y years :
  StronglySorted (λ a b, str_ltb a b = true) years →
  StronglySorted (λ a b, str_ltb a b = true) (insert_year y years).
Proof.
  induction 1 as [|z rest Hrest IH Hz]; simpl.
  - by repeat constructor.
  - case_bool_decide as Hyz; [by constructor|].
    destruct (str_ltb y z) eqn:Hlt.
    + constructor; [by constructor|]. constructor; [done|].
      eapply Forall_impl; [done|]. intros a Ha. by eapply str_ltb_trans.
    + constructor; [done|]. apply Forall_forall. intros a [Heq|Ha]%elem_of_insert_year.
      * subst a. destruct (str_ltb z y) eqn:Hza; [done|]. destruct Hyz.
        by apply str_ltb_total.
      * by eapply Forall_forall in Hz.
Qed.

Lemma sorted_set_sorted ys :
  StronglySorted (λ a b, str_ltb a b = true) (sorted_set ys).
Proof.
  induction ys as [|y ys IH]; simpl; [constructor|]. by apply insert_year_sorted.
Qed.

Lemma sorted_head_least (l : list str) lo x :
  StronglySorted (λ a b, str_ltb a b = true) l →
  l !! 0 = Some lo → x ∈ l → str_leb lo x = true.
Proof.
  intros Hs Hlo Hx. destruct Hs as [|z rest Hrest Hz]; [done|].
  injection Hlo as ->. apply elem_of_cons in Hx as [->|Hx]; [apply str_leb_refl|].
  apply str_ltb_leb. by eapply Forall_forall in Hz.
Qed.

Lemma sorted_last_greatest (l : list str) hi x :
  StronglySorted (λ a b, str_ltb a b = true) l →
  last l = Some hi → x ∈ l → str_leb x hi = true.
Proof.
  induction 1 as [|z rest Hrest IH Hz]; [done|].
  intros Hhi Hx. destruct rest as [|z' rest'].
  - injection Hhi as ->. apply list_elem_of_singleton in Hx as ->. apply str_leb_refl.
  - change (last (z' :: rest') = Some hi) in Hhi.
    apply elem_of_cons in Hx as [->|Hx]; [|by apply IH].
    apply str_ltb_leb. eapply Forall_forall in Hz; [done|].
    apply last_Some in Hhi as (l' & Heq). rewrite Heq.
    apply elem_of_app. right. left.
Qed.

(** X22.  [generate_summary] of [list.py] raises an [IndexError] exactly
    when no paper has a year (so on the empty list that [extract_content]
    returns for a missing file); otherwise the summary counts the papers
    and gives, of the years of the papers that have one, the first and the
    last in the order of Python's strings ([str_leb]: code point by code
    point).  That is not the order of the numbers: the year 2021 comes
    before the year 999. *)
Theorem generate_summary_index_error (papers : list paper) :
  (generate_summary papers = None
   ↔ Forall (λ p, year p = lit "N/A") papers)
  ∧ ∀ s, generate_summary papers = Some s →
      total_papers s = length papers
      ∧ papers_with_abstract s ≤ length papers
      ∧ first_year s ∈ known_years papers
      ∧ last_year s ∈ known_years papers
      ∧ ∀ p, p ∈ papers → year p ≠ lit "N/A" →
          str_leb (first_year s) (year p) = true
          ∧ str_leb (year p) (last_year s) = true.
Proof.
  unfold generate_summary.
  pose proof (sorted_set_sorted (known_years papers)) as Hsorted.
  pose proof (elem_of_sorted_set (known_years papers)) as Helem.
  assert (Hknown : ∀ y, y ∈ known_years papers
                        ↔ ∃ p, p ∈ papers ∧ year p = y ∧ y ≠ lit "N/A").
  { intros y. unfold known_years. rewrite list_elem_of_filter, list_elem_of_fmap.
    split.
    - intros (Hy & p & -> & Hp). by exists p.
    - intros (p & Hp & <- & Hy). split; [done|]. by exists p. }
  destruct (sorted_set (known_years papers)) as [|lo years] eqn:Ey; simpl.
  - split; [|done]. split; [|done]. intros _. apply Forall_forall. intros p Hp.
    destruct (decide (year p = lit "N/A")) as [|Hne]; [done|].
    assert (Hin : year p ∈ @nil str) by (apply Helem, Hknown; by exists p).
    by apply elem_of_nil in Hin.
  - split.
    + split; [done|]. intros Hall.
      assert (Hlo : lo ∈ known_years papers) by (apply Helem; left).
      apply Hknown in Hlo as (p & Hp & Hy & Hne).
      eapply Forall_forall in Hall; [|done]. congruence.
    + intros s [= <-]. simpl.
      destruct (last (lo :: years)) as [hi|] eqn:Ehi;
        [|by apply last_None in Ehi].
      simpl. split_and!; [done| | | |].
      * apply length_filter.
      * apply Helem. left.
      * apply Helem. apply last_Some in Ehi as (l' & Heq). rewrite Heq.
        apply elem_of_app. right. left.
      * intros p Hp Hne.
        assert (Hin : year p ∈ lo :: years) by (apply Helem, Hknown; by exists p).
        split.
        -- by apply (sorted_head_least (lo :: years)).
        -- by apply (sorted_last_greatest (lo :: years)).
Qed.

End Order.

Section CleanText.
Import Py ListPy.
Context {U : UnicodeData}.
Hypothesis space_is_space : is_space 32 = true.



Lemma normalize_string_tidy (s : str) :
  let y := strip (sub_spaces false (sub_nonword [] s)) in
  Forall (λ c, keep c = true) y ∧ collapsed false y
  ∧ starts_clean y ∧ starts_clean (rev y).
Proof.
  intros y. subst y. split_and!.
  - apply Forall_rstrip, Forall_lstrip, Forall_sub_spaces;
      [unfold keep; rewrite space_is_space; apply orb_true_r|].
    apply Forall_sub_nonword_keep.
  - unfold strip. apply collapsed_rstrip.
    eapply collapsed_lstrip. by apply collapsed_sub_spaces.
  - unfold strip. apply starts_clean_rstrip, starts_clean_lstrip.
  - unfold strip, rstrip. rewrite rev_involutive. apply starts_clean_lstrip.
Qed.

Lemma normalize_text_words (v : value) :
  is_Mn 32 = false →
  ∃ ws, Forall word ws
        ∧ Forall (Forall (λ c, is_word c = true ∧ is_Mn c = false)) ws
        ∧ CleanMf.normalize_text v = join [32%N] ws.
Proof.
  intros HMn. unfold CleanMf.normalize_text.
  destruct (isna v); [by exists []|].
  set (t := sub_nonword [32%N] _).
  exists (split t). split_and!; [by apply split_ws_words| |done].
  assert (Ht : Forall (λ c, keep c = true ∧ is_Mn c = false) t).
  { apply Forall_and. split.
    - by apply Forall_sub_nonword_space_keep.
    - apply Forall_sub_nonword_space; [done|]. apply Forall_filter_self. }
  pose proof (split_ws_words t [] ltac:(done)) as Hw.
  pose proof (split_ws_chars (λ c, keep c = true ∧ is_Mn c = false) t []
                ltac:(done) Ht) as Hc.
  apply Forall_forall. intros w Hin.
  eapply Forall_forall in Hw, Hc; [|done..]. destruct Hw as [_ Hns].
  apply Forall_forall. intros c Hcw.
  eapply Forall_forall in Hns, Hc; [|done..]. destruct Hc as [Hk Hm].
  split; [|done]. unfold keep in Hk. rewrite Hns, orb_false_r in Hk. done.
Qed.

End CleanText.

(** ** Further properties of the scripts *)

Section SimilarityExtras.
Import Py Clean.
Context {U : UnicodeData}.

(** X1.  The score of [calculate_similarity] lies between 0 and 1, for all
    strings. *)
Theorem similarity_in_unit_interval (str1 str2 : str) :
  (0 <= calculate_similarity str1 str2)%Q ∧ (calculate_similarity str1 str2 <= 1)%Q.
Proof. apply ratio_range. Qed.

(** X2.  Two strings, not both empty, that have no character in common
    score 0. *)
Theorem disjoint_strings_score_zero (str1 str2 : str) :
  str1 ++ str2 ≠ [] → Forall (λ c, c ∉ str2) str1 →
  (calculate_similarity str1 str2 == 0)%Q.
Proof.
  intros Hne Hdis. apply ratio_disjoint; [|done].
  intros c Hc. by eapply Forall_forall in Hdis.
Qed.

End SimilarityExtras.

Section SimilarityWitnesses.
Import Py Clean Examples.

Lemma disjoint_strings_score_zero_witness :
  (lit "web" ++ lit "api" ≠ [] ∧ Forall (λ c, c ∉ lit "api") (lit "web"))
  ∧ (calculate_similarity (lit "web") (lit "api") == 0)%Q.
Proof.
  assert (H1 : lit "web" ++ lit "api" ≠ []) by done.
  assert (H2 : Forall (λ c, c ∉ lit "api") (lit "web")).
  { refine (bool_decide_unpack _ _). vm_compute. exact I. }
  split; [by split|]. exact (disjoint_strings_score_zero _ _ H1 H2).
Defined.

Lemma same_normal_form_is_similar_witness :
  (normalize_string (H:=excerpt) (get_or_empty paper_no_doi "title")
   = normalize_string (H:=excerpt) (get_or_empty paper_doi "title")
   ∧ normalize_string (H:=excerpt) (get_or_empty paper_no_doi "author")
     = normalize_string (H:=excerpt) (get_or_empty paper_doi "author")
   ∧ (title_threshold_default < 1)%Q ∧ (author_threshold_default < 1)%Q)
  ∧ are_entries_similar (H:=excerpt) paper_no_doi paper_doi
      title_threshold_default author_threshold_default = true.
Proof.
  split; [by split_and!|].
  exact (same_normal_form_is_similar (U:=excerpt) paper_no_doi paper_doi
           title_threshold_default author_threshold_default
           eq_refl eq_refl eq_refl eq_refl).
Defined.

Lemma lower_thresholds_keep_similar_witness :
  ((1 # 2 <= title_threshold_default)%Q ∧ (1 # 2 <= author_threshold_default)%Q
   ∧ are_entries_similar (H:=excerpt) paper_no_doi paper_doi
       title_threshold_default author_threshold_default = true)
  ∧ are_entries_similar (H:=excerpt) paper_no_doi paper_doi (1 # 2) (1 # 2) = true.
Proof.
  assert (H1 : (1 # 2 <= title_threshold_default)%Q) by (by vm_compute).
  assert (H2 : (1 # 2 <= author_threshold_default)%Q) by (by vm_compute).
  split; [by split_and!|].
  exact (lower_thresholds_keep_similar (U:=excerpt) paper_no_doi paper_doi
           _ _ _ _ H1 H2 eq_refl).
Defined.

End SimilarityWitnesses.

Section NormalForms.
Import Py.
Context {U : UnicodeData}.

Lemma normalized_nil : normalized [].
Proof. by repeat split. Qed.

(** X5.  What [normalize_string] returns, in [clean.py], [clean_csv.py]
    and [clean_xlsx.py], whatever the character tables (with U+0020 a
    whitespace character): only characters that [\w] or [\s] match, every
    whitespace character a single U+0020, none at the start and none at the
    end. *)
Theorem normalize_string_normal_form (text : option str) (v : value) :
  is_space 32 = true →
  normalized (Clean.normalize_string text)
  ∧ normalized (CleanCsv.normalize_string v)
  ∧ normalized (CleanXlsx.normalize_string v).
Proof.
  intros Hspace. split_and!.
  - unfold Clean.normalize_string. destruct text as [s|]; [|apply normalized_nil].
    destruct (negb (truthy s)); [apply normalized_nil|].
    by apply normalize_string_tidy.
  - unfold CleanCsv.normalize_string. destruct (isna v); [apply normalized_nil|].
    by apply normalize_string_tidy.
  - unfold CleanXlsx.normalize_string. destruct (isna v); [apply normalized_nil|].
    by apply normalize_string_tidy.
Qed.

(** X6.  What [normalize_text] of [clean_mf.py] returns, whatever the
    character tables (with U+0020 a whitespace character and not a
    non-spacing mark): words joined by one U+0020, every word not empty and
    made of characters that [\w] matches and that are not non-spacing
    marks. *)
Theorem normalize_text_normal_form (text : value) :
  is_space 32 = true → is_Mn 32 = false →
  ∃ words,
    CleanMf.normalize_text text = join [32%N] words
    ∧ Forall word words
    ∧ Forall (Forall (λ c, is_word c = true ∧ is_Mn c = false)) words.
Proof.
  intros Hspace HMn.
  destruct (normalize_text_words Hspace text HMn) as (ws & Hw & Hc & Heq).
  by exists ws.
Qed.


End NormalForms.

Section AsciiNormalForms.
Import Py.

(** X8.  On ASCII text normalization is idempotent, for [normalize_string]
    of [clean.py] and for [normalize_text] of [clean_mf.py]: over the Basic
    Latin tables a normal form is its own normal form. *)
Theorem ascii_normalization_idempotent (s : str) :
  Forall (λ c, (c < 128)%N) s →
  let y := Clean.normalize_string (H:=excerpt) (Some s) in
  let z := CleanMf.normalize_text (H:=excerpt) (VStr s) in
  Clean.normalize_string (H:=excerpt) (Some y) = y
  ∧ CleanMf.normalize_text (H:=excerpt) (VStr z) = z.
Proof. intros Hs. by apply normalization_idempotent_ascii. Qed.

End AsciiNormalForms.

Section NormalFormWitnesses.
Import Py Examples.

Lemma normalize_string_normal_form_witness :
  is_space (UnicodeData:=excerpt) 32 = true
  ∧ normalized (H:=excerpt)
      (Clean.normalize_string (H:=excerpt) (Some (lit "  Web-Testing:  A  Survey ")))
  ∧ normalized (H:=excerpt)
      (CleanCsv.normalize_string (H:=excerpt) (VStr (lit "Doe,  J.")))
  ∧ normalized (H:=excerpt)
      (CleanXlsx.normalize_string (H:=excerpt) (VStr (lit "Doe,  J."))).
Proof.
  split; [reflexivity|].
  exact (normalize_string_normal_form (U:=excerpt)
           (Some (lit "  Web-Testing:  A  Survey ")) (VStr (lit "Doe,  J.")) eq_refl).
Defined.

Lemma normalize_text_normal_form_witness :
  (is_space (UnicodeData:=excerpt) 32 = true ∧ is_Mn (UnicodeData:=excerpt) 32 = false)
  ∧ ∃ words,
      CleanMf.normalize_text (H:=excerpt) (VStr (lit "Doe,  J.")) = join [32%N] words
      ∧ Forall (word (H:=excerpt)) words
      ∧ Forall (Forall (λ c, is_word (UnicodeData:=excerpt) c = true
                             ∧ is_Mn (UnicodeData:=excerpt) c = false)) words.
Proof.
  split; [by split|].
  exact (normalize_text_normal_form (U:=excerpt) (VStr (lit "Doe,  J."))
           eq_refl eq_refl).
Defined.


Lemma ascii_normalization_idempotent_witness :
  let s := lit "  Web-Testing:  A  Survey " in
  Forall (λ c, (c < 128)%N) s
  ∧ Clean.normalize_string (H:=excerpt)
      (Some (Clean.normalize_string (H:=excerpt) (Some s)))
    = Clean.normalize_string (H:=excerpt) (Some s)
  ∧ CleanMf.normalize_text (H:=excerpt)
      (VStr (CleanMf.normalize_text (H:=excerpt) (VStr s)))
    = CleanMf.normalize_text (H:=excerpt) (VStr s).
Proof.
  cbv zeta.
  assert (Hs : Forall (λ c, (c < 128)%N) (lit "  Web-Testing:  A  Survey ")).
  { refine (bool_decide_unpack _ _). vm_compute. exact I. }
  split; [done|]. exact (ascii_normalization_idempotent _ Hs).
Defined.

End NormalFormWitnesses.

Section DetectorExtras.
Import Py Clean.
Context {U : UnicodeData}.
Implicit Types (es : list entry).

(** X9.  [check_doi_duplicates] pairs a position [d] with a position [o]
    exactly when the entry at [d] has a DOI that is not empty, [o] is the
    first position whose DOI is the same once lowercased and stripped, and
    [o] comes before [d]; no position is the duplicate of two pairs. *)
Theorem doi_pairs_first_seen es :
  NoDup (check_doi_duplicates es).*2
  ∧ ∀ o d, (o, d) ∈ check_doi_duplicates es
      ↔ d < length es ∧ o < d
        ∧ ∃ key, key_at es d = Some key ∧ first_with es key o.
Proof.
  split; [apply check_doi_duplicates_spec|]. apply check_doi_duplicates_first_seen.
Qed.

(** X10.  Every duplicate that [deduplicate_entries] logs is justified: one
    logged by title and author similarity is a later entry that
    [are_entries_similar] accepts against its original, one logged by DOI
    match is a later entry whose DOI, lowercased and stripped, is that of
    its original. *)
Theorem logged_duplicates_justified es :
  let st := (deduplicate_entries es []).2 in
  (∀ o d, Logged o d Title_Author_similarity ∈ log st →
     o < d < length es ∧ similar_at es o d = true)
  ∧ (∀ o d, Logged o d DOI_match ∈ log st →
       o < d < length es
       ∧ ∃ key, key_at es o = Some key ∧ key_at es d = Some key).
Proof.
  cbv zeta. cbn [deduplicate_entries snd].
  destruct (run_similarity_consistent es) as (Hc & Hta & Hdoi).
  split.
  - intros o d Hin. destruct (Hta _ _ Hin) as (_ & Hod & _).
    split; [|by apply run_justified]. split; [done|].
    apply (consistent_bound _ _ Hc), (consistent_removed _ _ Hc).
    apply elem_of_duplicates_of. by exists o, Title_Author_similarity.
  - intros o d Hin%Hdoi.
    apply check_doi_duplicates_first_seen in Hin as (Hd & Hod & key & Hkd & [Hko _]).
    split; [lia|]. by exists key.
Qed.

(** X11.  No two entries that [deduplicate_entries] returns are similar
    (the earlier against the later, with the default thresholds), and no two
    carry the same DOI up to case and surrounding whitespace. *)
Theorem unique_entries_pairwise_distinct es (a b : nat) (ea eb : entry) :
  let unique := (deduplicate_entries es []).1 in
  a < b → unique !! a = Some ea → unique !! b = Some eb →
  are_entries_similar ea eb title_threshold_default author_threshold_default = false
  ∧ ∀ key, doi_key ea = Some key → doi_key eb ≠ Some key.
Proof. apply unique_entries_distinct. Qed.

(** X12.  [deduplicate_entries] is idempotent: run on its own output it
    returns the same entries and finds no duplicate. *)
Theorem deduplicate_entries_idempotent es :
  let unique := (deduplicate_entries es []).1 in
  let again := deduplicate_entries unique [] in
  again.1 = unique
  ∧ duplicates_count again.2 = 0
  ∧ duplicates_of (log again.2) = [].
Proof.
  cbv zeta. cbn [deduplicate_entries fst snd].
  destruct (rerun_untouched es) as (Hr & Hc & Hd).
  split_and!; [|done..]. by apply unique_of_untouched.
Qed.

(** X13.  The entries that [deduplicate_entries] returns are entries of the
    input in input order, and the first entry of the input is always
    kept. *)
Theorem unique_entries_in_input_order es :
  let unique := (deduplicate_entries es []).1 in
  unique `sublist_of` es ∧ head unique = head es.
Proof.
  cbv zeta. cbn [deduplicate_entries fst]. split; [apply unique_of_sublist|].
  destruct es as [|e es]; [done|]. apply first_kept.
Qed.

End DetectorExtras.

Section DetectorWitnesses.
Import Py Clean Examples.

Lemma unique_entries_pairwise_distinct_witness :
  let es := [paper_no_doi; lower_doi; paper_doi; other_same_doi] in
  let unique := (deduplicate_entries (H:=excerpt) es []).1 in
  (0 < 1 ∧ unique !! 0 = Some paper_no_doi ∧ unique !! 1 = Some lower_doi)
  ∧ are_entries_similar (H:=excerpt) paper_no_doi lower_doi
      title_threshold_default author_threshold_default = false
  ∧ ∀ key, doi_key (H:=excerpt) paper_no_doi = Some key →
           doi_key (H:=excerpt) lower_doi ≠ Some key.
Proof.
  cbv zeta.
  assert (H0 : 0 < 1) by lia.
  split; [by split_and!|].
  exact (unique_entries_pairwise_distinct (U:=excerpt)
           [paper_no_doi; lower_doi; paper_doi; other_same_doi] 0 1
           paper_no_doi lower_doi H0 eq_refl eq_refl).
Defined.

End DetectorWitnesses.

Section MergeExtras.
Import Py CleanMf.
Context {U : UnicodeData}.

(** X14.  [process_files] of [clean_mf.py] splits the entries read: the
    unique entries together with the second components of the duplicate
    pairs are the entries read, each once; and every pair [(original,
    entry)] holds an entry with the first of the unique entries it is a
    duplicate of. *)
Theorem process_files_partition (files : list (list entry)) :
  let unique_entries := (process_files files).1 in
  let duplicates := (process_files files).2 in
  unique_entries ++ duplicates.*2 ≡ₚ concat files
  ∧ length unique_entries + length duplicates = length (concat files)
  ∧ ∀ original duplicate, (original, duplicate) ∈ duplicates →
      find_original duplicate unique_entries = Some original
      ∧ original ∈ unique_entries
      ∧ are_duplicates duplicate original = true.
Proof.
  cbv zeta. destruct (process_files_processed files) as [Hperm _ _ Horig _].
  split_and!; [done| |].
  - apply Permutation_length in Hperm. by rewrite length_app, length_fmap in Hperm.
  - intros u e Hin. pose proof (Horig _ _ Hin) as Hf.
    destruct (find_original_Some _ _ _ Hf). done.
Qed.

(** X15.  No two of the unique entries of [process_files] are duplicates
    of each other, in either order of the arguments of [are_duplicates]. *)
Theorem process_files_unique_distinct (files : list (list entry)) (a b : nat)
    (ea eb : entry) :
  let unique_entries := (process_files files).1 in
  a < b → unique_entries !! a = Some ea → unique_entries !! b = Some eb →
  are_duplicates ea eb = false ∧ are_duplicates eb ea = false.
Proof.
  cbv zeta. intros Hab Ha Hb.
  destruct (process_files_processed files) as [_ _ _ _ Hdist].
  pose proof (Hdist a b ea eb Hab Ha Hb) as Hd.
  split; [|done]. by rewrite are_duplicates_sym.
Qed.

(** X16.  [process_files] is idempotent: on its own unique entries it
    keeps them all and finds no duplicate. *)
Theorem process_files_idempotent (files : list (list entry)) :
  let unique_entries := (process_files files).1 in
  process_files [unique_entries] = (unique_entries, []).
Proof.
  cbv zeta. apply process_unique.
  destruct (process_files_processed files) as [_ _ _ _ Hdist]. apply Hdist.
Qed.

(** X17.  The unique entries of [process_files] are entries read, in the
    order read, and the first entry read is always kept. *)
Theorem process_files_keeps_order (files : list (list entry)) :
  let unique_entries := (process_files files).1 in
  unique_entries `sublist_of` concat files
  ∧ head unique_entries = head (concat files).
Proof.
  cbv zeta. by destruct (process_files_processed files) as [_ Hsub Hhead _ _].
Qed.

End MergeExtras.

Section MergeWitnesses.
Import Py CleanMf Examples.

Lemma process_files_unique_distinct_witness :
  let files := [[upper_doi]; [lower_doi; upper_doi]] in
  let unique_entries := (process_files (H:=excerpt) files).1 in
  (0 < 1 ∧ unique_entries !! 0 = Some upper_doi
   ∧ unique_entries !! 1 = Some lower_doi)
  ∧ are_duplicates (H:=excerpt) upper_doi lower_doi = false
  ∧ are_duplicates (H:=excerpt) lower_doi upper_doi = false.
Proof.
  cbv zeta.
  assert (H0 : 0 < 1) by lia.
  split; [by split_and!|].
  exact (process_files_unique_distinct (U:=excerpt)
           [[upper_doi]; [lower_doi; upper_doi]] 0 1 upper_doi lower_doi
           H0 eq_refl eq_refl).
Defined.

End MergeWitnesses.

Section TableExtras.
Import Py Keyed.
Context {U : UnicodeData}.
Variable comparison_columns : list string.

Lemma read_rows_source (input_files : list (str * option (list CleanXlsx.row))) :
  Forall (λ r : CleanXlsx.row, is_Some (r !! "source_file"))
    (flat_map (λ f, CleanXlsx.read_excel_file f.1 f.2) input_files).
Proof.
  apply Forall_forall. intros r ([path df] & _ & Hr)%elem_of_flat_map.
  simpl in Hr. destruct df as [rows|]; [|by apply elem_of_nil in Hr].
  apply list_elem_of_fmap in Hr as (r' & -> & _). by rewrite lookup_insert_eq.
Qed.

(** X18.  [deduplicate_entries] of [clean_xlsx.py] never fails on the
    frames [read_excel_file] returns, and keeps exactly the first row of
    every comparison key: the rows kept are rows of the input in input
    order, a row is kept exactly when no earlier row has its key, the keys
    of the rows kept are pairwise different, [duplicates_found] counts the
    other rows, and the duplicates file gets one pair for each of them, from
    the first row with its key. *)
Theorem xlsx_keeps_first_occurrences
    (input_files : list (str * option (list CleanXlsx.row)))
    (file0 : list (nat * nat)) :
  let rows := flat_map (λ f, CleanXlsx.read_excel_file f.1 f.2) input_files in
  let key := CleanXlsx.generate_comparison_key comparison_columns in
  ∃ st pairs,
    CleanXlsx.deduplicate_entries comparison_columns input_files file0 = Some st
    ∧ CleanXlsx.duplicate_file st = file0 ++ pairs
    ∧ deduplicated (key <$> rows) rows
        (CleanXlsx.all_data st) (CleanXlsx.duplicates_found st) pairs
    ∧ NoDup (key <$> (CleanXlsx.all_data st).*2).
Proof.
  cbv zeta. unfold CleanXlsx.deduplicate_entries.
  destruct (deduplicate_rows_deduplicated comparison_columns _ file0
              (read_rows_source input_files)) as (st & pairs & Hst & Hfile & Hdata & Hd).
  exists st, pairs. split_and!; [done..|].
  rewrite Hdata. apply first_seen_keys_NoDup.
Qed.

(** X19.  [deduplicate_entries] of [clean_csv.py], on frames whose rows
    hold the columns its log message reads ([Item Title], [Authors],
    [Publication Year], and the [source_file] that [read_csv_file] sets): it
    returns, and keeps exactly the first row of every comparison key, as
    [clean_xlsx.py] does. *)
Theorem csv_keeps_first_occurrences
    (input_files : list (str * option (list CleanCsv.row)))
    (file0 : list (nat * nat)) :
  let rows := flat_map (λ f, CleanCsv.read_csv_file f.1 f.2) input_files in
  let key := CleanCsv.generate_comparison_key comparison_columns in
  Forall (λ r : CleanCsv.row,
            Forall (λ col, is_Some (r !! col)) CleanCsv.logged_columns) rows →
  ∃ st pairs,
    CleanCsv.deduplicate_files comparison_columns input_files file0 = Some st
    ∧ st = CleanCsv.deduplicate_entries comparison_columns rows file0
    ∧ CleanCsv.duplicate_file st = file0 ++ pairs
    ∧ deduplicated (key <$> rows) rows
        (CleanCsv.all_data st) (CleanCsv.duplicates_found st) pairs
    ∧ NoDup (key <$> (CleanCsv.all_data st).*2).
Proof.
  cbv zeta. intros Hrows. unfold CleanCsv.deduplicate_files.
  set (rows := flat_map _ input_files) in *.
  destruct (csv_deduplicated comparison_columns rows file0)
    as (pairs & Hfile & Hdata & Hd).
  exists (CleanCsv.deduplicate_entries comparison_columns rows file0), pairs.
  split_and!; [by apply csv_checked|done..|].
  rewrite Hdata. apply first_seen_keys_NoDup.
Qed.

(** X21.  On frames whose rows hold the logged columns and have no
    missing cell in a comparison column, [clean_csv.py] and [clean_xlsx.py]
    agree: both return, with the same rows kept in the same order, the same
    count of duplicates, and the same pairs in the duplicates file up to
    their order. *)
Theorem csv_xlsx_agree (input_files : list (str * option (list CleanCsv.row)))
    (file0 : list (nat * nat)) :
  let rows := flat_map (λ f, CleanCsv.read_csv_file f.1 f.2) input_files in
  Forall (λ r : CleanCsv.row,
            Forall (λ col, is_Some (r !! col)) CleanCsv.logged_columns) rows →
  Forall (λ r : CleanCsv.row,
            Forall (λ col, ∀ v, r !! col = Some v → isna v = false)
                   comparison_columns) rows →
  ∃ csv xlsx,
    CleanCsv.deduplicate_files comparison_columns input_files file0 = Some csv
    ∧ CleanXlsx.deduplicate_entries comparison_columns input_files file0 = Some xlsx
    ∧ CleanCsv.all_data csv = CleanXlsx.all_data xlsx
    ∧ CleanCsv.duplicates_found csv = CleanXlsx.duplicates_found xlsx
    ∧ CleanCsv.duplicate_file csv ≡ₚ CleanXlsx.duplicate_file xlsx.
Proof.
  cbv zeta. intros Hlog Hna.
  unfold CleanCsv.deduplicate_files, CleanXlsx.deduplicate_entries.
  change (flat_map (λ f, CleanXlsx.read_excel_file f.1 f.2) input_files)
    with (flat_map (λ f, CleanCsv.read_csv_file f.1 f.2) input_files).
  set (rows := flat_map _ input_files) in *.
  assert (Hsource : Forall (λ r : CleanXlsx.row, is_Some (r !! "source_file")) rows).
  { eapply Forall_impl; [exact Hlog|]. intros r Hr.
    apply (proj1 (Forall_forall _ _) Hr "source_file"). left. }
  destruct (csv_deduplicated comparison_columns rows file0)
    as (pairs & Hfile & Hdata & Hd).
  destruct (deduplicate_rows_deduplicated comparison_columns rows file0 Hsource)
    as (st & pairs' & Hst & Hfile' & Hdata' & Hd').
  rewrite <- (keys_agree comparison_columns rows Hna) in Hd'.
  exists (CleanCsv.deduplicate_entries comparison_columns rows file0), st.
  split_and!; [by apply csv_checked|done| | |].
  - by rewrite Hdata, Hdata', (entries_with_keys_agree comparison_columns rows Hna).
  - rewrite (found_count _ _ _ _ _ Hd), (found_count _ _ _ _ _ Hd').
    apply Permutation_length. by eapply deduplicated_pairs_perm.
  - rewrite Hfile, Hfile'. apply Permutation_app_head.
    by eapply deduplicated_pairs_perm.
Qed.

End TableExtras.

Section TableWitnesses.
Import Py Keyed Examples.

#[local] Abbreviation sl_rows :=
  (flat_map (λ f : str * option (list CleanCsv.row), CleanCsv.read_csv_file f.1 f.2)
            sl_files).
#[local] Abbreviation renamed_rows :=
  (flat_map (λ f : str * option (list CleanCsv.row), CleanCsv.read_csv_file f.1 f.2)
            renamed_files).

Lemma sl_rows_logged :
  Forall (λ r : CleanCsv.row,
            Forall (λ col, is_Some (r !! col)) CleanCsv.logged_columns) sl_rows.
Proof. refine (bool_decide_unpack _ _). vm_compute. exact I. Defined.

Lemma sl_rows_complete :
  Forall (λ r : CleanCsv.row,
            Forall (λ col, ∀ v, r !! col = Some v → isna v = false) columns) sl_rows.
Proof.
  repeat constructor; intros v Hv; vm_compute in Hv; by injection Hv as <-.
Defined.

Lemma csv_keeps_first_occurrences_witness :
  Forall (λ r : CleanCsv.row,
            Forall (λ col, is_Some (r !! col)) CleanCsv.logged_columns) sl_rows
  ∧ ∃ st pairs,
      CleanCsv.deduplicate_files (H:=excerpt) columns sl_files [] = Some st
      ∧ st = CleanCsv.deduplicate_entries (H:=excerpt) columns sl_rows []
      ∧ CleanCsv.duplicate_file st = [] ++ pairs
      ∧ deduplicated (CleanCsv.generate_comparison_key (H:=excerpt) columns <$> sl_rows)
          sl_rows (CleanCsv.all_data st) (CleanCsv.duplicates_found st) pairs
      ∧ NoDup (CleanCsv.generate_comparison_key (H:=excerpt) columns
                 <$> (CleanCsv.all_data st).*2).
Proof.
  split; [exact sl_rows_logged|].
  exact (csv_keeps_first_occurrences (U:=excerpt) columns sl_files [] sl_rows_logged).
Defined.

Lemma csv_key_error_on_missing_column_witness :
  let cols := ["Title"]%list%string in
  let first := <["source_file" := VStr (lit "wos.csv")]> (renamed_row "Web Testing") in
  let second := <["source_file" := VStr (lit "wos.csv")]> (renamed_row "web testing") in
  (renamed_rows !! 0 = Some first
   ∧ renamed_rows !! 1 = Some second
   ∧ 0 < 1
   ∧ CleanCsv.generate_comparison_key (H:=excerpt) cols first
     = CleanCsv.generate_comparison_key (H:=excerpt) cols second
   ∧ "Item Title"%string ∈ CleanCsv.logged_columns
   ∧ first !! "Item Title"%string = None)
  ∧ CleanCsv.deduplicate_entries_checked (H:=excerpt) cols renamed_rows [] = None.
Proof.
  cbv zeta.
  assert (H0 : 0 < 1) by lia.
  assert (Hcol : "Item Title"%string ∈ CleanCsv.logged_columns).
  { refine (bool_decide_unpack _ _). vm_compute. exact I. }
  assert (Hfirst : ∀ u (ru : CleanCsv.row), u < 0 → renamed_rows !! u = Some ru →
            CleanCsv.generate_comparison_key (H:=excerpt) ["Title"%string] ru
            ≠ CleanCsv.generate_comparison_key (H:=excerpt) ["Title"%string]
                (<["source_file" := VStr (lit "wos.csv")]> (renamed_row "Web Testing")))
    by (intros; lia).
  split; [by split_and!|].
  exact (csv_key_error_on_missing_column (U:=excerpt) ["Title"%string] renamed_rows []
           0 1 _ _ "Item Title" eq_refl eq_refl H0 eq_refl Hfirst Hcol eq_refl).
Defined.

Lemma csv_xlsx_agree_witness :
  (Forall (λ r : CleanCsv.row,
             Forall (λ col, is_Some (r !! col)) CleanCsv.logged_columns) sl_rows
   ∧ Forall (λ r : CleanCsv.row,
               Forall (λ col, ∀ v, r !! col = Some v → isna v = false) columns)
            sl_rows)
  ∧ ∃ csv xlsx,
      CleanCsv.deduplicate_files (H:=excerpt) columns sl_files [] = Some csv
      ∧ CleanXlsx.deduplicate_entries (H:=excerpt) columns sl_files [] = Some xlsx
      ∧ CleanCsv.all_data csv = CleanXlsx.all_data xlsx
      ∧ CleanCsv.duplicates_found csv = CleanXlsx.duplicates_found xlsx
      ∧ CleanCsv.duplicate_file csv ≡ₚ CleanXlsx.duplicate_file xlsx.
Proof.
  split; [split; [exact sl_rows_logged | exact sl_rows_complete]|].
  exact (csv_xlsx_agree (U:=excerpt) columns sl_files [] sl_rows_logged sl_rows_complete).
Defined.

(** The runs of [clean_csv.py] and [clean_xlsx.py] on the two exports: the
    row of the second export is the duplicate of the first row of the
    first; on the export with the renamed column [clean_csv.py] stops with
    the [KeyError]. *)
Lemma sl_files_run :
  (∃ st, CleanCsv.deduplicate_files (H:=excerpt) columns sl_files [] = Some st
         ∧ (CleanCsv.all_data st).*1 = [0; 1]
         ∧ CleanCsv.duplicates_found st = 1
         ∧ CleanCsv.duplicate_file st = [(0, 2)])
  ∧ (∃ st, CleanXlsx.deduplicate_entries (H:=excerpt) columns sl_files [] = Some st
           ∧ (CleanXlsx.all_data st).*1 = [0; 1]
           ∧ CleanXlsx.duplicates_found st = 1
           ∧ CleanXlsx.duplicate_file st = [(0, 2)])
  ∧ CleanCsv.deduplicate_files (H:=excerpt) ["Title"%string] renamed_files [] = None.
Proof.
  split_and!; [eexists; split; [by vm_compute|by vm_compute]..|by vm_compute].
Qed.

End TableWitnesses.

Section SummaryExamples.
Import Py ListPy Examples.

Lemma generate_summary_runs :
  generate_summary [] = None
  ∧ generate_summary papers = Some (Summary 3 1 (lit "2019") (lit "2021")).
Proof. by vm_compute. Qed.

(** The order of the years is the one of Python's strings, not of the
    numbers they write: with the years 999 and 2021 the summary gives 2021
    as the first year and 999 as the last. *)
Lemma generate_summary_string_order :
  generate_summary
    [Paper (lit "a") (lit "A") [] (lit "999") (lit "Doe");
     Paper (lit "b") (lit "B") [] (lit "2021") (lit "Roe")]
  = Some (Summary 2 0 (lit "2021") (lit "999")).
Proof. by vm_compute. Qed.

End SummaryExamples.

(** ** Running again *)

Section Reruns.
Import Py Clean.
Context {U : UnicodeData}.
Implicit Types (st : state) (ist : id_state) (es : list entry) (address : nat → Z).

Lemma fold_left_rel {A B C} (R : A → B → Prop) (Q : C → Prop)
    (f : A → C → A) (g : B → C → B) (xs : list C) :
  (∀ a b x, Q x → R a b → R (f a x) (g b x)) → Forall Q xs →
  ∀ a b, R a b → R (fold_left f xs a) (fold_left g xs b).
Proof.
  intros Hstep HQ. induction HQ as [|x xs Hx _ IH]; intros a b Hab; simpl; [done|].
  apply IH. by apply Hstep.
Qed.

Lemma same_state_member address n ist st j :
  same_state address n ist st → j < n →
  bool_decide (address j ∈ id_removed_entries ist)
  = bool_decide (j ∈ removed_entries st).
Proof. intros (Hr & _ & _) Hj. apply bool_decide_ext. by apply Hr. Qed.

Lemma same_state_emit address n ist st e :
  same_state address n ist st → same_state address n (id_emit e ist) (emit e st).
Proof.
  intros (Hr & Hc & Hl). split_and!; simpl; [done..|]. by rewrite Hl.
Qed.

Lemma same_state_claim address n ist st o d m :
  distinct_ids n address → d < n →
  same_state address n ist st →
  same_state address n (id_claim address o d m ist) (claim o d m st).
Proof.
  intros Hinj Hd (Hr & Hc & Hl). split_and!; simpl; [|by rewrite Hc|by rewrite Hl].
  intros j Hj. rewrite !elem_of_union, !elem_of_singleton, (Hr j Hj).
  split; (intros [Heq|?]; [left|by right]).
  - by apply Hinj.
  - by rewrite Heq.
Qed.

Lemma id_inner_step_same address es i ist st j :
  distinct_ids (length es) address → j < length es →
  same_state address (length es) ist st →
  same_state address (length es)
    (id_inner_step address es i ist j) (inner_step es i st j).
Proof.
  intros Hinj Hj Hs. unfold id_inner_step, inner_step.
  rewrite (same_state_member _ _ _ _ _ Hs Hj).
  destruct (bool_decide (j ∈ removed_entries st)); [done|].
  destruct (similar_at es i j).
  - by apply same_state_claim, same_state_emit.
  - by apply same_state_emit.
Qed.

Lemma id_outer_step_same address es ist st i :
  distinct_ids (length es) address → i < length es →
  same_state address (length es) ist st →
  same_state address (length es)
    (id_outer_step address es ist i) (outer_step es st i).
Proof.
  intros Hinj Hi Hs. unfold id_outer_step, outer_step.
  rewrite (same_state_member _ _ _ _ _ Hs Hi).
  destruct (bool_decide (i ∈ removed_entries st)); [done|].
  apply (fold_left_rel (same_state address (length es)) (λ j, j < length es));
    [|apply Forall_forall; intros j Hj%elem_of_seq; lia|done].
  intros a b j Hj Hab. by apply id_inner_step_same.
Qed.

Lemma id_run_same address es log0 :
  distinct_ids (length es) address →
  same_state address (length es) (id_run address es log0) (run es log0).
Proof.
  intros Hinj. unfold id_run, run, id_similarity_pass, similarity_pass.
  apply (fold_left_rel (same_state address (length es)) (λ i, i < length es));
    [|apply Forall_forall; intros j Hj%elem_of_seq; lia|].
  - intros a b i Hi Hab. by apply id_outer_step_same.
  - unfold id_doi_pass, doi_pass.
    apply (fold_left_rel (same_state address (length es))
             (λ od : nat * nat, od.2 < length es)).
    + intros a b [o d] Hd Hab. by apply same_state_claim.
    + apply Forall_forall. intros [o d] Hin.
      destruct (check_doi_duplicates_spec es) as [_ Hl].
      destruct (Hl _ _ Hin) as (_ & ? & _). done.
    + split_and!; simpl; [|done..]. intros j _. set_solver.
Qed.

Lemma id_unique_of_same address es ist st :
  same_state address (length es) ist st →
  id_unique_of address es ist = unique_of es st.
Proof.
  intros (Hr & _ & _). unfold id_unique_of, unique_of. f_equal.
  assert (Hlt : Forall (λ ie : nat * entry, ie.1 < length es) (imap pair es)).
  { apply Forall_forall. intros [i e] (i' & e' & [= -> ->] & Hl)%elem_of_lookup_imap.
    by eapply lookup_lt_Some. }
  induction Hlt as [|ie l Hie _ IH]; [done|].
  rewrite !filter_cons, IH.
  pose proof (Hr _ Hie) as Hiff.
  repeat case_decide; try done; tauto.
Qed.

(** A run with any [id]s and any earlier log is the run on positions. *)
Lemma id_deduplicate_entries_same address es log0 :
  distinct_ids (length es) address →
  let result := id_deduplicate_entries address es log0 in
  let partition := deduplicate_entries es [] in
  result.1 = partition.1
  ∧ id_duplicates_count result.2 = duplicates_count partition.2
  ∧ id_log result.2 = log0 ++ log partition.2.
Proof.
  intros Hinj. cbv zeta. cbn [id_deduplicate_entries deduplicate_entries fst snd].
  pose proof (id_run_same address es log0 Hinj) as Hs.
  rewrite (id_unique_of_same _ _ _ _ Hs).
  destruct Hs as (_ & -> & ->). rewrite (run_with_log es log0). done.
Qed.

End Reruns.

Section TieBreaks.
Import Py Clean.
Context {U : UnicodeData}.
Implicit Types (st : state) (es : list entry) (l : list event).

Lemma groups_of_app l1 l2 : groups_of (l1 ++ l2) = groups_of l1 ++ groups_of l2.
Proof. unfold groups_of. apply flat_map_app. Qed.

Lemma elem_of_groups_of l o d m : (o, d, m) ∈ groups_of l ↔ Logged o d m ∈ l.
Proof.
  induction l as [|[i j|o' d' m'] l IH]; simpl.
  - by rewrite !elem_of_nil.
  - rewrite IH, elem_of_cons. split; [by right|]. by intros [?|?].
  - rewrite !elem_of_cons, IH. split; (intros [Heq|?]; [left|by right]); congruence.
Qed.

Lemma groups_of_logged (pairs : list (nat * nat)) m :
  groups_of (map (λ od, Logged od.1 od.2 m) pairs) = (λ od, (od.1, od.2, m)) <$> pairs.
Proof. induction pairs as [|[o d] pairs IH]; [done|]. simpl. by rewrite IH. Qed.

Lemma StronglySorted_snoc {A} (R : relation A) (xs : list A) (y : A) :
  StronglySorted R xs → Forall (λ x, R x y) xs → StronglySorted R (xs ++ [y]).
Proof.
  intros Hl Hy. apply StronglySorted_app_2; [|done|by repeat constructor].
  intros x1 x2 Hx1 ->%list_elem_of_singleton. by eapply Forall_forall in Hy.
Qed.

(** *** The pairs of [check_doi_duplicates] come in the order of their
    duplicates *)

Lemma doi_step_sorted k ds e :
  StronglySorted (λ x y : nat * nat, x.2 < y.2) ds.2 ∧ Forall (λ od, od.2 < k) ds.2 →
  StronglySorted (λ x y : nat * nat, x.2 < y.2) (doi_step ds (k, e)).2
  ∧ Forall (λ od, od.2 < S k) (doi_step ds (k, e)).2.
Proof.
  intros [Hs Hb].
  assert (Hb' : Forall (λ od : nat * nat, od.2 < S k) ds.2).
  { eapply Forall_impl; [done|]. intros od ?. simpl in *. lia. }
  rewrite doi_step_key. destruct (doi_key e) as [key|]; [|done].
  destruct (ds.1 !! key) as [o|]; [|done]. simpl. split.
  - by apply StronglySorted_snoc.
  - apply Forall_app. split; [done|]. apply Forall_singleton. simpl. lia.
Qed.

Lemma doi_fold_sorted es : ∀ k ds,
  StronglySorted (λ x y : nat * nat, x.2 < y.2) ds.2 ∧ Forall (λ od, od.2 < k) ds.2 →
  StronglySorted (λ x y : nat * nat, x.2 < y.2)
    (fold_left doi_step (imap (λ i, pair (k + i)) es) ds).2.
Proof.
  induction es as [|e es IH]; intros k ds Hds; simpl; [by destruct Hds|].
  rewrite Nat.add_0_r.
  erewrite imap_ext; [apply (IH (S k)), doi_step_sorted, Hds|].
  intros i x _; simpl. f_equal. lia.
Qed.

Lemma check_doi_duplicates_sorted es :
  StronglySorted (λ x y : nat * nat, x.2 < y.2) (check_doi_duplicates es).
Proof.
  unfold check_doi_duplicates. apply (doi_fold_sorted es 0 (∅, [])).
  split; simpl; constructor.
Qed.

(** *** The similarity pass gives a duplicate to the first position that can
    take it *)

Lemma first_taken_weaken es t jj t' jj' st :
  (∀ o d, o < t ∨ (o = t ∧ d < jj) → o < t' ∨ (o = t' ∧ d < jj')) →
  first_taken es t jj st → first_taken es t' jj' st.
Proof.
  intros Hle (Hfirst & Hsorted & Hbound). unfold first_taken.
  split; [done|]. split; [done|]. intros o d Hin. by apply Hle, Hbound.
Qed.

Lemma inner_step_first_taken es t st jj :
  t < jj < length es →
  settled es t st → first_taken es t jj st →
  first_taken es t (S jj) (inner_step es t st jj).
Proof.
  intros Hjj Hsettled Hft.
  assert (Hweak : first_taken es t (S jj) st).
  { eapply first_taken_weaken; [|done]. intros o d. lia. }
  unfold inner_step. case_bool_decide as Hr; [done|].
  assert (Hemit : first_taken es t (S jj) (emit (Compared t jj) st)).
  { destruct Hweak as (Hfirst & Hsorted & Hbound). unfold emit, first_taken.
    split_and!; simpl.
    - intros o d [?|[=]%list_elem_of_singleton]%elem_of_app. by apply Hfirst.
    - rewrite groups_of_app. simpl. by rewrite app_nil_r.
    - intros o d [?|[=]%list_elem_of_singleton]%elem_of_app. by apply Hbound. }
  destruct (similar_at es t jj) eqn:Hsim; [|done].
  destruct Hft as (Hfirst & Hsorted & Hbound). unfold claim, emit, first_taken.
  split_and!; simpl.
  - intros o d. rewrite !elem_of_app, !list_elem_of_singleton.
    intros [[Hin|[=]]|[= -> ->]] i Hi Hs; apply elem_of_union; right.
    + by eapply Hfirst.
    + destruct (Hsettled i jj Hi ltac:(lia) Hs) as [?|?]; done.
  - rewrite !groups_of_app. simpl. rewrite app_nil_r.
    apply StronglySorted_snoc; [done|].
    apply Forall_forall. intros [[o d] m] Hin%elem_of_groups_of.
    unfold logged_before. simpl. destruct m; [done|].
    destruct (Hbound _ _ Hin); lia.
  - intros o d. rewrite !elem_of_app, !list_elem_of_singleton.
    intros [[Hin|[=]]|[= -> ->]]; [|lia]. destruct (Hbound _ _ Hin); lia.
Qed.

Lemma inner_step_settled_first es t st jj :
  t < jj < length es →
  settled_inner es t jj st ∧ first_taken es t jj st →
  settled_inner es t (S jj) (inner_step es t st jj)
  ∧ first_taken es t (S jj) (inner_step es t st jj).
Proof.
  intros Hjj [Hs Hft]. split; [by apply inner_step_settled|].
  apply inner_step_first_taken; [done| |done]. by destruct Hs.
Qed.

Lemma outer_step_settled_first es st t :
  t < length es →
  settled es t st ∧ first_taken es t 0 st →
  settled es (S t) (outer_step es st t) ∧ first_taken es (S t) 0 (outer_step es st t).
Proof.
  intros Ht [Hs Hft]. split; [by apply outer_step_settled|].
  unfold outer_step. case_bool_decide as Hr.
  { eapply first_taken_weaken; [|done]. intros o d. lia. }
  set (n := length es) in *.
  assert (Hin : settled_inner es t (t + 1 + (n - (t + 1)))
                  (fold_left (inner_step es t) (seq (t + 1) (n - (t + 1))) st)
                ∧ first_taken es t (t + 1 + (n - (t + 1)))
                    (fold_left (inner_step es t) (seq (t + 1) (n - (t + 1))) st)).
  { apply (fold_left_seq_inv
             (λ jj st, settled_inner es t jj st ∧ first_taken es t jj st)
             (inner_step es t)).
    - intros j a Hj. apply inner_step_settled_first. fold n. lia.
    - split; [split; [done|]; intros j Hj; lia|].
      eapply first_taken_weaken; [|done]. intros o d. lia. }
  destruct Hin as [_ Hft']. eapply first_taken_weaken; [|done]. intros o d. lia.
Qed.

Lemma doi_pass_first_taken es : first_taken es 0 0 (doi_pass es (State ∅ 0 [])).
Proof.
  destruct (doi_pass_spec es) as [_ Hlog]. unfold first_taken. rewrite Hlog.
  split_and!.
  - by intros o d (od & [=] & _)%list_elem_of_fmap.
  - rewrite groups_of_logged.
    eapply StronglySorted_fmap; [|apply check_doi_duplicates_sorted].
    by intros [o d] [o' d'].
  - by intros o d (od & [=] & _)%list_elem_of_fmap.
Qed.

Lemma run_first_taken es : first_taken es (length es) 0 (run es []).
Proof.
  unfold run, similarity_pass.
  apply (fold_left_seq_inv (λ t st, settled es t st ∧ first_taken es t 0 st)
           (outer_step es) (length es) 0).
  - intros i a Hi. apply outer_step_settled_first. lia.
  - split; [intros i j Hi; lia | apply doi_pass_first_taken].
Qed.

Lemma inner_step_log_grows es i st j e : e ∈ log st → e ∈ log (inner_step es i st j).
Proof.
  intros He. unfold inner_step. case_bool_decide; [done|].
  destruct (similar_at es i j); simpl; rewrite ?elem_of_app; tauto.
Qed.

Lemma similarity_pass_log_grows es st e :
  e ∈ log st → e ∈ log (similarity_pass es st).
Proof.
  intros He. unfold similarity_pass.
  apply (fold_left_Forall_inv (λ st, e ∈ log st) (λ _, True));
    [|by apply Forall_forall|done].
  intros a i _ Ha. unfold outer_step. case_bool_decide; [done|].
  apply (fold_left_Forall_inv (λ st, e ∈ log st) (λ _, True));
    [|by apply Forall_forall|done].
  intros b j _. apply inner_step_log_grows.
Qed.

Lemma logged_once l o d m o' m' :
  NoDup (duplicates_of l) → Logged o d m ∈ l → Logged o' d m' ∈ l →
  o = o' ∧ m = m'.
Proof.
  induction l as [|[i j|o0 d0 m0] l IH]; simpl.
  - by intros _ ?%elem_of_nil.
  - intros Hnd [[=]|H1]%elem_of_cons [[=]|H2]%elem_of_cons. by apply IH.
  - intros [Hd Hnd]%NoDup_cons H1%elem_of_cons H2%elem_of_cons.
    assert (Hin : ∀ o1 m1, Logged o1 d0 m1 ∈ l → False).
    { intros o1 m1 Hl. apply Hd, elem_of_duplicates_of. by exists o1, m1. }
    destruct H1 as [H1|H1], H2 as [H2|H2].
    + injection H1 as -> _ ->. by injection H2 as -> _ ->.
    + injection H1 as _ <- _. by destruct (Hin _ _ H2).
    + injection H2 as _ <- _. by destruct (Hin _ _ H1).
    + by apply IH.
Qed.

(** The run on positions follows the tie-breaks. *)
Lemma run_tie_breaks es : tie_breaks es (run es []).
Proof.
  destruct (run_similarity_consistent es) as (Hc & Hta & Hdoi).
  pose proof (run_settled es) as Hsettled.
  pose proof (run_justified es) as Hjust.
  destruct (run_first_taken es) as (Hfirst & Hsorted & _).
  assert (Hdoi_in : ∀ o d, (o, d) ∈ check_doi_duplicates es →
                           Logged o d DOI_match ∈ log (run es [])).
  { intros o d Hin. unfold run. apply similarity_pass_log_grows.
    destruct (doi_pass_spec es) as [_ ->]. apply list_elem_of_fmap. by exists (o, d). }
  assert (Hrule : removal_rule es (removed_entries (run es []))).
  { intros d. split.
    - intros Hd. split; [by apply (consistent_bound _ _ Hc)|].
      apply (consistent_removed _ _ Hc), elem_of_duplicates_of in Hd as (o & m & Hin).
      destruct m.
      + left. exists o. by apply Hdoi.
      + right. exists o. destruct (Hta _ _ Hin) as (_ & ? & ?).
        split_and!; [done..|]. by apply Hjust.
    - intros [Hd [(o & Hin)|(o & Hod & Ho & Hs)]].
      + by eapply doi_duplicate_removed.
      + destruct (Hsettled o d) as [?|?]; [lia|lia|done|done|done]. }
  split; [done| |  |done].
  - intros o d. split; [apply Hdoi | apply Hdoi_in].
  - intros o d. split.
    + intros Hin. destruct (Hta _ _ Hin) as (_ & Hod & Ho).
      assert (Hd : d < length es).
      { apply (consistent_bound _ _ Hc), (consistent_removed _ _ Hc).
        apply elem_of_duplicates_of. by exists o, Title_Author_similarity. }
      split_and!; [lia|done|done| |by apply Hjust|].
      * intros o' Hin'%Hdoi_in.
        by destruct (logged_once _ _ _ _ _ _ (consistent_nodup _ _ Hc) Hin Hin').
      * intros i Hi Hri. destruct (similar_at es i d) eqn:Hs; [|done].
        by destruct (Hri (Hfirst _ _ Hin i Hi Hs)).
    + intros (Hod & Ho & Hnodoi & Hs & Hleast).
      assert (Hd : d ∈ removed_entries (run es [])).
      { apply Hrule. split; [lia|]. right. exists o. split_and!; [lia|done..]. }
      apply (consistent_removed _ _ Hc), elem_of_duplicates_of in Hd as (o' & m & Hin).
      destruct m; [by destruct (Hnodoi o'); apply Hdoi|].
      destruct (Hta _ _ Hin) as (_ & Hod' & Ho').
      destruct (Nat.lt_trichotomy o o') as [Hlt|[->|Hlt]]; [|done|].
      * destruct (similar_at es o d) eqn:Hs'; [|done].
        by destruct (Ho (Hfirst _ _ Hin o Hlt Hs')).
      * pose proof (Hleast o' Hlt Ho') as Hno. by rewrite (Hjust _ _ Hin) in Hno.
Qed.

(** The rule decides what is removed: two sets that follow it are equal. *)
Lemma removal_rule_unique es (R R' : gset nat) :
  removal_rule es R → removal_rule es R' → R = R'.
Proof.
  intros HR HR'. apply set_eq.
  enough (Hall : ∀ n d, d < n → d ∈ R ↔ d ∈ R')
    by (intros d; apply (Hall (S d)); lia).
  induction n as [|n IH]; intros d Hd; [lia|].
  rewrite (HR d), (HR' d). split; intros [Hlen [Hdoi|(o & Ho & Hr & Hs)]];
    (split; [done|]); try (by left); right; exists o; (split_and!; [done| |done]).
  - by rewrite <- (IH o) by lia.
  - by rewrite (IH o) by lia.
Qed.

End TieBreaks.

Section CsvReruns.
Import Py Keyed.
Context {U : UnicodeData}.
Variable cols : list string.
Implicit Types (G : list (str * list (str * (nat * CleanCsv.row)))).

Lemma group_step_checked_with_file l (st : CleanCsv.state) kg :
  CleanCsv.group_step_checked (CleanCsv.with_file l st) kg
  = CleanCsv.with_file l <$> CleanCsv.group_step_checked st kg.
Proof.
  unfold CleanCsv.group_step_checked.
  destruct kg.2 as [|first others] eqn:E; [done|].
  destruct (forallb _ others); [|done]. simpl. by rewrite group_step_with_file.
Qed.

Lemma fold_checked_with_file l G : ∀ ost : option CleanCsv.state,
  fold_left (λ ost kg, ost ≫= λ s, CleanCsv.group_step_checked s kg) G
            (CleanCsv.with_file l <$> ost)
  = CleanCsv.with_file l
      <$> fold_left (λ ost kg, ost ≫= λ s, CleanCsv.group_step_checked s kg) G ost.
Proof.
  induction G as [|kg G IH]; intros ost; simpl; [done|].
  rewrite <- IH. f_equal. destruct ost as [s|]; [|done]. simpl.
  apply group_step_checked_with_file.
Qed.

Lemma checked_with_file rows file0 :
  CleanCsv.deduplicate_entries_checked cols rows file0
  = CleanCsv.with_file file0 <$> CleanCsv.deduplicate_entries_checked cols rows [].
Proof.
  unfold CleanCsv.deduplicate_entries_checked. rewrite <- fold_checked_with_file.
  simpl. unfold CleanCsv.with_file. simpl. by rewrite app_nil_r.
Qed.

Lemma forallb_false_elem {A} (f : A → bool) (xs : list A) :
  forallb f xs = false → ∃ x, x ∈ xs ∧ f x = false.
Proof.
  induction xs as [|x xs IH]; simpl; [done|].
  destruct (f x) eqn:E.
  - intros (y & ? & ?)%IH. exists y. split; [by right|done].
  - intros _. exists x. split; [left|done].
Qed.

Lemma fold_checked_outcome G : ∀ st : CleanCsv.state,
  fold_left (λ ost kg, ost ≫= λ s, CleanCsv.group_step_checked s kg) G (Some st)
  = Some (fold_left CleanCsv.group_step G st)
  ∨ (fold_left (λ ost kg, ost ≫= λ s, CleanCsv.group_step_checked s kg) G (Some st)
     = None
     ∧ ∃ g first others other,
         g ∈ G ∧ g.2 = first :: others ∧ other ∈ others
         ∧ CleanCsv.can_log first.2.2 other.2.2 = false).
Proof.
  induction G as [|[k g] G IH]; intros st; simpl; [by left|].
  unfold CleanCsv.group_step_checked at 2 4. simpl.
  destruct g as [|first others] eqn:Eg.
  - destruct (IH st) as [->|(-> & g' & f' & os' & o' & Hg' & ?)]; [by left|].
    right. split; [done|]. exists g', f', os', o'. split; [by right|done].
  - destruct (forallb _ others) eqn:Eall.
    + simpl. destruct (IH (CleanCsv.group_step st (k, first :: others)))
        as [->|(-> & g' & f' & os' & o' & Hg' & ?)]; [by left|].
      right. split; [done|]. exists g', f', os', o'. split; [by right|done].
    + simpl. right. split; [apply fold_checked_None|].
      apply forallb_false_elem in Eall as (other & Hin & Hlog).
      exists (k, first :: others), first, others, other. split; [left|done].
Qed.

Lemma StronglySorted_sublist {A} (R : relation A) (l1 l2 : list A) :
  l1 `sublist_of` l2 → StronglySorted R l2 → StronglySorted R l1.
Proof.
  induction 1 as [|x l1 l2 Hsub IH|x l1 l2 Hsub IH]; intros Hs; [done| |].
  - apply StronglySorted_inv in Hs as [Hs Hx]. constructor; [by apply IH|].
    apply Forall_forall. intros y Hy. eapply Forall_forall in Hx; [done|].
    by eapply elem_of_sublist.
  - apply StronglySorted_inv in Hs as [Hs _]. by apply IH.
Qed.

Lemma items_sorted {A : Type} (key : A → str) (rows : list A) : ∀ k,
  StronglySorted (λ x y : str * (nat * A), x.2.1 < y.2.1)
    (imap (λ i r, (key r, (k + i, r))) rows)
  ∧ Forall (λ x : str * (nat * A), k ≤ x.2.1) (imap (λ i r, (key r, (k + i, r))) rows).
Proof.
  induction rows as [|r rows IH]; intros k; simpl; [by split; constructor|].
  destruct (IH (S k)) as [Hs Hb].
  assert (Heq : imap ((λ i r0, (key r0, (k + i, r0))) ∘ S) rows
                = imap (λ i r0, (key r0, (S k + i, r0))) rows).
  { apply imap_ext. intros i x _. simpl. do 2 f_equal. lia. }
  rewrite Heq. split.
  - constructor; [done|]. eapply Forall_impl; [exact Hb|]. intros x. simpl. lia.
  - constructor; [simpl; lia|]. eapply Forall_impl; [exact Hb|]. intros x. simpl. lia.
Qed.

Lemma groups_pairs_sorted G :
  Forall (λ g, StronglySorted (λ x y : str * (nat * CleanCsv.row), x.2.1 < y.2.1) g.2) G →
  StronglySorted (λ x y : str * (nat * CleanCsv.row), x.2.1 < y.2.1) (heads G) →
  StronglySorted pair_before (flat_map (λ g, group_pairs g.2) G).
Proof.
  unfold heads. induction 1 as [|[k g] G Hg HG IH]; simpl; [constructor|].
  intros Hheads. destruct g as [|first others]; simpl in *; [by apply IH|].
  apply StronglySorted_inv in Hheads as [Hheads Hfirst].
  apply StronglySorted_inv in Hg as [Hothers Hlt].
  apply StronglySorted_app_2; [| |by apply IH].
  - intros x y (other & -> & Hother)%list_elem_of_fmap
      ([k' g'] & Hg' & Hy)%elem_of_flat_map.
    simpl in Hy. destruct g' as [|first' others']; [by apply elem_of_nil in Hy|].
    simpl in Hy. apply list_elem_of_fmap in Hy as (other' & -> & _).
    left. simpl.
    apply (proj1 (Forall_forall _ _) Hfirst first').
    apply elem_of_flat_map. exists (k', first' :: others'). split; [done|].
    simpl. left.
  - eapply (StronglySorted_fmap _ _ _ others); [|done].
    intros x y Hxy. right. simpl. done.
Qed.

Section Rows.
Variable rows : list CleanCsv.row.

Lemma csv_pairs_sorted :
  StronglySorted pair_before
    (CleanCsv.duplicate_file (CleanCsv.deduplicate_entries cols rows [])).
Proof.
  unfold CleanCsv.deduplicate_entries.
  set (items := CleanCsv.all_entries_with_keys cols rows).
  destruct (group_by_grouped items) as [Hkeys Hheads Hne Hperm Hkey Hsub].
  destruct (fold_group_step (CleanCsv.group_by fst items) (CleanCsv.State [] 0 []) Hne)
    as (_ & _ & ->). simpl.
  destruct (items_sorted (CleanCsv.generate_comparison_key cols) rows 0) as [Hs _].
  apply groups_pairs_sorted.
  - eapply Forall_impl; [exact Hsub|]. intros g Hg.
    eapply StronglySorted_sublist; [exact Hg|exact Hs].
  - rewrite Hheads. eapply StronglySorted_sublist; [apply first_seen_sublist|exact Hs].
Qed.

Lemma csv_settled_outcome :
  CleanCsv.settled_outcome cols rows (CleanCsv.deduplicate_entries_checked cols rows []).
Proof.
  unfold CleanCsv.settled_outcome, CleanCsv.deduplicate_entries_checked.
  set (items := CleanCsv.all_entries_with_keys cols rows).
  set (key := CleanCsv.generate_comparison_key cols).
  destruct (fold_checked_outcome (CleanCsv.group_by fst items) (CleanCsv.State [] 0 []))
    as [->|(-> & [k g] & first & others & other & Hg & Heq & Hother & Hlog)].
  - destruct (csv_deduplicated cols rows []) as (pairs & Hfile & Hdata & Hd).
    change (fold_left CleanCsv.group_step (CleanCsv.group_by fst items)
              (CleanCsv.State [] 0 []))
      with (CleanCsv.deduplicate_entries cols rows []).
    simpl in Hfile. rewrite Hfile. split; [done|].
    rewrite <- Hfile. apply csv_pairs_sorted.
  - simpl in Heq. subst g.
    destruct (group_by_grouped items) as [_ _ _ _ _ Hsub].
    eapply Forall_forall in Hsub; [|exact Hg]. simpl in Hsub.
    assert (Hpair : (first.2.1, other.2.1)
                    ∈ flat_map (λ g, group_pairs g.2) (CleanCsv.group_by fst items)).
    { apply elem_of_flat_map. exists (k, first :: others). split; [done|].
      simpl. apply list_elem_of_fmap. by exists other. }
    apply csv_groups_pairs in Hpair as [Hlt Hfirst].
    assert (Hf : first ∈ items) by (eapply elem_of_sublist; [left|done]).
    assert (Ho : other ∈ items) by (eapply elem_of_sublist; [by right|done]).
    apply (items_elem key) in Hf as (ro & Hro & Hfeq).
    apply (items_elem key) in Ho as (rd & Hrd & Hoeq).
    exists first.2.1, other.2.1, ro, rd. split_and!; [done..|].
    by rewrite Hfeq, Hoeq in Hlog.
Qed.

End Rows.
End CsvReruns.

Section TieBreaksUnique.
Import Py Clean.
Context {U : UnicodeData}.
Implicit Types (st : state) (es : list entry).

Lemma logged_before_asymmetric g h : logged_before g h → logged_before h g → False.
Proof.
  unfold logged_before. destruct g as [[o d] m], h as [[o' d'] m']. simpl.
  destruct m, m'; lia.
Qed.

Lemma StronglySorted_NoDup {A} (R : relation A) (xs : list A) :
  (∀ x, ¬ R x x) → StronglySorted R xs → NoDup xs.
Proof.
  intros Hirr. induction 1 as [|x xs Hs IH Hx]; constructor; [|done].
  intros Hin. eapply Forall_forall in Hx; [|done]. by apply (Hirr x).
Qed.

(** The tie-breaks leave no choice: two states that follow them have the
    same removed positions and the same groups in the same order. *)
Lemma tie_breaks_unique es st st' :
  tie_breaks es st → tie_breaks es st' →
  removed_entries st = removed_entries st'
  ∧ groups_of (log st) = groups_of (log st').
Proof.
  intros [Hr Hd Hs Ho] [Hr' Hd' Hs' Ho'].
  pose proof (removal_rule_unique es _ _ Hr Hr') as Heq.
  split; [done|].
  assert (Hanti : AntiSymm eq logged_before).
  { intros g h Hgh Hhg. by destruct (logged_before_asymmetric g h). }
  apply (StronglySorted_unique logged_before); [done..|].
  apply NoDup_Permutation.
  - eapply StronglySorted_NoDup; [|done]. intros g Hg.
    by apply (logged_before_asymmetric g g).
  - eapply StronglySorted_NoDup; [|done]. intros g Hg.
    by apply (logged_before_asymmetric g g).
  - intros [[o d] m]. rewrite !elem_of_groups_of. destruct m.
    + by rewrite Hd, Hd'.
    + rewrite Hs, Hs', Heq. done.
Qed.

End TieBreaksUnique.

Section Determinism.
Import Py.
Context {U : UnicodeData}.

(** C9.  Running the detector again on the same input gives the same
    partition.

    [clean.py] keeps the removed entries as a set of [id] values, which
    CPython takes from the addresses of the objects and which differ from
    one run to the next; the log and the duplicates file of an earlier run
    are still there.  For any two assignments of pairwise different
    addresses to the entries and any two earlier logs, both runs return the
    unique entries, the count and the groups, in their order, of the run on
    positions from an empty log.  That run follows the tie-breaks of
    [tie_breaks]: a position is removed exactly when it repeats a DOI or is
    similar to an earlier position that is kept, the original of a
    similarity group is the first kept position similar to the duplicate,
    and the groups are logged DOI pairs first, then by original and
    duplicate; any state that follows these tie-breaks has the same removed
    positions and the same groups in the same order.

    [clean_csv.py] holds no object identities; the duplicates file of an
    earlier run is still there.  For any two earlier files both runs raise
    the [KeyError] or both return, with the same rows and count, and append
    the same pairs; the outcome is the one of [settled_outcome]. *)
Theorem rerun_same_partition (es : list Clean.entry)
    (address1 address2 : nat → Z) (log1 log2 : list Clean.event)
    (cols : list string) (input_files : list (str * option (list CleanCsv.row)))
    (file1 file2 : list (nat * nat)) :
  Clean.distinct_ids (length es) address1 →
  Clean.distinct_ids (length es) address2 →
  let first := Clean.id_deduplicate_entries address1 es log1 in
  let second := Clean.id_deduplicate_entries address2 es log2 in
  let partition := Clean.deduplicate_entries es [] in
  let rows := flat_map (λ f, CleanCsv.read_csv_file f.1 f.2) input_files in
  let csv_first := CleanCsv.deduplicate_files cols input_files file1 in
  let csv_second := CleanCsv.deduplicate_files cols input_files file2 in
  let csv_partition := CleanCsv.deduplicate_files cols input_files [] in
  (first.1 = partition.1 ∧ second.1 = partition.1
   ∧ Clean.id_duplicates_count first.2 = Clean.duplicates_count partition.2
   ∧ Clean.id_duplicates_count second.2 = Clean.duplicates_count partition.2
   ∧ Clean.id_log first.2 = log1 ++ Clean.log partition.2
   ∧ Clean.id_log second.2 = log2 ++ Clean.log partition.2
   ∧ (∀ j, j < length es →
        (address1 j ∈ Clean.id_removed_entries first.2
         ↔ j ∈ Clean.removed_entries partition.2)
        ∧ (address2 j ∈ Clean.id_removed_entries second.2
           ↔ j ∈ Clean.removed_entries partition.2))
   ∧ Clean.tie_breaks es partition.2
   ∧ ∀ st, Clean.tie_breaks es st →
       Clean.removed_entries st = Clean.removed_entries partition.2
       ∧ Clean.groups_of (Clean.log st) = Clean.groups_of (Clean.log partition.2))
  ∧ (csv_first = CleanCsv.with_file file1 <$> csv_partition
     ∧ csv_second = CleanCsv.with_file file2 <$> csv_partition
     ∧ CleanCsv.settled_outcome cols rows csv_partition).
Proof.
  intros Hid1 Hid2. cbv zeta. split.
  - destruct (id_deduplicate_entries_same address1 es log1 Hid1) as (Hu1 & Hc1 & Hl1).
    destruct (id_deduplicate_entries_same address2 es log2 Hid2) as (Hu2 & Hc2 & Hl2).
    split_and!; [done..| | |].
    + intros j Hj.
      destruct (id_run_same address1 es log1 Hid1) as (Hm1 & _).
      destruct (id_run_same address2 es log2 Hid2) as (Hm2 & _).
      cbn [Clean.id_deduplicate_entries Clean.deduplicate_entries fst snd].
      rewrite (Hm1 j Hj), (Hm2 j Hj).
      rewrite (run_with_log es log1), (run_with_log es log2). done.
    + apply run_tie_breaks.
    + intros st Hst. apply (tie_breaks_unique es); [done|apply run_tie_breaks].
  - unfold CleanCsv.deduplicate_files. split_and!.
    + apply checked_with_file.
    + apply checked_with_file.
    + apply csv_settled_outcome.
Qed.

End Determinism.

Section RerunExamples.
Import Py Clean Examples.

Lemma rerun_same_partition_witness :
  let es := [paper_no_doi; paper_doi; other_same_doi] in
  let first :=
    id_deduplicate_entries (H:=excerpt) (λ i, 4096 + 64 * Z.of_nat i)%Z es [] in
  let second :=
    id_deduplicate_entries (H:=excerpt) (λ i, 512 - 8 * Z.of_nat i)%Z es (id_log first.2) in
  first.1 = [paper_no_doi] ∧ second.1 = [paper_no_doi]
  ∧ id_log second.2 = id_log first.2 ++ id_log first.2.
Proof.
  pose proof (rerun_same_partition (U:=excerpt)
                [paper_no_doi; paper_doi; other_same_doi]
                (λ i, 4096 + 64 * Z.of_nat i)%Z (λ i, 512 - 8 * Z.of_nat i)%Z
                []
                [Logged 1 2 DOI_match; Compared 0 1;
                 Logged 0 1 Title_Author_similarity]
                columns sl_files [] [(0, 2)]) as Hrerun.
  cbv zeta in Hrerun.
  destruct Hrerun as [(H1 & H2 & _ & _ & Hl1 & Hl2 & _) _].
  - intros i j _ _. lia.
  - intros i j _ _. lia.
  - cbv zeta. split_and!.
    + rewrite H1. vm_compute. reflexivity.
    + change (id_log _) with
        [Logged 1 2 DOI_match; Compared 0 1; Logged 0 1 Title_Author_similarity]
        at 1.
      rewrite H2. vm_compute. reflexivity.
    + vm_compute. reflexivity.
Defined.

(** Where two entries had the same [id] the run would remove both for one:
    the three records at one address leave no unique entry.  The entries of
    a run are live at the same time, so CPython gives them different
    addresses. *)
Lemma colliding_ids_remove_more :
  let es := [paper_no_doi; paper_doi; other_same_doi] in
  (id_deduplicate_entries (H:=excerpt) (λ _, 4096%Z) es []).1 = []
  ∧ (deduplicate_entries (H:=excerpt) es []).1 = [paper_no_doi].
Proof. by vm_compute. Qed.

End RerunExamples.
